(** * news-assistant: the relevance and selection engine of frontend/script.js

    A shallow embedding of the query parser, the stemmer, the domain
    expander, the headline scorer, the mention reconciler and the video
    candidate filter, followed by the properties proved about them.

    Conventions of the embedding.
    - A JavaScript string is a [string] of ASCII characters; [toLowerCase],
      [trim] and the character classes of the regular expressions are the
      ASCII ones (text outside ASCII is outside the model).
    - An absent (undefined or null) property is [None]; [x || ''] is [orEmpty].
    - Module-level state read by a function ([domainTerms], [headlines]) and
      the form controls it reads from the page are explicit arguments.
    - Platform functions with no source in the repository ([URL],
      [String.prototype.localeCompare]) are Section variables. *)

From Stdlib Require Import String Ascii List Bool Arith ZArith Lia.
From Stdlib Require Import Permutation Sorted.
From Stdlib Require QArith.
Import ListNotations.
Local Open Scope string_scope.
Local Open Scope list_scope.
Local Open Scope nat_scope.

(* ================================================================== *)
(** * Part I. The program *)
(* ================================================================== *)

(** ** JavaScript string primitives (ASCII) *)
Module JS.

Definition code (c : ascii) : nat := nat_of_ascii c.

Definition between (lo hi : nat) (c : ascii) : bool :=
  (lo <=? code c) && (code c <=? hi).

Definition isUpper : ascii -> bool := between 65 90.
Definition isLower : ascii -> bool := between 97 122.
Definition isDigit : ascii -> bool := between 48 57.

(** [\s]: space, tab, line feed, vertical tab, form feed, carriage return. *)
Definition isSpace (c : ascii) : bool := (code c =? 32) || between 9 13 c.

(** [\w]: letters, digits and the underscore. *)
Definition isWord (c : ascii) : bool :=
  isUpper c || isLower c || isDigit c || (code c =? 95).

Definition lowerChar (c : ascii) : ascii :=
  if isUpper c then ascii_of_nat (code c + 32) else c.

Fixpoint toLowerCase (s : string) : string :=
  match s with
  | EmptyString => EmptyString
  | String c r => String (lowerChar c) (toLowerCase r)
  end.

Definition isEmpty (s : string) : bool :=
  match s with EmptyString => true | _ => false end.

(** A string in a boolean position: the empty string is falsy. *)
Definition truthy (s : string) : bool := negb (isEmpty s).

Definition orEmpty (o : option string) : string :=
  match o with Some s => s | None => "" end.

Fixpoint trimStart (s : string) : string :=
  match s with
  | String c r => if isSpace c then trimStart r else s
  | EmptyString => EmptyString
  end.

Fixpoint trimEnd (s : string) : string :=
  match s with
  | EmptyString => EmptyString
  | String c r =>
      let r' := trimEnd r in
      if isSpace c && isEmpty r' then EmptyString else String c r'
  end.

Definition trim (s : string) : string := trimEnd (trimStart s).

(** [s.startsWith(p)] *)
Definition startsWith (s p : string) : bool := String.prefix p s.

(** [s.endsWith(suf)] *)
Definition endsWith (s suf : string) : bool :=
  (String.length suf <=? String.length s) &&
  String.eqb (substring (String.length s - String.length suf)
                        (String.length suf) s) suf.

(** [s.includes(sub)] *)
Fixpoint includes (s sub : string) : bool :=
  String.prefix sub s ||
  match s with
  | EmptyString => false
  | String _ r => includes r sub
  end.

(** [s.slice(0, -n)] for [0 < n <= s.length] *)
Definition dropEnd (s : string) (n : nat) : string :=
  substring 0 (String.length s - n) s.

(** [s.split(' ')]: the pieces between single spaces; never empty. *)
Fixpoint split_space (s : string) : list string :=
  match s with
  | EmptyString => [EmptyString]
  | String c r =>
      if Ascii.eqb c " "%char then EmptyString :: split_space r
      else match split_space r with
           | w :: ws => String c w :: ws
           | [] => [String c EmptyString]
           end
  end.

(** [set.has(x)] / [arr.includes(x)] on strings. *)
Definition mem (x : string) (l : list string) : bool :=
  existsb (String.eqb x) l.

End JS.

(** ** The fixed regular expressions of script.js

    Every regular expression literal of the engine is a search for one of a
    few alternatives, each a sequence of literals, [\s+], [\b] and the group
    [(^|[_\-\s])].  [test] decides whether some alternative matches at some
    position, which is what [RegExp.prototype.test] returns. *)
Module Re.
Import JS.

Inductive atom : Type :=
| Lit (s : string)      (* the characters of s *)
| Spaces                (* \s+ *)
| WordB                 (* \b *)
| StartOrSep.           (* (^|[_\-\s]) *)

Definition pattern := list atom.

Definition isWordOpt (o : option ascii) : bool :=
  match o with Some c => isWord c | None => false end.

Definition peek (s : string) : option ascii :=
  match s with String c _ => Some c | EmptyString => None end.

(** [\b] between the character before the position and the one at it. *)
Definition boundary (prev : option ascii) (s : string) : bool :=
  xorb (isWordOpt prev) (isWordOpt (peek s)).

(** Consume the literal [l] at the front of [s]; the result carries the last
    character consumed (for a later [\b]) and the rest of the input. *)
Fixpoint stripLit (l : string) (prev : option ascii) (s : string)
  : option (option ascii * string) :=
  match l with
  | EmptyString => Some (prev, s)
  | String a l' =>
      match s with
      | String c r => if Ascii.eqb a c then stripLit l' (Some c) r else None
      | EmptyString => None
      end
  end.

Definition isSep (c : ascii) : bool :=
  (code c =? 95) || (code c =? 45) || isSpace c.

Fixpoint matchHere (p : pattern) (prev : option ascii) (s : string)
  {struct p} : bool :=
  match p with
  | [] => true
  | Lit l :: p' =>
      match stripLit l prev s with
      | Some (prev', r) => matchHere p' prev' r
      | None => false
      end
  | Spaces :: p' =>
      (fix spaces (s : string) : bool :=
         match s with
         | String c r => isSpace c && (matchHere p' (Some c) r || spaces r)
         | EmptyString => false
         end) s
  | WordB :: p' => boundary prev s && matchHere p' prev s
  | StartOrSep :: p' =>
      (match prev with None => matchHere p' prev s | Some _ => false end) ||
      (match s with
       | String c r => isSep c && matchHere p' (Some c) r
       | EmptyString => false
       end)
  end.

Fixpoint searchFrom (p : pattern) (prev : option ascii) (s : string) : bool :=
  matchHere p prev s ||
  match s with
  | String c r => searchFrom p (Some c) r
  | EmptyString => false
  end.

Definition test (alts : list pattern) (s : string) : bool :=
  existsb (fun p => searchFrom p None s) alts.

(** [new RegExp(escapeRegExp(lit)).test(s)]: escaping makes every character
    of [lit] literal, so the test is substring containment. *)
Definition testLiteral (lit s : string) : bool := includes s lit.

(** [new RegExp(`\\b${escapeRegExp(t)}\\b`, 'i').test(s)]: the literal [t],
    compared without regard to case, with a word boundary on either side. *)
Definition testWord (t s : string) : bool :=
  test [[WordB; Lit (toLowerCase t); WordB]] (toLowerCase s).

End Re.

(** ** Text normalisation and tokens (lines 461-470, 522-525) *)
Module Text.
Import JS.

Definition STOPWORDS : list string :=
  ["the";"a";"an";"of";"for";"and";"to";"in";"on";"at";"with";"from";"by";
   "about";"as";"is";"are";"was";"were";"be";"been";"it";"this";"that";
   "these";"those";"you";"your"].

(** [.replace(/[^a-z0-9\s]/g, ' ')] *)
Fixpoint blankNonAlnum (s : string) : string :=
  match s with
  | EmptyString => EmptyString
  | String c r =>
      String (if isLower c || isDigit c || isSpace c then c else " "%char)
             (blankNonAlnum r)
  end.

(** [.replace(/\s+/g, ' ')]: every maximal run of white space becomes one
    space.  [inRun] tells that the previous character was white space. *)
Fixpoint collapseFrom (inRun : bool) (s : string) : string :=
  match s with
  | EmptyString => EmptyString
  | String c r =>
      if isSpace c
      then if inRun then collapseFrom true r
           else String " "%char (collapseFrom true r)
      else String c (collapseFrom false r)
  end.

Definition collapseSpaces : string -> string := collapseFrom false.

Definition normalizeText (s : string) : string :=
  trim (collapseSpaces (blankNonAlnum (toLowerCase s))).

(** The filter shared by [tokensFromTitle], [tokensFromText] and
    [parseQueryParts]: non-empty, at least three characters, not a stopword. *)
Definition informative (t : string) : bool :=
  truthy t && (3 <=? String.length t) && negb (mem t STOPWORDS).

Definition tokensFromText (text : string) : list string :=
  filter informative (split_space (normalizeText text)).

Definition tokensFromTitle (title : string) : list string :=
  filter informative (split_space (normalizeText title)).

End Text.

(** ** Light stemming (lines 473-536) *)
Module Stemmer.
Import JS.

Definition rules : list (string * string) :=
  [("ically","ic"); ("ally","al"); ("ingly","ing"); ("iness","y");
   ("fulness","ful"); ("ations","ation"); ("tional","tion");
   ("ational","ation"); ("ively","ive"); ("ously","ous");
   ("lessness","less"); ("ments","ment"); ("ment","ment"); ("ness","");
   ("less","less"); ("ships","ship"); ("ship","ship"); ("ings","ing");
   ("ing",""); ("ized","ize"); ("izes","ize"); ("izer","ize");
   ("edly","ed"); ("edly","ed"); ("ed",""); ("ers","er"); ("er","");
   ("ies","y"); ("ics","ic"); ("ical","ic"); ("ials","ial"); ("ial","ial");
   ("als","al"); ("al","al"); ("s","")].

(** The [for ... break] loop: the first rule whose suffix ends [s] and leaves
    at least three characters rewrites [s]; no rule leaves [s] as it is. *)
Fixpoint applyFirst (rs : list (string * string)) (s : string) : string :=
  match rs with
  | [] => s
  | (suf, repl) :: rest =>
      if endsWith s suf && (3 <=? String.length s - String.length suf)
      then (dropEnd s (String.length suf) ++ repl)%string
      else applyFirst rest s
  end.

Definition simpleStem (w : string) : string := applyFirst rules (toLowerCase w).

(** The three tests of the loop body on one candidate token. *)
Definition stemMatch (q tok : string) : bool :=
  let st := simpleStem tok in
  String.eqb st q
  || (startsWith st q && (String.length st - String.length q <=? 3))
  || (startsWith q st && (String.length q - String.length st <=? 2)).

Definition tokensContainStem (tokens : list string) (queryToken : string) : bool :=
  let q := simpleStem queryToken in
  existsb (stemMatch q) tokens.

End Stemmer.

(** ** Query parsing (lines 642-660) *)
Module Query.
Import JS Text.

(** [excludeTokens] and [anchorTokens] are absent from what [parseQueryParts]
    returns and present in what [expandQueryWithDomain] builds. *)
Record QueryParts : Type := mkQueryParts {
  phrases : list string;
  tokens : list string;
  excludeTokens : option (list string);
  anchorTokens : option (list string)
}.

Definition dquote : ascii := ascii_of_nat 34.

(** One pass over [q] for the global regular expression of the parser: a
    double quote, one or more characters that are not one (the captured
    group), a double quote.  [pending] holds the
    characters read since an opening quote that is still unmatched.  The
    result is the list of captured groups, in order, and [q] with every match
    replaced by one space.  An opening quote followed at once by a quote
    matches nothing there, and the second quote may open a match; an opening
    quote never closed stays in the text with what follows it. *)
Fixpoint scanQuoted (s : string) (pending : option string)
  : list string * string :=
  match s with
  | EmptyString =>
      match pending with
      | None => ([], EmptyString)
      | Some acc => ([], String dquote acc)
      end
  | String c r =>
      match pending with
      | None =>
          if Ascii.eqb c dquote then scanQuoted r (Some EmptyString)
          else let (ps, rest) := scanQuoted r None in (ps, String c rest)
      | Some acc =>
          if Ascii.eqb c dquote then
            if isEmpty acc
            then let (ps, rest) := scanQuoted r (Some EmptyString) in
                 (ps, String dquote rest)
            else let (ps, rest) := scanQuoted r None in
                 (acc :: ps, String " "%char rest)
          else scanQuoted r (Some (acc ++ String c EmptyString)%string)
      end
  end.

Definition parseQueryParts (q : string) : QueryParts :=
  if isEmpty q then mkQueryParts [] [] None None
  else
    let (groups, rest) := scanQuoted q None in
    let phs := filter truthy (map trim groups) in
    let rough := filter truthy (split_space (normalizeText rest)) in
    let toks :=
      filter (fun t => (3 <=? String.length t) && negb (mem t STOPWORDS)) rough in
    mkQueryParts phs toks None None.

End Query.

(** ** Domain expansion (lines 203-334) *)
Module Domain.
Import JS Re Text Query.

(** An object keyed by region: its own keys in [Object.keys] order, each with
    its array of names.  The keys of an object are pairwise distinct. *)
Definition RegionMap := list (string * list string).

Record Politics : Type := mkPolitics {
  synonyms : option (list string);
  related_terms : option (list string);
  parties : option RegionMap;
  institutions : option RegionMap;
  people : option RegionMap
}.

Record DomainTerms : Type := mkDomainTerms {
  politics : option Politics
}.

(** [obj[r]] when it is an array. *)
Fixpoint lookup (m : RegionMap) (r : string) : option (list string) :=
  match m with
  | [] => None
  | (k, v) :: rest => if String.eqb k r then Some v else lookup rest r
  end.

Definition keys (m : RegionMap) : list string := map fst m.

(** [set.add(x)]: a [Set] keeps insertion order and ignores a value it has. *)
Definition setAdd (set : list string) (x : string) : list string :=
  if mem x set then set else set ++ [x].

Definition setAddAll (set xs : list string) : list string :=
  fold_left setAdd xs set.

Definition shouldUsePoliticsDomain (query : string) : bool :=
  let q := toLowerCase query in
  test [[Lit "politic"]; [Lit "parliament"]; [Lit "congress"]; [Lit "senate"];
        [Lit "election"]; [Lit "government"]; [Lit "whitehall"];
        [Lit "downing"; Spaces; Lit "street"]] q.

(** [feedGroup] is the value of the feed-group control ([""] when there is
    none). *)
Definition inferRegionFromGroup (feedGroup : string) : option string :=
  let g := toLowerCase feedGroup in
  if isEmpty g then None
  else if test [[StartOrSep; Lit "uk"]; [StartOrSep; Lit "brit"];
                [StartOrSep; Lit "eng"]; [StartOrSep; Lit "wales"];
                [StartOrSep; Lit "scot"]] g then Some "uk"
  else if test [[StartOrSep; Lit "us"]; [StartOrSep; Lit "usa"];
                [StartOrSep; Lit "america"]; [StartOrSep; Lit "states"]] g
       then Some "usa"
  else if test [[StartOrSep; Lit "eu"]; [StartOrSep; Lit "europe"];
                [StartOrSep; Lit "european"]] g then Some "eu"
  else None.

Definition detectRegionsFromQuery (query : string) : list string :=
  let q := toLowerCase query in
  let r0 : list string := [] in
  let r1 :=
    if test [[WordB; Lit "uk"; WordB]; [Lit "united"; Spaces; Lit "kingdom"];
             [Lit "british"]; [Lit "england"]; [Lit "scotland"]; [Lit "wales"];
             [Lit "northern"; Spaces; Lit "ireland"]] q
    then setAdd r0 "uk" else r0 in
  let r2 :=
    if test [[WordB; Lit "usa"; WordB]; [WordB; Lit "us"; WordB];
             [Lit "united"; Spaces; Lit "states"]; [Lit "america"];
             [Lit "american"]] q
    then setAdd r1 "usa" else r1 in
  if test [[WordB; Lit "eu"; WordB]; [Lit "europe"]; [Lit "european"];
           [Lit "european"; Spaces; Lit "union"]] q
  then setAdd r2 "eu" else r2.

Definition detectRegionsFromContext (feedGroup query : string) : list string :=
  let regions := detectRegionsFromQuery query in
  if length regions =? 0 then
    match inferRegionFromGroup feedGroup with
    | Some fromGroup => setAdd regions fromGroup
    | None => regions
    end
  else regions.

Definition defaultRegionAnchors (region : string) : list string :=
  if String.eqb region "uk" then
    ["uk";"british";"england";"scotland";"wales";"northern ireland";
     "westminster";"downing street";"whitehall";"house of commons";
     "house of lords";"no 10";"number 10"]
  else if String.eqb region "usa" then
    ["usa";"us";"american";"washington";"white house";"capitol hill";
     "senate";"congress"]
  else if String.eqb region "eu" then
    ["eu";"europe";"european";"brussels";"strasbourg";"commission"]
  else [].

(** The closure [addTerm]: [out] is the object under construction, of which
    it may extend [phrases] or [tokens]. *)
Definition addTerm (out : QueryParts) (t : string) : QueryParts :=
  if isEmpty t then out
  else
    let s := trim t in
    if isEmpty s then out
    else if includes s " " then
      let low := toLowerCase s in
      if existsb (fun ph => String.eqb (toLowerCase ph) low) (phrases out)
      then out
      else mkQueryParts (phrases out ++ [s]) (tokens out)
                        (excludeTokens out) (anchorTokens out)
    else
      let low := toLowerCase s in
      if negb (existsb (fun tok => String.eqb (toLowerCase tok) low) (tokens out))
         && negb (mem low STOPWORDS) && (2 <=? String.length low)
      then mkQueryParts (phrases out) (tokens out ++ [s])
                        (excludeTokens out) (anchorTokens out)
      else out.

(** [list.forEach(addTerm)] *)
Definition addTerms (out : QueryParts) (ts : list string) : QueryParts :=
  fold_left addTerm ts out.

Definition orNil (o : option (list string)) : list string :=
  match o with Some l => l | None => [] end.

(** The closure [addFromRegions] over [targetRegions]. *)
Definition addFromRegions (targetRegions : list string)
  (out : QueryParts) (obj : option RegionMap) : QueryParts :=
  match obj with
  | None => out
  | Some m =>
      fold_left (fun o r => match lookup m r with
                            | Some arr => addTerms o arr
                            | None => o
                            end) targetRegions out
  end.

(** The closure [collectFromRegions] over [otherRegions]. *)
Definition collectFromRegions (otherRegions : list string)
  (obj : option RegionMap) : list string :=
  match obj with
  | None => []
  | Some m =>
      fold_left (fun list r => match lookup m r with
                               | Some arr => list ++ arr
                               | None => list
                               end) otherRegions []
  end.

Definition regionNames (obj : option RegionMap) (r : string) : list string :=
  match obj with
  | Some m => orNil (lookup m r)
  | None => []
  end.

Definition objectKeys (obj : option RegionMap) : list string :=
  match obj with Some m => keys m | None => [] end.

(** One round of the loop that fills [anchorSet]. *)
Definition addAnchors (p : Politics) (anchorSet : list string) (r : string)
  : list string :=
  let a0 := setAddAll anchorSet (map toLowerCase (defaultRegionAnchors r)) in
  let a1 := setAddAll a0 (map toLowerCase (regionNames (parties p) r)) in
  let a2 := setAddAll a1 (map toLowerCase (regionNames (institutions p) r)) in
  setAddAll a2 (map toLowerCase (regionNames (people p) r)).

(** [allRegions]: the union of the region keys of the three maps, in the
    order the [Set] received them. *)
Definition allRegionsOf (p : Politics) : list string :=
  let regionKeySet : list string := [] in
  let regionKeySet := setAddAll regionKeySet (objectKeys (parties p)) in
  let regionKeySet := setAddAll regionKeySet (objectKeys (institutions p)) in
  setAddAll regionKeySet (objectKeys (people p)).

(** [regions.size ? [...regions] : allRegions] *)
Definition targetRegionsOf (regions allRegions : list string) : list string :=
  if negb (length regions =? 0) then regions else allRegions.

(** [allRegions.filter(r => !regions.has(r))] *)
Definition otherRegionsOf (regions allRegions : list string) : list string :=
  filter (fun r => negb (mem r regions)) allRegions.

(** The body of [if (domainTerms.politics && shouldUsePoliticsDomain(query))],
    statement by statement. *)
Definition expandPolitics (p : Politics) (regions : list string)
  (out0 : QueryParts) : QueryParts :=
  let out1 := addTerms out0 (orNil (synonyms p)) in
  let allRegions := allRegionsOf p in
  let targetRegions := targetRegionsOf regions allRegions in
  let otherRegions := otherRegionsOf regions allRegions in
  let out2 := addFromRegions targetRegions out1 (parties p) in
  let out3 := addFromRegions targetRegions out2 (institutions p) in
  let out4 := addFromRegions targetRegions out3 (people p) in
  let anchorSet := fold_left (addAnchors p) targetRegions [] in
  let out5 :=
    mkQueryParts (phrases out4) (tokens out4) (excludeTokens out4)
                 (Some anchorSet) in
  let out6 :=
    mkQueryParts (phrases out5) (tokens out5)
      (Some (orNil (excludeTokens out5)
             ++ collectFromRegions otherRegions (parties p)
             ++ collectFromRegions otherRegions (institutions p)
             ++ collectFromRegions otherRegions (people p)))
      (anchorTokens out5) in
  addTerms out6 (orNil (related_terms p)).

(** [domainTerms] is the module-level variable, [None] when it is null. *)
Definition expandQueryWithDomain (domainTerms : option DomainTerms)
  (feedGroup : string) (qparts : QueryParts) (query : string) : QueryParts :=
  match domainTerms with
  | None => qparts
  | Some dt =>
      let out := mkQueryParts (phrases qparts) (tokens qparts)
                              (Some []) (Some []) in
      match politics dt with
      | Some p =>
          if shouldUsePoliticsDomain query
          then expandPolitics p (detectRegionsFromContext feedGroup query) out
          else out
      | None => out
      end
  end.

End Domain.

(** ** Array primitives *)
Module Arr.

(** [arr.findIndex(f)]: the first position whose element satisfies [f],
    or -1. *)
Fixpoint findIndexFrom {A : Type} (f : A -> bool) (i : Z) (l : list A) : Z :=
  match l with
  | [] => (-1)%Z
  | x :: r => if f x then i else findIndexFrom f (i + 1)%Z r
  end.

Definition findIndex {A : Type} (f : A -> bool) (l : list A) : Z :=
  findIndexFrom f 0%Z l.

(** [arr.sort(cmp)].  The sort of an array is stable, and for a consistent
    comparator its result is determined: the elements in comparator order,
    those that compare equal in their original order.  Insertion from the
    right computes it: [x], which stood before every element of [l], goes in
    front of the first element it does not compare greater than. *)
Fixpoint insert {A : Type} (cmp : A -> A -> Z) (x : A) (l : list A) : list A :=
  match l with
  | [] => [x]
  | y :: r => if (cmp x y <=? 0)%Z then x :: l else y :: insert cmp x r
  end.

Definition sort {A : Type} (cmp : A -> A -> Z) (l : list A) : list A :=
  fold_right (insert cmp) [] l.

End Arr.

(** ** Scoring and search (lines 662-723) *)
Module Scorer.
Import JS Re Text Stemmer Query Domain.

Record Headline : Type := mkHeadline {
  title : option string;
  summary : option string;
  source : option string;
  link : option string
}.

Record ScoredCandidate : Type := mkScored {
  index : nat;
  score : nat
}.

(** The local variables of [headlineSearchScore]. *)
Record Tally : Type := mkTally {
  total : nat;           (* score *)
  phraseHit : bool;
  titleTokenHits : nat;
  anyToken : bool
}.

(** One round of the loop over [qparts.phrases]. *)
Definition phraseStep (ttl smry : string) (st : Tally) (ph : string) : Tally :=
  let phLow := trim (toLowerCase ph) in
  let st1 :=
    if testLiteral phLow ttl
    then mkTally (total st + 8) true (titleTokenHits st) (anyToken st)
    else st in
  if testLiteral phLow smry
  then mkTally (total st1 + 4) true (titleTokenHits st1) (anyToken st1)
  else st1.

Definition tokenIn (text : string) (textTokens : list string) (t : string) : bool :=
  testWord t text || ((4 <=? String.length t) && tokensContainStem textTokens t).

(** One round of the loop over [qparts.tokens]. *)
Definition tokenStep (ttl smry : string) (titleTokens summaryTokens : list string)
  (st : Tally) (t : string) : Tally :=
  let inTitle := tokenIn ttl titleTokens t in
  let inSummary := tokenIn smry summaryTokens t in
  let st1 :=
    if inTitle
    then mkTally (total st + 2) (phraseHit st) (titleTokenHits st + 1) true
    else st in
  if inSummary
  then mkTally (total st1 + 1) (phraseHit st1) (titleTokenHits st1) true
  else st1.

(** The state of the locals when [pass] is computed: after both loops and
    the all-tokens-in-title bonus. *)
Definition rawTally (h : Headline) (qparts : QueryParts) : Tally :=
  let ttl := toLowerCase (orEmpty (title h)) in
  let smry := toLowerCase (orEmpty (summary h)) in
  let titleTokens := tokensFromText ttl in
  let summaryTokens := tokensFromText smry in
  let st0 := mkTally 0 false 0 false in
  let st1 := fold_left (phraseStep ttl smry) (phrases qparts) st0 in
  let st2 :=
    fold_left (tokenStep ttl smry titleTokens summaryTokens) (tokens qparts) st1 in
  if (length (tokens qparts) <=? titleTokenHits st2)
     && (0 <? length (tokens qparts))
  then mkTally (total st2 + 2) (phraseHit st2) (titleTokenHits st2) (anyToken st2)
  else st2.

Definition gate (st : Tally) : bool :=
  phraseHit st || (2 <=? titleTokenHits st) || (5 <=? total st).

Definition headlineSearchScore (h : Headline) (qparts : QueryParts) : nat :=
  let st := rawTally h qparts in
  if gate st then total st else 0.

(** The cross-region block of the loop of [searchHeadlines]: [s] is the
    score so far.  Each of the two inner loops stops at its first match. *)
Definition suppress (item : Headline) (qparts : QueryParts) (s : nat) : nat :=
  let ex := orNil (excludeTokens qparts) in
  if (0 <? s) && (0 <? length ex) then
    let combinedTokens :=
      tokensFromText (orEmpty (title item) ++ " " ++ orEmpty (summary item))%string in
    let hasAnchor :=
      existsb (fun a => tokensContainStem combinedTokens (toLowerCase a))
              (orNil (anchorTokens qparts)) in
    if existsb (fun e => tokensContainStem combinedTokens (toLowerCase e)) ex
    then if negb hasAnchor then 0 else s
    else s
  else s.

(** The loop [for (let i = 0; ...)], started at [i]. *)
Fixpoint scoreFrom (qparts : QueryParts) (i : nat) (items : list Headline)
  : list ScoredCandidate :=
  match items with
  | [] => []
  | it :: rest =>
      let s := suppress it qparts (headlineSearchScore it qparts) in
      if 0 <? s then mkScored i s :: scoreFrom qparts (S i) rest
      else scoreFrom qparts (S i) rest
  end.

(** [(a, b) => b.score - a.score] *)
Definition byScoreDesc (a b : ScoredCandidate) : Z :=
  (Z.of_nat (score b) - Z.of_nat (score a))%Z.

(** [limit] is a count (100 by default; the caller passes 200). *)
Definition searchHeadlines (domainTerms : option DomainTerms) (feedGroup : string)
  (query : string) (items : list Headline) (limit : nat) : list ScoredCandidate :=
  let qparts :=
    expandQueryWithDomain domainTerms feedGroup (parseQueryParts query) query in
  if (length (phrases qparts) =? 0) && (length (tokens qparts) =? 0) then []
  else
    let scored := scoreFrom qparts 0 items in
    firstn limit (Arr.sort byScoreDesc scored).

End Scorer.

(** ** Selection by structured mentions (lines 574-635) *)
Module Mentions.
Import JS Scorer.

(** What the summarizer may put in [mentions]: an object with any of the
    properties [url], [index] and [title]; a string; an integer; anything
    else.  [index] is [Some n] when [Number.isInteger(m.index)]. *)
Inductive Mention : Type :=
| MObject (url : option string) (index : option Z) (title : option string)
| MString (s : string)
| MInteger (n : Z)
| MOther.

Section WithURL.

(** [new URL(u)] with [hash] and [search] cleared, then [toString()];
    [None] when the constructor throws. *)
Variable urlWithoutQuery : string -> option string.

Definition stripSlash (s : string) : string :=
  if endsWith s "/" then dropEnd s 1 else s.

Definition normalizeUrl (u : option string) : string :=
  match u with
  | None => ""                       (* the constructor throws, [!u] holds *)
  | Some u' =>
      match urlWithoutQuery u' with
      | Some s => toLowerCase (stripSlash s)
      | None =>
          if isEmpty u' then "" else toLowerCase (stripSlash (trim u'))
      end
  end.

Definition urlsEqual (a b : option string) : bool :=
  String.eqb (normalizeUrl a) (normalizeUrl b).

Definition inRange (headlines : list Headline) (n : Z) : bool :=
  ((0 <=? n) && (n <? Z.of_nat (length headlines)))%Z.

Definition titleIs (tnorm : string) (h : Headline) : bool :=
  String.eqb (toLowerCase (trim (orEmpty (Scorer.title h)))) tnorm.

Definition titleHas (tnorm : string) (h : Headline) : bool :=
  includes (toLowerCase (orEmpty (Scorer.title h))) tnorm
  && (8 <=? String.length tnorm).

Definition optTruthy (o : option string) : bool :=
  match o with Some s => truthy s | None => false end.

(** The body of the loop up to the final test: the value of [idx]. *)
Definition mentionIndex (headlines : list Headline) (m : Mention) : Z :=
  match m with
  | MObject url index title =>
      let idx0 := (-1)%Z in
      let idx1 :=
        if optTruthy url
        then Arr.findIndex (fun h => urlsEqual (link h) url) headlines
        else idx0 in
      let idx2 :=
        match index with
        | Some n => if (idx1 <? 0)%Z && inRange headlines n then n else idx1
        | None => idx1
        end in
      if (idx2 <? 0)%Z && optTruthy title then
        let tnorm := toLowerCase (trim (orEmpty title)) in
        let idx3 := Arr.findIndex (titleIs tnorm) headlines in
        if (idx3 <? 0)%Z then Arr.findIndex (titleHas tnorm) headlines
        else idx3
      else idx2
  | MString s =>
      if startsWith s "http"
      then Arr.findIndex (fun h => urlsEqual (link h) (Some s)) headlines
      else Arr.findIndex (titleIs (toLowerCase (trim s))) headlines
  | MInteger n => if inRange headlines n then n else (-1)%Z
  | MOther => (-1)%Z
  end.

Definition memZ (x : Z) (l : list Z) : bool := existsb (Z.eqb x) l.

(** The state of the loop: [seen] in insertion order and [count].  The boxes
    ticked by the call are those of [seen]. *)
Record Selection : Type := mkSelection {
  seen : list Z;
  count : nat
}.

(** [hasBox idx]: the page has a checkbox of value [idx].  [allowed] is
    [None] when [allowedIdxs] is null. *)
Definition mentionStep (headlines : list Headline) (hasBox : Z -> bool)
  (allowed : option (list Z)) (st : Selection) (m : Mention) : Selection :=
  let idx := mentionIndex headlines m in
  if (0 <=? idx)%Z && negb (memZ idx (seen st))
     && match allowed with None => true | Some a => memZ idx a end
  then if hasBox idx then mkSelection (seen st ++ [idx]) (count st + 1) else st
  else st.

Definition autoSelectByMentions (headlines : list Headline) (hasBox : Z -> bool)
  (mentions : list Mention) (allowedIdxs : option (list Z)) : Selection :=
  fold_left (mentionStep headlines hasBox allowedIdxs) mentions
            (mkSelection [] 0).

End WithURL.
End Mentions.

(** ** Video candidate filters (lines 40-123) *)
Module Video.
Import JS.

Record VideoCandidate : Type := mkVideo {
  title : option string;
  srcUrl : option string;
  pageUrl : option string;
  sourceType : option string
}.

Inductive Bucket : Type := platform | direct | stream | embed.

Definition bucketEqb (a b : Bucket) : bool :=
  match a, b with
  | platform, platform | direct, direct | stream, stream | embed, embed => true
  | _, _ => false
  end.

Definition videoTypeBucket (v : VideoCandidate) : Bucket :=
  let t := toLowerCase (orEmpty (sourceType v)) in
  if String.eqb t "youtube" || String.eqb t "vimeo" then platform
  else if String.eqb t "mp4" || String.eqb t "webm" then direct
  else if String.eqb t "m3u8" then stream
  else if String.eqb t "embed" then embed
  else embed.

(** What [applyVideoFilters] reads from the page: the three checkboxes, the
    value of the type selector (['all'] when there is none), the value of the
    search box, and the links of the ticked headlines
    ([getSelectedHeadlineUrls]). *)
Record Controls : Type := mkControls {
  vidPlayableOnly : bool;
  vidUniquePerPage : bool;
  vidFromSelectedOnly : bool;
  vidType : string;
  vidSearch : string;
  selectedHeadlineUrls : list (option string)
}.

Definition optEqb (a b : option string) : bool :=
  match a, b with
  | Some x, Some y => String.eqb x y
  | None, None => true
  | _, _ => false
  end.

Definition typeFilter (typeVal : string) (v : VideoCandidate) : bool :=
  let b := videoTypeBucket v in
  if String.eqb typeVal "platform" then bucketEqb b platform
  else if String.eqb typeVal "direct" then bucketEqb b direct
  else if String.eqb typeVal "stream" then bucketEqb b stream
  else if String.eqb typeVal "embed" then bucketEqb b embed
  else true.

Definition playable (v : VideoCandidate) : bool :=
  let b := videoTypeBucket v in
  bucketEqb b platform || bucketEqb b direct || bucketEqb b stream.

Definition rank (v : VideoCandidate) : nat :=
  match videoTypeBucket v with
  | platform => 3
  | direct => 3
  | stream => 2
  | embed => 1
  end.

(** [v.pageUrl || v.srcUrl] *)
Definition pageKey (v : VideoCandidate) : option string :=
  match pageUrl v with
  | Some s => if truthy s then Some s else srcUrl v
  | None => srcUrl v
  end.

(** A [Map] from page key to candidate, in insertion order of the keys. *)
Definition BestMap := list (option string * VideoCandidate).

Fixpoint mapGet (m : BestMap) (k : option string) : option VideoCandidate :=
  match m with
  | [] => None
  | (k', v) :: r => if optEqb k' k then Some v else mapGet r k
  end.

(** [best.set(k, v)]: a key already present keeps its place. *)
Fixpoint mapSet (m : BestMap) (k : option string) (v : VideoCandidate) : BestMap :=
  match m with
  | [] => [(k, v)]
  | (k', v') :: r => if optEqb k' k then (k, v) :: r else (k', v') :: mapSet r k v
  end.

(** One round of [for (const v of out)]. *)
Definition bestStep (best : BestMap) (v : VideoCandidate) : BestMap :=
  let key := pageKey v in
  match mapGet best key with
  | None => mapSet best key v
  | Some cur => if rank cur <? rank v then mapSet best key v else best
  end.

Definition uniquePerPage (out : list VideoCandidate) : list VideoCandidate :=
  map snd (fold_left bestStep out []).

Definition prio (v : VideoCandidate) : string :=
  match videoTypeBucket v with
  | platform => "0"
  | direct => "1"
  | stream => "2"
  | embed => "3"
  end.

Definition sortKey (v : VideoCandidate) : string :=
  (prio v ++ "|" ++ toLowerCase (orEmpty (title v)))%string.

Section WithPlatform.

(** [new URL(u, window.location.href).hostname], [""] when the constructor
    throws. *)
Variable hostname : option string -> string.

(** [a.localeCompare(b)] *)
Variable localeCompare : string -> string -> Z.

Definition keywordFilter (q : string) (v : VideoCandidate) : bool :=
  let ttl := toLowerCase (orEmpty (title v)) in
  let src := toLowerCase (orEmpty (srcUrl v)) in
  let page := toLowerCase (orEmpty (pageUrl v)) in
  let srcHost := toLowerCase (hostname (srcUrl v)) in
  let pageHost := toLowerCase (hostname (pageUrl v)) in
  includes ttl q || includes src q || includes page q
  || includes srcHost q || includes pageHost q.

(** The four filters, in the order of the source. *)
Definition filterStages (c : Controls) (all : list VideoCandidate)
  : list VideoCandidate :=
  let typeVal := vidType c in
  let q := trim (toLowerCase (vidSearch c)) in
  let out1 :=
    if negb (String.eqb typeVal "all") then filter (typeFilter typeVal) all
    else all in
  let out2 := if vidPlayableOnly c then filter playable out1 else out1 in
  let out3 := if truthy q then filter (keywordFilter q) out2 else out2 in
  if vidFromSelectedOnly c
  then filter (fun v => existsb (optEqb (pageUrl v)) (selectedHeadlineUrls c)) out3
  else out3.

Definition bySortKey (a b : VideoCandidate) : Z :=
  localeCompare (sortKey a) (sortKey b).

Definition applyVideoFilters (c : Controls) (all : list VideoCandidate)
  : list VideoCandidate :=
  let out4 := filterStages c all in
  let out5 := if vidUniquePerPage c then uniquePerPage out4 else out4 in
  Arr.sort bySortKey out5.

End WithPlatform.
End Video.

(** ** Selection from the summary text (lines 538-571) *)
Module Summary.
Import JS Text Scorer Mentions.

(** The test of line 543: the token as a whole word of the padded,
    normalized summary. *)
Definition wordIn (summaryNorm t : string) : bool :=
  includes summaryNorm (" " ++ t ++ " ")%string
  || startsWith summaryNorm (t ++ " ")%string
  || endsWith summaryNorm (" " ++ t)%string
  || String.eqb summaryNorm t.

(** The loop that counts [matches]. *)
Definition countMatches (toks : list string) (summaryNorm : string) : nat :=
  fold_left (fun matches t => if wordIn summaryNorm t then matches + 1 else matches)
            toks 0.

(** [matches / toks.length] is a quotient of two small integers; it is kept
    as the rational it denotes, which compares with 0.5 as the binary
    floating-point quotient does (division is correctly rounded and 0.5 is
    a floating-point number). *)
Definition titleMatchScore (title summaryNorm : string) : QArith_base.Q :=
  let toks := tokensFromTitle title in
  if length toks =? 0 then QArith_base.Qmake 0 1
  else QArith_base.Qmake (Z.of_nat (countMatches toks summaryNorm))
                         (Pos.of_nat (length toks)).

(** [headlines[idx]] *)
Definition headlineAt (headlines : list Headline) (idx : Z) : option Headline :=
  if (0 <=? idx)%Z then nth_error headlines (Z.to_nat idx) else None.

(** [new Set(allowedIdxs)], spread in insertion order. *)
Definition setOfZ (l : list Z) : list Z :=
  fold_left (fun set x => if memZ x set then set else set ++ [x]) l [].

(** The boxes ticked by the call, in order, and [selectedCount]. *)
Record Ticked : Type := mkTicked {
  ticked : list Z;
  selectedCount : nat
}.

(** The callback of [iterate.forEach]. *)
Definition summaryStep (headlines : list Headline) (hasBox : Z -> bool)
  (summaryNorm : string) (st : Ticked) (idx : Z) : Ticked :=
  match headlineAt headlines idx with
  | None => st
  | Some h =>
      let ttl := orEmpty (Scorer.title h) in
      let score := titleMatchScore ttl summaryNorm in
      let toks := tokensFromTitle ttl in
      if (2 <=? length toks)
         && QArith_base.Qle_bool (QArith_base.Qmake 1 2) score
      then if hasBox idx
           then mkTicked (ticked st ++ [idx]) (selectedCount st + 1)
           else st
      else st
  end.

Definition autoSelectFromSummary (headlines : list Headline) (hasBox : Z -> bool)
  (summaryText : string) (allowedIdxs : option (list Z)) : Ticked :=
  let summaryNorm := (" " ++ normalizeText summaryText ++ " ")%string in
  let iterate :=
    match allowedIdxs with
    | Some a => setOfZ a
    | None => map Z.of_nat (seq 0 (length headlines))
    end in
  fold_left (summaryStep headlines hasBox summaryNorm) iterate (mkTicked [] 0).

End Summary.

(** ** The headline list on the page (lines 420-443, 725-752)

    The page holds one checkbox per rendered row; a row is the value of its
    checkbox (the headline position) and whether it is ticked. *)
Module Render.
Import Mentions.

Record Row : Type := mkRow {
  idx : nat;
  sel : bool
}.

(** The comparator of [rows.sort]: ticked rows first, then by position. *)
Definition rowCmp (a b : Row) : Z :=
  if negb (Bool.eqb (sel a) (sel b))
  then if sel a then (-1)%Z else 1%Z
  else (Z.of_nat (idx a) - Z.of_nat (idx b))%Z.

(** [items.map((it, idx) => ({ idx, it, sel: selectedSet.has(idx) }))] *)
Definition rowsOf (n : nat) (selectedIndices : list Z) : list Row :=
  map (fun i => mkRow i (memZ (Z.of_nat i) selectedIndices)) (seq 0 n).

(** The rows appended to the container, in order. *)
Definition renderHeadlines {A : Type} (items : list A)
  (selectedIndices : list Z) : list Row :=
  Arr.sort rowCmp (rowsOf (length items) selectedIndices).

(** [getSelectedIndices]: the values of the ticked boxes, in page order. *)
Definition getSelectedIndices (boxes : list Row) : list Z :=
  map (fun r => Z.of_nat (idx r)) (filter sel boxes).

(** [selectByIndices]: every box is ticked or cleared. *)
Definition selectByIndices (indices : list Z) (boxes : list Row) : list Row :=
  map (fun r => mkRow (idx r) (memZ (Z.of_nat (idx r)) indices)) boxes.

Definition clearAllSelections (boxes : list Row) : list Row :=
  map (fun r => mkRow (idx r) false) boxes.

(** [reorderHeadlinesBySelection], on the boxes of the rendered [items]. *)
Definition reorderHeadlinesBySelection {A : Type} (items : list A)
  (boxes : list Row) : list Row :=
  renderHeadlines items (getSelectedIndices boxes).

End Render.

(* ================================================================== *)
(** * Part II. Vocabulary of the statements *)
(* ================================================================== *)

(** [p] is a prefix of [s]. *)
Definition IsPrefix (p s : string) : Prop := exists r, s = (p ++ r)%string.

(** The scorer's test of the token [t] against the summary of a headline:
    [inSummary] in [headlineSearchScore]. *)
Definition summaryHasToken (smry : option string) (t : string) : bool :=
  let s := JS.toLowerCase (JS.orEmpty smry) in
  Scorer.tokenIn s (Text.tokensFromText s) t.

(** The score [searchHeadlines] gives a headline: the gated score, then the
    cross-region suppression. *)
Definition finalScore (qparts : Query.QueryParts) (h : Scorer.Headline) : nat :=
  Scorer.suppress h qparts (Scorer.headlineSearchScore h qparts).

(** [a] is ranked before [b]: a higher score, or the same score and an
    earlier place in the headline list. *)
Definition ranksBefore (a b : Scorer.ScoredCandidate) : Prop :=
  Scorer.score b < Scorer.score a
  \/ (Scorer.score a = Scorer.score b /\ Scorer.index a < Scorer.index b).

Definition indexBefore (a b : Scorer.ScoredCandidate) : Prop :=
  Scorer.index a < Scorer.index b.

(** The names a region map lists for the regions of [rs], region by
    region. *)
Definition namesIn (rs : list string) (obj : option Domain.RegionMap)
  : list string :=
  flat_map (Domain.regionNames obj) rs.

(** Two terms are the same up to letter case. *)
Definition sameCI (a b : string) : bool :=
  String.eqb (JS.toLowerCase b) (JS.toLowerCase a).

(** Ingestion of one term into the phrases and tokens collected so far:
    trimmed; with a space in it, a phrase unless one that differs only by
    case is there; otherwise a token unless one that differs only by case is
    there, or it is a stopword, or it has fewer than two characters. *)
Definition ingestTerm (acc : list string * list string) (t : string)
  : list string * list string :=
  let s := JS.trim t in
  if JS.isEmpty s then acc
  else if JS.includes s " "
       then if existsb (sameCI s) (fst acc) then acc
            else (fst acc ++ [s], snd acc)
       else if existsb (sameCI s) (snd acc)
               || JS.mem (JS.toLowerCase s) Text.STOPWORDS
               || (String.length s <? 2)
            then acc
            else (fst acc, snd acc ++ [s]).

(** Ingestion in the order the specification gives: synonyms and related
    terms first, then the party, institution and people lists of the target
    regions. *)
Definition ingestAsClaimed (p : Domain.Politics) (targetRegions : list string)
  (acc : list string * list string) : list string * list string :=
  fold_left ingestTerm
    (Domain.orNil (Domain.synonyms p) ++ Domain.orNil (Domain.related_terms p)
     ++ namesIn targetRegions (Domain.parties p)
     ++ namesIn targetRegions (Domain.institutions p)
     ++ namesIn targetRegions (Domain.people p))
    acc.

(** The first position of [l] whose element satisfies [f]. *)
Fixpoint firstAt {A : Type} (f : A -> bool) (l : list A) : option nat :=
  match l with
  | [] => None
  | x :: r => if f x then Some 0 else option_map S (firstAt f r)
  end.

(** The first rule that succeeds. *)
Fixpoint firstSome (rules : list (option nat)) : option nat :=
  match rules with
  | [] => None
  | Some i :: _ => Some i
  | None :: r => firstSome r
  end.

(** The value of [idx] read as a resolution: negative is unresolved. *)
Definition resolved (idx : Z) : option nat :=
  if (idx <? 0)%Z then None else Some (Z.to_nat idx).

Section MentionRules.
Import JS Scorer Mentions.
Variable urlWithoutQuery : string -> option string.
Variable headlines : list Headline.

(** (a) normalized-URL match against the headline link. *)
Definition byUrl (u : option string) : option nat :=
  match u with
  | Some u' =>
      firstAt (fun h => String.eqb (normalizeUrl urlWithoutQuery (link h))
                                   (normalizeUrl urlWithoutQuery (Some u')))
              headlines
  | None => None
  end.

(** (b) explicit integer index within the headline list. *)
Definition byIndex (n : option Z) : option nat :=
  match n with
  | Some n' =>
      if ((0 <=? n') && (n' <? Z.of_nat (length headlines)))%Z
      then Some (Z.to_nat n') else None
  | None => None
  end.

(** (c) title match up to case and surrounding white space. *)
Definition byTitle (t : option string) : option nat :=
  match t with
  | Some t' =>
      firstAt (fun h => String.eqb (toLowerCase (trim (orEmpty (Scorer.title h))))
                                   (toLowerCase (trim t')))
              headlines
  | None => None
  end.

(** (d) the mention's title, of at least 8 characters, contained in the
    headline title, up to case. *)
Definition byContainment (t : option string) : option nat :=
  match t with
  | Some t' =>
      if 8 <=? String.length (toLowerCase (trim t'))
      then firstAt (fun h => includes (toLowerCase (orEmpty (Scorer.title h)))
                                      (toLowerCase (trim t')))
                   headlines
      else None
  | None => None
  end.

(** A string property of an object mention counts when it is there and not
    empty. *)
Definition given (o : option string) : option string :=
  match o with
  | Some s => if truthy s then Some s else None
  | None => None
  end.

(** What a mention carries, by shape: a string that starts with http is a
    URL, any other string is a title. *)
Definition mentionUrl (m : Mention) : option string :=
  match m with
  | MObject u _ _ => given u
  | MString s => if startsWith s "http" then Some s else None
  | _ => None
  end.

Definition mentionTitle (m : Mention) : option string :=
  match m with
  | MObject _ _ t => given t
  | MString s => if startsWith s "http" then None else Some s
  | _ => None
  end.

Definition mentionPosition (m : Mention) : option Z :=
  match m with
  | MObject _ i _ => i
  | MInteger n => Some n
  | _ => None
  end.

(** Resolution as the specification states it: every shape goes through the
    four rules. *)
Definition resolveAsClaimed (m : Mention) : option nat :=
  firstSome [byUrl (mentionUrl m); byIndex (mentionPosition m);
             byTitle (mentionTitle m); byContainment (mentionTitle m)].

(** Resolution by shape: the four rules for an object; for a string, the
    URL rule alone or the exact title rule alone; the index rule for an
    integer. *)
Definition resolveByShape (m : Mention) : option nat :=
  match m with
  | MObject u i t =>
      firstSome [byUrl (given u); byIndex i; byTitle (given t);
                 byContainment (given t)]
  | MString s =>
      if startsWith s "http" then byUrl (Some s) else byTitle (Some s)
  | MInteger n => byIndex (Some n)
  | MOther => None
  end.

(** A resolution is kept when it is within [allowedIdxs], if given. *)
Definition allowedOk (allowed : option (list Z)) (i : Z) : Prop :=
  match allowed with
  | None => True
  | Some a => In i a
  end.

End MentionRules.

(** [w] is the candidate kept for its page among those of [l]: no earlier
    candidate of the same page key ranks as high, and no later one ranks
    higher. *)
Definition Chosen (l : list Video.VideoCandidate) (w : Video.VideoCandidate)
  : Prop :=
  exists l1 l2,
    l = l1 ++ w :: l2
    /\ (forall u, In u l1 -> Video.pageKey u = Video.pageKey w ->
                  Video.rank u < Video.rank w)
    /\ (forall u, In u l2 -> Video.pageKey u = Video.pageKey w ->
                  Video.rank u <= Video.rank w).

(** What the loop over [out] maintains between the map [best] and the
    candidates [l] read so far. *)
Definition bestInv (m : Video.BestMap) (l : list Video.VideoCandidate) : Prop :=
  NoDup (map fst m)
  /\ (forall k w, In (k, w) m -> k = Video.pageKey w /\ Chosen l w)
  /\ (forall u, In u l -> In (Video.pageKey u) (map fst m)).

(** The group of a candidate in the per-page dedup, read off its fields: the
    page address when the candidate has a non-empty one, the source address
    (which may be absent) otherwise. *)
Inductive groupOf (v : Video.VideoCandidate) : option string -> Prop :=
| groupPage (p : string) :
    Video.pageUrl v = Some p -> p <> EmptyString -> groupOf v (Some p)
| groupSource :
    Video.pageUrl v = None \/ Video.pageUrl v = Some EmptyString ->
    groupOf v (Video.srcUrl v).

Definition sameGroup (u w : Video.VideoCandidate) : Prop :=
  exists k, groupOf u k /\ groupOf w k.

(** [w] is the first candidate of highest rank among those of its group in
    [l]. *)
Definition firstBest (l : list Video.VideoCandidate) (w : Video.VideoCandidate)
  : Prop :=
  exists l1 l2,
    l = l1 ++ w :: l2
    /\ (forall u, In u l1 -> sameGroup u w -> Video.rank u < Video.rank w)
    /\ (forall u, In u l2 -> sameGroup u w -> Video.rank u <= Video.rank w).

(** A comparator to run the video filters with: the order of the character
    codes, which is what [localeCompare] gives for ASCII text in many
    locales. *)
Definition codeUnitCompare (a b : string) : Z :=
  match String.compare a b with
  | Lt => (-1)%Z
  | Eq => 0%Z
  | Gt => 1%Z
  end.

(** A host name reader to run the video filters with: the text between the
    double slash and the next slash of an absolute URL, the empty string
    for anything else. *)
Fixpoint upToSlash (s : string) : string :=
  match s with
  | EmptyString => EmptyString
  | String c r => if Ascii.eqb c "/"%char then EmptyString
                  else String c (upToSlash r)
  end.

Fixpoint afterDoubleSlash (s : string) : option string :=
  match s with
  | String a ((String b r) as r') =>
      if Ascii.eqb a "/"%char && Ascii.eqb b "/"%char then Some r
      else afterDoubleSlash r'
  | _ => None
  end.

Definition hostBetweenSlashes (u : option string) : string :=
  match u with
  | Some s => match afterDoubleSlash s with
              | Some r => upToSlash r
              | None => EmptyString
              end
  | None => EmptyString
  end.

(** [a] does not come after [b] in the order of the comparator. *)
Definition notAfter {A : Type} (cmp : A -> A -> Z) (a b : A) : Prop :=
  (cmp a b <= 0)%Z.

(** What the loops of [headlineSearchScore] maintain: a phrase hit is worth
    at least 4, and every title token hit at least 2. *)
Definition tallyInv (st : Scorer.Tally) : Prop :=
  (Scorer.phraseHit st = true -> 4 <= Scorer.total st)
  /\ 2 * Scorer.titleTokenHits st <= Scorer.total st.

(** The part of the query that term ingestion extends. *)
Definition phrasesTokens (out : Query.QueryParts) : list string * list string :=
  (Query.phrases out, Query.tokens out).

(** Every character of [s] satisfies [P]. *)
Fixpoint allChars (P : ascii -> bool) (s : string) : bool :=
  match s with
  | EmptyString => true
  | String c r => P c && allChars P r
  end.

(** A lowercase letter or a digit. *)
Definition isAlnum (c : ascii) : bool := JS.isLower c || JS.isDigit c.

(** A character of normalized text: a lowercase letter, a digit, a space. *)
Definition normChar (c : ascii) : bool := isAlnum c || Ascii.eqb c " "%char.

(** Words of letters and digits with single spaces between them; [prev]
    tells that a space came just before, where another is not accepted. *)
Fixpoint spaced (prev : bool) (s : string) : bool :=
  match s with
  | EmptyString => true
  | String c r =>
      if Ascii.eqb c " "%char then negb prev && spaced true r
      else isAlnum c && spaced false r
  end.

(** The first, the last character of [s] is white space. *)
Definition startsSpace (s : string) : bool :=
  match s with
  | String c _ => JS.isSpace c
  | EmptyString => false
  end.

Fixpoint endsSpace (s : string) : bool :=
  match s with
  | EmptyString => false
  | String c EmptyString => JS.isSpace c
  | String _ r => endsSpace r
  end.

(** An informative token: at least three lowercase letters or digits, not a
    stopword. *)
Definition cleanToken (t : string) : Prop :=
  3 <= String.length t /\ allChars isAlnum t = true /\ ~ In t Text.STOPWORDS.

(** Not the double quote. *)
Definition notQuote (c : ascii) : bool := negb (Ascii.eqb c Query.dquote).

(** What expansion may append to the tokens: a trimmed, non-empty word
    without a space, of at least two characters, that is not a stopword. *)
Definition addedToken (t : string) : Prop :=
  JS.trim t = t /\ t <> EmptyString /\ JS.includes t " " = false
  /\ 2 <= String.length t /\ ~ In (JS.toLowerCase t) Text.STOPWORDS.

(** What expansion may append to the phrases: trimmed text with a space. *)
Definition addedPhrase (ph : string) : Prop :=
  JS.trim ph = ph /\ JS.includes ph " " = true.

(** No two entries are equal up to letter case. *)
Definition distinctCI (l : list string) : Prop :=
  NoDup (map JS.toLowerCase l).

(** The names the three maps list for region [r]. *)
Definition regionEntities (p : Domain.Politics) (r : string) : list string :=
  Domain.regionNames (Domain.parties p) r
  ++ Domain.regionNames (Domain.institutions p) r
  ++ Domain.regionNames (Domain.people p) r.

(** The anchors of region [r]: its default anchors and its entities, in
    lowercase. *)
Definition anchorsOf (p : Domain.Politics) (r : string) : list string :=
  map JS.toLowerCase (Domain.defaultRegionAnchors r ++ regionEntities p r).

(** The indices [autoSelectFromSummary] goes through: the allowed ones, or
    every position of the list. *)
Definition considered (headlines : list Scorer.Headline)
  (allowed : option (list Z)) (i : Z) : Prop :=
  match allowed with
  | Some a => In i a
  | None => (0 <= i < Z.of_nat (length headlines))%Z
  end.

(** The title of [h] has at least two informative tokens, and at least half
    of them are whole words of the padded, normalized summary. *)
Definition halfMatched (h : Scorer.Headline) (summaryNorm : string) : Prop :=
  let toks := Text.tokensFromTitle (JS.orEmpty (Scorer.title h)) in
  2 <= length toks
  /\ length toks <= 2 * Summary.countMatches toks summaryNorm.

(** The test of the loop body of [autoSelectFromSummary] on one index. *)
Definition ticks (headlines : list Scorer.Headline) (hasBox : Z -> bool)
  (summaryNorm : string) (i : Z) : bool :=
  match Summary.headlineAt headlines i with
  | None => false
  | Some h =>
      let ttl := JS.orEmpty (Scorer.title h) in
      (2 <=? length (Text.tokensFromTitle ttl))
      && QArith_base.Qle_bool (QArith_base.Qmake 1 2)
           (Summary.titleMatchScore ttl summaryNorm)
      && hasBox i
  end.

(** The value of the type selector that names a bucket. *)
Definition bucketName (b : Video.Bucket) : string :=
  match b with
  | Video.platform => "platform"
  | Video.direct => "direct"
  | Video.stream => "stream"
  | Video.embed => "embed"
  end.

(** Position [i] is among the selected indices. *)
Definition isSelected (selectedIndices : list Z) (i : nat) : bool :=
  Mentions.memZ (Z.of_nat i) selectedIndices.

(** Rows of the positions [l], all ticked or all clear. *)
Definition rowsWith (b : bool) (l : list nat) : list Render.Row :=
  map (fun i => Render.mkRow i b) l.

(** An index that a call of [autoSelectByMentions] may tick: a position of
    the headline list that has a box and is allowed. *)
Definition mayTick (headlines : list Scorer.Headline) (hasBox : Z -> bool)
  (allowed : option (list Z)) (i : Z) : Prop :=
  (0 <= i < Z.of_nat (length headlines))%Z
  /\ hasBox i = true /\ allowedOk allowed i.

(* ================================================================== *)
(** * Part III. Properties *)
(* ================================================================== *)

(** ** Stemmer *)
Section StemmerFacts.
Import JS Stemmer.

Lemma prefix_IsPrefix (p s : string) :
  String.prefix p s = true <-> IsPrefix p s.
Proof.
  revert s; induction p as [|a p IH]; intros s; simpl.
  - split; [intros _; now exists s | now destruct s].
  - destruct s as [|c s].
    + split; [discriminate | intros [r Hr]; discriminate].
    + simpl. destruct (ascii_dec a c) as [Heq|Hne].
      * split.
        -- intros H. apply IH in H. destruct H as [r Hr].
           exists r. now rewrite Hr, Heq.
        -- intros [r Hr]. apply IH. exists r.
           simpl in Hr. now injection Hr.
      * split; [discriminate | intros [r Hr]].
        simpl in Hr; injection Hr as Hc _; congruence.
Qed.

Lemma stemMatch_iff (q tok : string) :
  stemMatch q tok = true <->
  simpleStem tok = q
  \/ (IsPrefix q (simpleStem tok)
      /\ String.length (simpleStem tok) - String.length q <= 3)
  \/ (IsPrefix (simpleStem tok) q
      /\ String.length q - String.length (simpleStem tok) <= 2).
Proof.
  unfold stemMatch, startsWith.
  rewrite !orb_true_iff, !andb_true_iff, String.eqb_eq, !Nat.leb_le,
    !prefix_IsPrefix.
  tauto.
Qed.

(** C6. [tokensContainStem tokens queryToken] is true exactly when some token
    [t] of [tokens] has a stem equal to the stem of the query token, or the
    query stem is a prefix of the token's stem and the token's stem is at
    most 3 longer, or the token's stem is a prefix of the query stem and the
    query stem is at most 2 longer.  In particular it is true of
    ["elections"] and "election", whose stems are both "election". *)
Theorem tokensContainStem_iff :
  (forall (tokens : list string) (queryToken : string),
     tokensContainStem tokens queryToken = true <->
     exists t, In t tokens /\
       (simpleStem t = simpleStem queryToken
        \/ (IsPrefix (simpleStem queryToken) (simpleStem t)
            /\ String.length (simpleStem t)
               - String.length (simpleStem queryToken) <= 3)
        \/ (IsPrefix (simpleStem t) (simpleStem queryToken)
            /\ String.length (simpleStem queryToken)
               - String.length (simpleStem t) <= 2)))
  /\ simpleStem "elections" = "election"
  /\ simpleStem "election" = "election"
  /\ tokensContainStem ["elections"] "election" = true.
Proof.
  split; [|repeat split; reflexivity].
  intros tokens queryToken. unfold tokensContainStem.
  rewrite existsb_exists.
  split; intros [t [Hin H]]; exists t; (split; [exact Hin|]);
    now apply stemMatch_iff.
Qed.

End StemmerFacts.

(** ** Arrays: the sort *)
Section ArrFacts.
Context {A : Type} (cmp : A -> A -> Z).

Lemma insert_perm (x : A) (l : list A) :
  Permutation (Arr.insert cmp x l) (x :: l).
Proof.
  induction l as [|y r IH]; simpl.
  - apply Permutation_refl.
  - destruct (cmp x y <=? 0)%Z.
    + apply Permutation_refl.
    + eapply Permutation_trans; [apply perm_skip, IH | apply perm_swap].
Qed.

Lemma sort_perm (l : list A) : Permutation (Arr.sort cmp l) l.
Proof.
  induction l as [|x r IH]; simpl.
  - apply perm_nil.
  - eapply Permutation_trans; [apply insert_perm | now apply perm_skip].
Qed.

Lemma sort_In (l : list A) (x : A) : In x (Arr.sort cmp l) <-> In x l.
Proof.
  split; apply Permutation_in;
    [apply sort_perm | apply Permutation_sym, sort_perm].
Qed.

(** A list whose neighbours are in comparator order is left as it is. *)
Local Abbreviation cmpLe := (notAfter cmp).

Lemma sort_sorted_id (l : list A) :
  Sorted cmpLe l -> Arr.sort cmp l = l.
Proof.
  induction l as [|x r IH]; intros H; simpl; [reflexivity|].
  inversion H as [|? ? Hr Hhd]; subst.
  rewrite (IH Hr).
  destruct r as [|y r']; simpl; [reflexivity|].
  inversion Hhd as [|? ? Hxy]; subst. unfold notAfter in Hxy.
  apply Z.leb_le in Hxy. now rewrite Hxy.
Qed.

Hypothesis cmp_total : forall a b, (0 < cmp a b)%Z -> (cmp b a <= 0)%Z.

Lemma insert_sorted (x : A) (l : list A) :
  Sorted cmpLe l -> Sorted cmpLe (Arr.insert cmp x l).
Proof.
  induction l as [|y r IH]; intros H; simpl.
  - repeat constructor.
  - destruct (cmp x y <=? 0)%Z eqn:E.
    + constructor; [exact H|]. constructor. now apply Z.leb_le.
    + inversion H as [|? ? Hr Hhd]; subst.
      constructor; [now apply IH|].
      apply Z.leb_gt in E.
      destruct r as [|z r']; simpl.
      * constructor. now apply cmp_total.
      * destruct (cmp x z <=? 0)%Z.
        -- constructor. now apply cmp_total.
        -- inversion Hhd; subst. now constructor.
Qed.

Lemma sort_sorted (l : list A) : Sorted cmpLe (Arr.sort cmp l).
Proof.
  induction l as [|x r IH]; simpl; [constructor | now apply insert_sorted].
Qed.

Lemma sort_idempotent (l : list A) :
  Arr.sort cmp (Arr.sort cmp l) = Arr.sort cmp l.
Proof. apply sort_sorted_id, sort_sorted. Qed.

End ArrFacts.

(** ** Scorer *)
Section ScorerFacts.
Import JS Re Text Stemmer Query Domain Scorer.

Lemma fold_left_invariant {S X : Type} (P : S -> Prop) (f : S -> X -> S) :
  (forall st x, P st -> P (f st x)) ->
  forall l st, P st -> P (fold_left f l st).
Proof.
  intros Hstep l; induction l as [|x r IH]; intros st H; simpl; auto.
Qed.

Lemma phraseStep_inv ttl smry st ph :
  tallyInv st -> tallyInv (phraseStep ttl smry st ph).
Proof.
  unfold tallyInv, phraseStep; intros [H1 H2].
  destruct (testLiteral _ ttl), (testLiteral _ smry); simpl;
    (split; [intros Hp; try specialize (H1 Hp); lia | lia]).
Qed.

Lemma tokenStep_inv ttl smry tt stoks st t :
  tallyInv st -> tallyInv (tokenStep ttl smry tt stoks st t).
Proof.
  unfold tallyInv, tokenStep; intros [H1 H2].
  destruct (tokenIn ttl tt t), (tokenIn smry stoks t); simpl;
    (split; [intros Hp; specialize (H1 Hp); lia | lia]).
Qed.

Lemma rawTally_inv h qparts : tallyInv (rawTally h qparts).
Proof.
  unfold rawTally.
  set (st2 := fold_left _ (tokens qparts) _).
  assert (H2 : tallyInv st2).
  { subst st2. apply fold_left_invariant; [intros; now apply tokenStep_inv|].
    apply fold_left_invariant; [intros; now apply phraseStep_inv|].
    split; simpl; [discriminate | lia]. }
  clearbody st2.
  destruct (_ && _); [|exact H2].
  destruct H2 as [Ha Hb]; split; simpl; [intros Hp; specialize (Ha Hp)|]; lia.
Qed.

Lemma headlineSearchScore_zero_or_ge4 h qparts :
  headlineSearchScore h qparts = 0 \/ 4 <= headlineSearchScore h qparts.
Proof.
  unfold headlineSearchScore, gate.
  destruct (rawTally_inv h qparts) as [Ha Hb].
  generalize dependent (rawTally h qparts); intros r Ha Hb.
  destruct (phraseHit r); cbn [orb].
  - right; now apply Ha.
  - destruct (2 <=? titleTokenHits r) eqn:E2; cbn [orb].
    + apply Nat.leb_le in E2. right. lia.
    + destruct (5 <=? total r) eqn:E5.
      * apply Nat.leb_le in E5. right; lia.
      * now left.
Qed.

Lemma suppress_cases item qparts s :
  suppress item qparts s = 0 \/ suppress item qparts s = s.
Proof.
  unfold suppress.
  destruct (_ && _); [|now right].
  destruct (existsb _ (orNil (excludeTokens qparts))); [|now right].
  destruct (negb _); [now left | now right].
Qed.

(** C2. The gate of [headlineSearchScore]: the returned score is the raw
    score when a phrase hit, or there are at least two title token hits, or
    the raw score is at least 5, and 0 otherwise.  In particular, for the
    query "election" and the title "UK Prime Minister announces election",
    with a summary that the scorer does not find the token in, the raw score
    is 4 (one title hit, 2, and the all-tokens bonus, 2) and the returned
    score is 0. *)
Theorem gate_and_boundary_case :
  (forall h qparts,
     headlineSearchScore h qparts =
     if phraseHit (rawTally h qparts)
        || (2 <=? titleTokenHits (rawTally h qparts))
        || (5 <=? total (rawTally h qparts))
     then total (rawTally h qparts) else 0)
  /\ (forall h qparts,
        phraseHit (rawTally h qparts) = false ->
        titleTokenHits (rawTally h qparts) < 2 ->
        total (rawTally h qparts) < 5 ->
        headlineSearchScore h qparts = 0)
  /\ (forall smry src lnk,
        summaryHasToken smry "election" = false ->
        let h := mkHeadline (Some "UK Prime Minister announces election")
                            smry src lnk in
        let q := parseQueryParts "election" in
        phrases q = [] /\ tokens q = ["election"]
        /\ phraseHit (rawTally h q) = false
        /\ titleTokenHits (rawTally h q) = 1
        /\ total (rawTally h q) = 4
        /\ headlineSearchScore h q = 0).
Proof.
  split; [reflexivity|]. split.
  - intros h qparts Hp Ht Hs. unfold headlineSearchScore, gate.
    rewrite Hp. apply Nat.leb_gt in Ht, Hs. now rewrite Ht, Hs.
  - intros smry src lnk Hs h q.
    assert (Hq : q = mkQueryParts [] ["election"] None None) by reflexivity.
    assert (Hr : rawTally h q = mkTally 4 false 1 true).
    { rewrite Hq. unfold rawTally, h; cbn [title summary phrases tokens fold_left].
      unfold tokenStep. fold (summaryHasToken smry "election"). rewrite Hs.
      assert (Ht : tokenIn (toLowerCase (orEmpty (Some "UK Prime Minister announces election")))
                     (tokensFromText (toLowerCase (orEmpty (Some "UK Prime Minister announces election"))))
                     "election" = true) by (vm_compute; reflexivity).
      rewrite Ht. reflexivity. }
    unfold headlineSearchScore. rewrite Hr, Hq. repeat split.
Qed.

Lemma gate_and_boundary_case_witness :
  summaryHasToken (Some "Voters head to the polls next week") "election" = false
  /\ headlineSearchScore
       (mkHeadline (Some "UK Prime Minister announces election")
                   (Some "Voters head to the polls next week") None None)
       (parseQueryParts "election") = 0.
Proof.
  split; [vm_compute; reflexivity|].
  apply (proj2 (proj2 gate_and_boundary_case)
               (Some "Voters head to the polls next week") None None).
  vm_compute; reflexivity.
Defined.

Lemma no_terms_no_score h qparts :
  phrases qparts = [] -> tokens qparts = [] -> headlineSearchScore h qparts = 0.
Proof.
  intros Hp Ht. unfold headlineSearchScore, rawTally. now rewrite Hp, Ht.
Qed.

Lemma scoreFrom_In qparts items : forall i c,
  In c (scoreFrom qparts i items) <->
  i <= index c
  /\ (exists h, nth_error items (index c - i) = Some h
                /\ score c = finalScore qparts h)
  /\ 0 < score c.
Proof.
  induction items as [|it rest IH]; intros i c; simpl.
  - split; [tauto|]. intros [_ [[h [Hn _]] _]].
    destruct (index c - i); discriminate.
  - fold (finalScore qparts it).
    assert (Htail : In c (scoreFrom qparts (S i) rest) <->
                    i < index c
                    /\ (exists h, nth_error (it :: rest) (index c - i) = Some h
                                  /\ score c = finalScore qparts h)
                    /\ 0 < score c).
    { rewrite IH. split.
      - intros [Hi [[h [Hn Hs]] Hp]]. split; [lia|]. split; [|exact Hp].
        exists h. split; [|exact Hs].
        replace (index c - i) with (S (index c - S i)) by lia. exact Hn.
      - intros [Hi [[h [Hn Hs]] Hp]]. split; [lia|]. split; [|exact Hp].
        exists h. split; [|exact Hs].
        replace (index c - i) with (S (index c - S i)) in Hn by lia. exact Hn. }
    assert (Hhead : forall s, c = mkScored i s ->
                    nth_error (it :: rest) (index c - i) = Some it).
    { intros s ->. simpl. now rewrite Nat.sub_diag. }
    destruct (0 <? finalScore qparts it) eqn:E.
    + apply Nat.ltb_lt in E. simpl. rewrite Htail. split.
      * intros [Hc | [Hi H]].
        -- subst c. simpl. split; [lia|]. split; [|exact E].
           exists it. rewrite Nat.sub_diag. now split.
        -- split; [lia | exact H].
      * intros [Hi [[h [Hn Hs]] Hp]].
        destruct (Nat.eq_dec (index c) i) as [Heq|Hne].
        -- left. rewrite Heq, Nat.sub_diag in Hn. simpl in Hn.
           injection Hn as <-. destruct c as [ci cs]; simpl in *. congruence.
        -- right. split; [lia|]. split; [|exact Hp]. now exists h.
    + apply Nat.ltb_ge in E. rewrite Htail. split.
      * intros [Hi H]. split; [lia | exact H].
      * intros [Hi [[h [Hn Hs]] Hp]].
        destruct (Nat.eq_dec (index c) i) as [Heq|Hne].
        -- rewrite Heq, Nat.sub_diag in Hn. simpl in Hn.
           injection Hn as <-. lia.
        -- split; [lia|]. split; [|exact Hp]. now exists h.
Qed.

Lemma scoreFrom_increasing qparts items : forall i,
  StronglySorted indexBefore (scoreFrom qparts i items).
Proof.
  induction items as [|it rest IH]; intros i; simpl; [constructor|].
  destruct (0 <? _); [|apply IH].
  constructor; [apply IH|].
  apply Forall_forall. intros c Hc. apply scoreFrom_In in Hc.
  unfold indexBefore; simpl. lia.
Qed.

(** Sorting by descending score a list in increasing index order ranks it:
    the stable order of the sort. *)
Lemma insert_ranked x l :
  StronglySorted ranksBefore l ->
  Forall (indexBefore x) l ->
  StronglySorted ranksBefore (Arr.insert byScoreDesc x l).
Proof.
  induction l as [|y r IH]; intros Hs Hx; simpl.
  - repeat constructor.
  - inversion Hs as [|? ? Hr Hy]; subst.
    inversion Hx as [|? ? Hxy Hxr]; subst.
    unfold byScoreDesc at 1.
    destruct (Z.of_nat (score y) - Z.of_nat (score x) <=? 0)%Z eqn:E.
    + apply Z.leb_le in E. constructor; [exact Hs|].
      constructor.
      * unfold ranksBefore, indexBefore in *. lia.
      * rewrite Forall_forall in Hy, Hxr |- *. intros z Hz.
        specialize (Hy z Hz). specialize (Hxr z Hz).
        unfold ranksBefore, indexBefore in *. lia.
    + apply Z.leb_gt in E. constructor; [now apply IH|].
      apply Forall_forall. intros z Hz.
      apply (Permutation_in _ (insert_perm byScoreDesc x r)) in Hz.
      destruct Hz as [<- | Hz].
      * unfold ranksBefore. lia.
      * rewrite Forall_forall in Hy. now apply Hy.
Qed.

Lemma sort_ranked l :
  StronglySorted indexBefore l ->
  StronglySorted ranksBefore (Arr.sort byScoreDesc l).
Proof.
  induction l as [|x r IH]; intros H; simpl; [constructor|].
  inversion H as [|? ? Hr Hx]; subst.
  apply insert_ranked; [now apply IH|].
  rewrite Forall_forall in Hx |- *. intros z Hz.
  apply Hx. now apply (sort_In byScoreDesc).
Qed.

Lemma firstn_incl {X : Type} (n : nat) (l : list X) (x : X) :
  In x (firstn n l) -> In x l.
Proof.
  intros H. rewrite <- (firstn_skipn n l). apply in_or_app. now left.
Qed.

(** The early return of [searchHeadlines] agrees with the general path:
    without phrases and tokens nothing scores. *)
Lemma searchHeadlines_sorted_prefix domainTerms feedGroup query items limit :
  searchHeadlines domainTerms feedGroup query items limit =
  firstn limit
    (Arr.sort byScoreDesc
       (scoreFrom (expandQueryWithDomain domainTerms feedGroup
                     (parseQueryParts query) query) 0 items)).
Proof.
  unfold searchHeadlines.
  set (qparts := expandQueryWithDomain _ _ _ _).
  destruct ((length (phrases qparts) =? 0) && (length (tokens qparts) =? 0)) eqn:E;
    [|reflexivity].
  apply andb_true_iff in E. destruct E as [Ep Et].
  apply Nat.eqb_eq, length_zero_iff_nil in Ep, Et.
  assert (Hnil : scoreFrom qparts 0 items = []).
  { generalize 0. induction items as [|it rest IH]; intros i; simpl; [reflexivity|].
    rewrite (no_terms_no_score it qparts Ep Et).
    assert (Hz : suppress it qparts 0 = 0)
      by (destruct (suppress_cases it qparts 0); assumption).
    rewrite Hz. simpl. apply IH. }
  rewrite Hnil. simpl. now rewrite firstn_nil.
Qed.

(** C5. [searchHeadlines] returns the first [limit] elements of a ranking
    that holds exactly the candidates of positive score (each headline
    position with the score the search gives that headline), ordered by
    non-increasing score, candidates of equal score in headline order. *)
Theorem searchHeadlines_ranking :
  forall domainTerms feedGroup query items limit,
    let qparts :=
      expandQueryWithDomain domainTerms feedGroup (parseQueryParts query) query in
    let result := searchHeadlines domainTerms feedGroup query items limit in
    exists ranked,
      result = firstn limit ranked
      /\ (forall c, In c ranked <->
            (exists h, nth_error items (index c) = Some h
                       /\ score c = finalScore qparts h)
            /\ 0 < score c)
      /\ StronglySorted ranksBefore ranked
      /\ length result <= limit.
Proof.
  intros dt fg query items limit qparts result.
  exists (Arr.sort byScoreDesc (scoreFrom qparts 0 items)).
  assert (Hres : result = firstn limit (Arr.sort byScoreDesc (scoreFrom qparts 0 items)))
    by apply searchHeadlines_sorted_prefix.
  split; [exact Hres|]. split; [|split].
  - intros c. rewrite sort_In, scoreFrom_In, Nat.sub_0_r.
    split; [tauto | intros H; split; [lia | exact H]].
  - apply sort_ranked, scoreFrom_increasing.
  - rewrite Hres. apply firstn_le_length.
Qed.

(** C10. Every candidate that [searchHeadlines] returns has a score of at
    least 4. *)
Theorem search_scores_at_least_4 :
  forall domainTerms feedGroup query items limit c,
    In c (searchHeadlines domainTerms feedGroup query items limit) ->
    4 <= score c.
Proof.
  intros dt fg query items limit c Hc.
  rewrite searchHeadlines_sorted_prefix in Hc.
  apply firstn_incl, sort_In, scoreFrom_In in Hc.
  destruct Hc as [_ [[h [_ Hs]] Hpos]].
  unfold finalScore in Hs. rewrite Hs in *.
  destruct (suppress_cases h
              (expandQueryWithDomain dt fg (parseQueryParts query) query)
              (headlineSearchScore h
                 (expandQueryWithDomain dt fg (parseQueryParts query) query)))
    as [H0 | Hsame]; [lia|].
  rewrite Hsame in *.
  destruct (headlineSearchScore_zero_or_ge4 h
              (expandQueryWithDomain dt fg (parseQueryParts query) query));
    lia.
Qed.

Lemma search_scores_at_least_4_witness :
  In (mkScored 1 7)
     (searchHeadlines None "" "election parliament"
        [mkHeadline (Some "UK Prime Minister announces election") None None None;
         mkHeadline (Some "Elections loom as parliament debates")
                    (Some "The election is near") None None] 10)
  /\ 4 <= score (mkScored 1 7).
Proof.
  split; [vm_compute; left; reflexivity|].
  apply (search_scores_at_least_4 None "" "election parliament"
           [mkHeadline (Some "UK Prime Minister announces election") None None None;
            mkHeadline (Some "Elections loom as parliament debates")
                       (Some "The election is near") None None] 10).
  vm_compute; left; reflexivity.
Defined.

End ScorerFacts.

(** ** Domain expansion *)
Section DomainFacts.
Import JS Re Text Query Domain.

Lemma toLowerCase_length (s : string) :
  String.length (toLowerCase s) = String.length s.
Proof. induction s as [|c r IH]; simpl; [reflexivity | now rewrite IH]. Qed.

Lemma isEmpty_true (s : string) : isEmpty s = true <-> s = "".
Proof. destruct s; simpl; split; intros H; congruence. Qed.

Lemma trim_empty : trim "" = "".
Proof. reflexivity. Qed.

(** [addTerm] touches [phrases] and [tokens] only, and does to them what
    [ingestTerm] says. *)
Lemma addTerm_ingest (out : QueryParts) (t : string) :
  phrasesTokens (addTerm out t) = ingestTerm (phrasesTokens out) t
  /\ excludeTokens (addTerm out t) = excludeTokens out
  /\ anchorTokens (addTerm out t) = anchorTokens out.
Proof.
  unfold addTerm, ingestTerm, phrasesTokens.
  destruct (isEmpty t) eqn:Et.
  - apply isEmpty_true in Et; subst t. rewrite trim_empty. simpl. auto.
  - destruct (isEmpty (trim t)) eqn:Es; [auto|].
    destruct (includes (trim t) " ") eqn:Ei; cbn [fst snd].
    + unfold sameCI.
      destruct (existsb _ (phrases out)); simpl; auto.
    + unfold sameCI. rewrite toLowerCase_length.
      destruct (existsb _ (tokens out)), (mem (toLowerCase (trim t)) STOPWORDS),
        (String.length (trim t)) as [|[|n]]; cbn; auto.
Qed.

Lemma addTerms_ingest (ts : list string) : forall out,
  phrasesTokens (addTerms out ts) = fold_left ingestTerm ts (phrasesTokens out)
  /\ excludeTokens (addTerms out ts) = excludeTokens out
  /\ anchorTokens (addTerms out ts) = anchorTokens out.
Proof.
  unfold addTerms.
  induction ts as [|t r IH]; intros out; simpl; [auto|].
  destruct (IH (addTerm out t)) as [H1 [H2 H3]].
  destruct (addTerm_ingest out t) as [G1 [G2 G3]].
  rewrite H1, H2, H3, G1, G2, G3. auto.
Qed.

Lemma addFromRegions_ingest (obj : option RegionMap) (rs : list string) :
  forall out,
  phrasesTokens (addFromRegions rs out obj)
  = fold_left ingestTerm (namesIn rs obj) (phrasesTokens out)
  /\ excludeTokens (addFromRegions rs out obj) = excludeTokens out
  /\ anchorTokens (addFromRegions rs out obj) = anchorTokens out.
Proof.
  unfold addFromRegions, namesIn, regionNames.
  destruct obj as [m|].
  - induction rs as [|r rest IH]; intros out; simpl; [auto|].
    rewrite fold_left_app.
    destruct (lookup m r) as [arr|]; simpl.
    + destruct (IH (addTerms out arr)) as [H1 [H2 H3]].
      destruct (addTerms_ingest arr out) as [G1 [G2 G3]].
      rewrite H1, H2, H3, G1, G2, G3. auto.
    + apply IH.
  - intros out.
    assert (H : flat_map (fun _ : string => @nil string) rs = [])
      by (induction rs; simpl; auto).
    rewrite H. simpl. auto.
Qed.

Lemma expandPolitics_ingest (p : Politics) (regions : list string)
  (out0 : QueryParts) :
  let target := targetRegionsOf regions (allRegionsOf p) in
  phrasesTokens (expandPolitics p regions out0)
  = fold_left ingestTerm
      (orNil (synonyms p)
       ++ namesIn target (parties p)
       ++ namesIn target (institutions p)
       ++ namesIn target (people p)
       ++ orNil (related_terms p))
      (phrasesTokens out0).
Proof.
  intros target. unfold expandPolitics. fold target.
  rewrite !fold_left_app.
  match goal with
  | |- phrasesTokens (addTerms ?o _) = _ =>
      rewrite (proj1 (addTerms_ingest _ o))
  end.
  f_equal. unfold phrasesTokens at 1; cbn [phrases tokens].
  match goal with
  | |- (phrases ?o, tokens ?o) = _ => change (phrasesTokens o = 
      fold_left ingestTerm (namesIn target (people p))
        (fold_left ingestTerm (namesIn target (institutions p))
           (fold_left ingestTerm (namesIn target (parties p))
              (fold_left ingestTerm (orNil (synonyms p)) (phrasesTokens out0)))))
  end.
  rewrite (proj1 (addFromRegions_ingest _ _ _)).
  rewrite (proj1 (addFromRegions_ingest _ _ _)).
  rewrite (proj1 (addFromRegions_ingest _ _ _)).
  now rewrite (proj1 (addTerms_ingest _ _)).
Qed.

Lemma otherRegions_without_region (allRegions : list string) :
  otherRegionsOf [] allRegions = allRegions
  /\ targetRegionsOf [] allRegions = allRegions.
Proof.
  split; [|reflexivity]. unfold otherRegionsOf.
  induction allRegions as [|r rest IH]; [reflexivity|].
  simpl. f_equal. exact IH.
Qed.

(** The exclude tokens of the politics expansion are the names that the
    three maps list for [otherRegions]; when a region is detected,
    [otherRegions] is the complement of the target regions. *)
Lemma expandPolitics_excludeTokens (p : Politics) (regions : list string)
  (out0 : QueryParts) :
  excludeTokens (expandPolitics p regions out0)
  = Some (orNil (excludeTokens out0)
          ++ collectFromRegions (otherRegionsOf regions (allRegionsOf p)) (parties p)
          ++ collectFromRegions (otherRegionsOf regions (allRegionsOf p)) (institutions p)
          ++ collectFromRegions (otherRegionsOf regions (allRegionsOf p)) (people p)).
Proof.
  unfold expandPolitics.
  rewrite (proj1 (proj2 (addTerms_ingest _ _))). cbn [excludeTokens].
  rewrite !(proj1 (proj2 (addFromRegions_ingest _ _ _))).
  now rewrite (proj1 (proj2 (addTerms_ingest _ _))).
Qed.

Lemma otherRegions_with_region (regions allRegions : list string) :
  regions <> [] ->
  otherRegionsOf regions allRegions
  = filter (fun r => negb (mem r (targetRegionsOf regions allRegions))) allRegions.
Proof.
  intros H. unfold otherRegionsOf, targetRegionsOf.
  destruct regions as [|r rest]; [contradiction | reflexivity].
Qed.

(** C1, evaluated where no region is detected.  For the query
    "election results" with no feed group, and domain terms that list Labour
    for uk and the Democrats for usa, the target regions are all the regions,
    yet [otherRegions] is all the regions too and both names are returned as
    exclude tokens: [otherRegions] removes the detected regions, which are
    none, and not the target regions. *)
Theorem exclude_tokens_without_region :
  shouldUsePoliticsDomain "election results" = true
  /\ detectRegionsFromContext "" "election results" = []
  /\ targetRegionsOf [] ["uk"; "usa"] = ["uk"; "usa"]
  /\ otherRegionsOf [] ["uk"; "usa"] = ["uk"; "usa"]
  /\ expandQueryWithDomain
       (Some (mkDomainTerms (Some (mkPolitics None None
          (Some [("uk", ["Labour"]); ("usa", ["Democrats"])]) None None))))
       "" (parseQueryParts "election results") "election results"
     = mkQueryParts [] ["election"; "results"; "Labour"; "Democrats"]
         (Some ["Labour"; "Democrats"])
         (Some ["uk"; "british"; "england"; "scotland"; "wales";
                "northern ireland"; "westminster"; "downing street";
                "whitehall"; "house of commons"; "house of lords"; "no 10";
                "number 10"; "labour"; "usa"; "us"; "american"; "washington";
                "white house"; "capitol hill"; "senate"; "congress";
                "democrats"]).
Proof. repeat split; vm_compute; reflexivity. Qed.

(** C4, as stated, fails: with domain terms loaded and a query that does not
    trigger the politics domain, the result carries empty [excludeTokens] and
    [anchorTokens] lists, which the parser's output does not have, and which
    replace those of an input that has them. *)
Lemma expand_untriggered_not_identity :
  shouldUsePoliticsDomain "weather" = false
  /\ parseQueryParts "weather" = mkQueryParts [] ["weather"] None None
  /\ expandQueryWithDomain
       (Some (mkDomainTerms (Some (mkPolitics (Some ["vote"]) None None None None))))
       "" (parseQueryParts "weather") "weather"
     = mkQueryParts [] ["weather"] (Some []) (Some [])
  /\ expandQueryWithDomain
       (Some (mkDomainTerms (Some (mkPolitics (Some ["vote"]) None None None None))))
       "" (parseQueryParts "weather") "weather"
     <> parseQueryParts "weather"
  /\ expandQueryWithDomain
       (Some (mkDomainTerms (Some (mkPolitics (Some ["vote"]) None None None None))))
       "" (mkQueryParts [] ["weather"] (Some ["Congress"]) (Some ["westminster"]))
       "weather"
     <> mkQueryParts [] ["weather"] (Some ["Congress"]) (Some ["westminster"]).
Proof.
  repeat split; try (vm_compute; reflexivity); vm_compute; discriminate.
Qed.

(** C4, amended.  Without domain terms [expandQueryWithDomain] returns its
    input.  With domain terms and a query that does not trigger the politics
    domain, it returns the phrases and tokens of its input with empty
    [excludeTokens] and [anchorTokens] lists. *)
Theorem expand_untriggered :
  forall (feedGroup : string) (qparts : QueryParts) (query : string),
    expandQueryWithDomain None feedGroup qparts query = qparts
    /\ (forall dt,
          shouldUsePoliticsDomain query = false ->
          expandQueryWithDomain (Some dt) feedGroup qparts query
          = mkQueryParts (phrases qparts) (tokens qparts) (Some []) (Some [])).
Proof.
  intros fg qparts query. split; [reflexivity|].
  intros dt Hq. unfold expandQueryWithDomain. rewrite Hq.
  now destruct (politics dt).
Qed.

Lemma expand_untriggered_witness :
  shouldUsePoliticsDomain "weather tomorrow" = false
  /\ expandQueryWithDomain
       (Some (mkDomainTerms (Some (mkPolitics (Some ["vote"]) None None None None))))
       "news_uk" (parseQueryParts "weather tomorrow") "weather tomorrow"
     = mkQueryParts (phrases (parseQueryParts "weather tomorrow"))
                    (tokens (parseQueryParts "weather tomorrow"))
                    (Some []) (Some []).
Proof.
  split; [vm_compute; reflexivity|].
  apply (proj2 (expand_untriggered "news_uk" (parseQueryParts "weather tomorrow")
                  "weather tomorrow")).
  vm_compute; reflexivity.
Defined.

(** C7, as stated, fails on the order of ingestion: related terms are
    ingested last, after the regional lists.  With the related term "labour"
    and the uk party "Labour", the query "uk election" keeps "Labour" (the
    party list came first), where the stated order keeps "labour". *)
Lemma ingestion_order_differs :
  shouldUsePoliticsDomain "uk election" = true
  /\ detectRegionsFromContext "" "uk election" = ["uk"]
  /\ tokens (expandQueryWithDomain
       (Some (mkDomainTerms (Some (mkPolitics None (Some ["labour"])
          (Some [("uk", ["Labour"])]) None None))))
       "" (parseQueryParts "uk election") "uk election")
     = ["election"; "Labour"]
  /\ snd (ingestAsClaimed
            (mkPolitics None (Some ["labour"]) (Some [("uk", ["Labour"])]) None None)
            ["uk"]
            (phrases (parseQueryParts "uk election"),
             tokens (parseQueryParts "uk election")))
     = ["election"; "labour"].
Proof. repeat split; vm_compute; reflexivity. Qed.

Lemma sameCI_exists (s : string) (l : list string) :
  existsb (sameCI s) l = true <->
  exists x, In x l /\ toLowerCase x = toLowerCase s.
Proof.
  rewrite existsb_exists. unfold sameCI.
  split; intros [x [Hin H]]; exists x; (split; [exact Hin|]);
    now apply String.eqb_eq.
Qed.

Lemma sameCI_none (s : string) (l : list string) :
  (forall x, In x l -> toLowerCase x <> toLowerCase s) ->
  existsb (sameCI s) l = false.
Proof.
  intros H. destruct (existsb (sameCI s) l) eqn:E; [|reflexivity].
  apply sameCI_exists in E. destruct E as [x [Hin Hx]]. now elim (H x Hin).
Qed.

Lemma mem_In (x : string) (l : list string) : mem x l = true <-> In x l.
Proof.
  unfold mem. rewrite existsb_exists. split.
  - intros [y [Hin H]]. apply String.eqb_eq in H. now subst.
  - intros H. exists x. split; [exact H | apply String.eqb_refl].
Qed.

(** C7, amended.  With the politics domain triggered, the phrases and tokens
    of the result are those of the input after ingesting, in this order, the
    synonyms, then the party, institution and people lists of the target
    regions only (the detected regions, or all regions when none is
    detected), then the related terms.  A term is ingested trimmed; empty, it
    is dropped; with a space in it, it is appended to the phrases unless a
    phrase equal to it up to case is there; otherwise it is appended to the
    tokens unless a token equal to it up to case is there, or it is a
    stopword, or it is shorter than two characters. *)
Theorem expand_ingestion :
  (forall dt p feedGroup qparts query,
     politics dt = Some p ->
     shouldUsePoliticsDomain query = true ->
     let target :=
       targetRegionsOf (detectRegionsFromContext feedGroup query)
                       (allRegionsOf p) in
     let out := expandQueryWithDomain (Some dt) feedGroup qparts query in
     (phrases out, tokens out)
     = fold_left ingestTerm
         (orNil (synonyms p)
          ++ namesIn target (parties p)
          ++ namesIn target (institutions p)
          ++ namesIn target (people p)
          ++ orNil (related_terms p))
         (phrases qparts, tokens qparts))
  /\ (forall phs toks t,
        let s := trim t in
        (s = "" -> ingestTerm (phs, toks) t = (phs, toks))
        /\ (s <> "" -> includes s " " = true ->
            (exists ph, In ph phs /\ toLowerCase ph = toLowerCase s) ->
            ingestTerm (phs, toks) t = (phs, toks))
        /\ (s <> "" -> includes s " " = true ->
            (forall ph, In ph phs -> toLowerCase ph <> toLowerCase s) ->
            ingestTerm (phs, toks) t = (phs ++ [s], toks))
        /\ (s <> "" -> includes s " " = false ->
            (exists tok, In tok toks /\ toLowerCase tok = toLowerCase s)
            \/ In (toLowerCase s) STOPWORDS
            \/ String.length s < 2 ->
            ingestTerm (phs, toks) t = (phs, toks))
        /\ (s <> "" -> includes s " " = false ->
            (forall tok, In tok toks -> toLowerCase tok <> toLowerCase s) ->
            ~ In (toLowerCase s) STOPWORDS ->
            2 <= String.length s ->
            ingestTerm (phs, toks) t = (phs, toks ++ [s]))).
Proof.
  split.
  - intros dt p fg qparts query Hp Hq target out.
    unfold out, expandQueryWithDomain. rewrite Hp, Hq.
    apply (expandPolitics_ingest p (detectRegionsFromContext fg query)
             (mkQueryParts (phrases qparts) (tokens qparts) (Some []) (Some []))).
  - intros phs toks t s. unfold ingestTerm. fold s. cbn [fst snd].
    assert (Hne : s <> "" -> isEmpty s = false).
    { intros H. destruct (isEmpty s) eqn:E; [|reflexivity].
      now apply isEmpty_true in E. }
    repeat split.
    + intros ->. reflexivity.
    + intros H Hi Hex. rewrite (Hne H), Hi.
      apply sameCI_exists in Hex. now rewrite Hex.
    + intros H Hi Hno. rewrite (Hne H), Hi. now rewrite (sameCI_none s phs Hno).
    + intros H Hi Hc. rewrite (Hne H), Hi.
      destruct Hc as [Hex | [Hsw | Hlen]].
      * apply sameCI_exists in Hex. now rewrite Hex.
      * apply mem_In in Hsw. rewrite Hsw. now rewrite orb_true_r.
      * apply Nat.ltb_lt in Hlen. rewrite Hlen. now rewrite !orb_true_r.
    + intros H Hi Hno Hsw Hlen. rewrite (Hne H), Hi.
      rewrite (sameCI_none s toks Hno).
      destruct (mem (toLowerCase s) STOPWORDS) eqn:E;
        [now apply mem_In in E|].
      apply Nat.ltb_ge in Hlen. now rewrite Hlen.
Qed.

Lemma expand_ingestion_witness :
  shouldUsePoliticsDomain "uk election" = true
  /\ (phrases (expandQueryWithDomain
        (Some (mkDomainTerms (Some (mkPolitics (Some ["vote"; "general election"])
           (Some ["ballot"; "Vote"])
           (Some [("uk", ["Labour"]); ("usa", ["Democrats"])]) None None))))
        "" (parseQueryParts "uk election") "uk election"),
      tokens (expandQueryWithDomain
        (Some (mkDomainTerms (Some (mkPolitics (Some ["vote"; "general election"])
           (Some ["ballot"; "Vote"])
           (Some [("uk", ["Labour"]); ("usa", ["Democrats"])]) None None))))
        "" (parseQueryParts "uk election") "uk election"))
     = (["general election"], ["election"; "vote"; "Labour"; "ballot"]).
Proof.
  split; [vm_compute; reflexivity|].
  etransitivity.
  - apply (proj1 expand_ingestion
      (mkDomainTerms (Some (mkPolitics (Some ["vote"; "general election"])
         (Some ["ballot"; "Vote"])
         (Some [("uk", ["Labour"]); ("usa", ["Democrats"])]) None None)))
      (mkPolitics (Some ["vote"; "general election"])
         (Some ["ballot"; "Vote"])
         (Some [("uk", ["Labour"]); ("usa", ["Democrats"])]) None None)
      "" (parseQueryParts "uk election") "uk election");
      [reflexivity | vm_compute; reflexivity].
  - vm_compute; reflexivity.
Defined.

End DomainFacts.

(** ** Mentions *)
Section MentionFacts.
Import JS Scorer Mentions.
Variable urlWithoutQuery : string -> option string.
Variable headlines : list Headline.

Local Abbreviation mIndex := (Mentions.mentionIndex urlWithoutQuery headlines).
Local Abbreviation byShape := (resolveByShape urlWithoutQuery headlines).

Lemma findIndexFrom_firstAt {A : Type} (f : A -> bool) (l : list A) : forall i,
  Arr.findIndexFrom f i l =
  match firstAt f l with
  | Some n => (i + Z.of_nat n)%Z
  | None => (-1)%Z
  end.
Proof.
  induction l as [|x r IH]; intros i; simpl; [reflexivity|].
  destruct (f x); [simpl; lia|].
  rewrite IH. destruct (firstAt f r); simpl; [lia | reflexivity].
Qed.

Lemma firstAt_lt {A : Type} (f : A -> bool) (l : list A) (n : nat) :
  firstAt f l = Some n -> n < length l.
Proof.
  revert n; induction l as [|x r IH]; intros n; simpl; [discriminate|].
  destruct (f x).
  - intros [= <-]. lia.
  - destruct (firstAt f r) as [k|]; simpl; [|discriminate].
    intros [= <-]. specialize (IH k eq_refl). lia.
Qed.

Lemma findIndex_cases {A : Type} (f : A -> bool) (l : list A) :
  (firstAt f l = None /\ Arr.findIndex f l = (-1)%Z)
  \/ (exists n, firstAt f l = Some n /\ Arr.findIndex f l = Z.of_nat n
                /\ n < length l).
Proof.
  unfold Arr.findIndex. rewrite findIndexFrom_firstAt.
  destruct (firstAt f l) as [n|] eqn:E; [right | now left].
  exists n. split; [reflexivity|]. split; [lia | now apply (firstAt_lt f l)].
Qed.

Lemma resolved_of_nat (n : nat) : resolved (Z.of_nat n) = Some n.
Proof.
  unfold resolved. destruct (Z.of_nat n <? 0)%Z eqn:E.
  - apply Z.ltb_lt in E. lia.
  - now rewrite Nat2Z.id.
Qed.

Lemma resolved_Some (idx : Z) (n : nat) :
  resolved idx = Some n <-> idx = Z.of_nat n.
Proof.
  split; [|intros ->; apply resolved_of_nat].
  unfold resolved. destruct (idx <? 0)%Z eqn:E; [discriminate|].
  apply Z.ltb_ge in E. intros [= <-]. now rewrite Z2Nat.id.
Qed.

Lemma byIndex_cases (n : Z) :
  (inRange headlines n = false /\ byIndex headlines (Some n) = None)
  \/ (inRange headlines n = true
      /\ byIndex headlines (Some n) = Some (Z.to_nat n)
      /\ (0 <= n < Z.of_nat (length headlines))%Z).
Proof.
  unfold byIndex, inRange.
  destruct ((0 <=? n) && (n <? Z.of_nat (length headlines)))%Z eqn:E;
    [right | now left].
  apply andb_true_iff in E. destruct E as [E1 E2].
  apply Z.leb_le in E1. apply Z.ltb_lt in E2. auto.
Qed.

Lemma titleHas_split (tnorm : string) :
  Arr.findIndex (titleHas tnorm) headlines =
  if 8 <=? String.length tnorm
  then Arr.findIndex
         (fun h => includes (toLowerCase (orEmpty (Scorer.title h))) tnorm)
         headlines
  else (-1)%Z.
Proof.
  unfold Arr.findIndex, titleHas. generalize 0%Z.
  destruct (8 <=? String.length tnorm).
  - induction headlines as [|h r IH]; intros i; simpl; [reflexivity|].
    rewrite andb_true_r. now rewrite IH.
  - induction headlines as [|h r IH]; intros i; simpl; [reflexivity|].
    rewrite andb_false_r. apply IH.
Qed.

(** The index the loop body computes is the resolution by shape, and it is
    -1 or a position of the headline list. *)
Lemma mentionIndex_resolves (m : Mention) :
  resolved (mIndex m) = byShape m
  /\ (mIndex m = (-1)%Z
      \/ (0 <= mIndex m < Z.of_nat (length headlines))%Z).
Proof.
  destruct m as [u i t | s | n |]; [simpl | simpl | | simpl].
  - (* object *)
    unfold given, optTruthy.
    set (fu := fun h : Headline => urlsEqual urlWithoutQuery (link h) u).
    assert (Hurl :
      forall u', u = Some u' -> truthy u' = true ->
      (firstAt (fun h => String.eqb (normalizeUrl urlWithoutQuery (link h))
                                    (normalizeUrl urlWithoutQuery (Some u')))
               headlines = firstAt fu headlines)).
    { intros u' -> _. reflexivity. }
    assert (Hafter :
      forall idx1 r1,
        (idx1 = (-1)%Z /\ r1 = None
         \/ exists k, r1 = Some k /\ idx1 = Z.of_nat k /\ k < length headlines) ->
        let idx2 := match i with
                    | Some n => if (idx1 <? 0)%Z && inRange headlines n
                                then n else idx1
                    | None => idx1
                    end in
        let idx4 :=
          if (idx2 <? 0)%Z
             && match t with Some s => truthy s | None => false end
          then
            if (Arr.findIndex (titleIs (toLowerCase (trim (orEmpty t)))) headlines <? 0)%Z
            then Arr.findIndex (titleHas (toLowerCase (trim (orEmpty t)))) headlines
            else Arr.findIndex (titleIs (toLowerCase (trim (orEmpty t)))) headlines
          else idx2 in
        resolved idx4 =
        firstSome [r1; byIndex headlines i;
                   byTitle headlines
                     match t with
                     | Some s => if truthy s then Some s else None
                     | None => None
                     end;
                   byContainment headlines
                     match t with
                     | Some s => if truthy s then Some s else None
                     | None => None
                     end]
        /\ (idx4 = (-1)%Z \/ (0 <= idx4 < Z.of_nat (length headlines))%Z)).
    { intros idx1 r1 [[-> ->] | [k [-> [-> Hk]]]] idx2 idx4.
      - (* rule (a) did not resolve *)
        assert (H2 :
          (idx2 = (-1)%Z /\ byIndex headlines i = None)
          \/ (exists k, byIndex headlines i = Some k /\ idx2 = Z.of_nat k
                        /\ k < length headlines)).
        { subst idx2. destruct i as [n|]; [|now left].
          change ((-1 <? 0)%Z) with true. cbn [andb].
          destruct (byIndex_cases n) as [[-> ->] | [-> [-> Hr]]]; [now left|].
          right. exists (Z.to_nat n). repeat split; lia. }
        destruct H2 as [[E2 Hb] | [k [Hb [E2 Hk]]]].
        + (* rule (b) did not resolve *)
          subst idx4. rewrite E2. change ((-1 <? 0)%Z) with true. cbn [andb].
          cbn [firstSome]. rewrite Hb.
          destruct t as [s|]; [|split; [reflexivity | now left]].
          destruct (truthy s); [|split; [reflexivity | now left]].
          cbn [orEmpty byTitle byContainment].
          rewrite titleHas_split.
          unfold titleIs.
          destruct (findIndex_cases
                      (fun h => String.eqb (toLowerCase (trim (orEmpty (Scorer.title h))))
                                           (toLowerCase (trim s))) headlines)
            as [[-> ->] | [k [-> [-> Hk]]]].
          * change ((-1 <? 0)%Z) with true. cbn iota.
            destruct (8 <=? String.length (toLowerCase (trim s)));
              [|split; [reflexivity | now left]].
            destruct (findIndex_cases
                        (fun h => includes (toLowerCase (orEmpty (Scorer.title h)))
                                           (toLowerCase (trim s))) headlines)
              as [[-> ->] | [k [-> [-> Hk]]]].
            -- split; [reflexivity | now left].
            -- split; [apply resolved_of_nat | right; lia].
          * assert (E : (Z.of_nat k <? 0)%Z = false) by (apply Z.ltb_ge; lia).
            rewrite E. split; [apply resolved_of_nat | right; lia].
        + subst idx4. rewrite E2.
          assert (E : (Z.of_nat k <? 0)%Z = false) by (apply Z.ltb_ge; lia).
          rewrite E. cbn [andb firstSome]. rewrite Hb.
          split; [apply resolved_of_nat | right; lia].
      - (* rule (a) resolved *)
        assert (E : (Z.of_nat k <? 0)%Z = false) by (apply Z.ltb_ge; lia).
        assert (E2 : idx2 = Z.of_nat k).
        { subst idx2. destruct i; [|reflexivity]. now rewrite E. }
        subst idx4. rewrite E2, E. cbn [andb firstSome].
        split; [apply resolved_of_nat | right; lia]. }
    destruct u as [u'|]; [destruct (truthy u') eqn:Eu|].
    + apply Hafter. cbn [byUrl].
      destruct (findIndex_cases fu headlines) as [[H1 H2] | [k [H1 [H2 Hk]]]].
      * left. split; [exact H2 | exact H1].
      * right. exists k. repeat split; assumption.
    + apply Hafter. now left.
    + apply Hafter. now left.
  - (* string *)
    destruct (startsWith s "http").
    + cbn [byUrl]. unfold urlsEqual.
      match goal with
      | |- resolved (Arr.findIndex ?f _) = firstAt ?g _ /\ _ => change g with f
      end.
      destruct (findIndex_cases
                  (fun h => String.eqb (normalizeUrl urlWithoutQuery (link h))
                                       (normalizeUrl urlWithoutQuery (Some s)))
                  headlines) as [[-> ->] | [k [-> [-> Hk]]]].
      * split; [reflexivity | now left].
      * split; [apply resolved_of_nat | right; lia].
    + cbn [byTitle]. unfold titleIs.
      destruct (findIndex_cases
                  (fun h => String.eqb (toLowerCase (trim (orEmpty (Scorer.title h))))
                                       (toLowerCase (trim s)))
                  headlines) as [[-> ->] | [k [-> [-> Hk]]]].
      * split; [reflexivity | now left].
      * split; [apply resolved_of_nat | right; lia].
  - (* integer *)
    unfold Mentions.mentionIndex, resolveByShape.
    destruct (byIndex_cases n) as [[-> ->] | [-> [-> Hr]]].
    + split; [reflexivity | now left].
    + split; [|right; lia].
      apply resolved_Some. lia.
  - split; [reflexivity | now left].
Qed.

Lemma memZ_In (x : Z) (l : list Z) : memZ x l = true <-> In x l.
Proof.
  unfold memZ. rewrite existsb_exists. split.
  - intros [y [Hin H]]. apply Z.eqb_eq in H. now subst.
  - intros H. exists x. split; [exact H | apply Z.eqb_refl].
Qed.

Lemma allowed_check (allowed : option (list Z)) (i : Z) :
  match allowed with None => true | Some a => memZ i a end = true
  <-> allowedOk allowed i.
Proof.
  destruct allowed as [a|]; simpl; [apply memZ_In | tauto].
Qed.

Section Selecting.
Variable hasBox : Z -> bool.
Variable allowed : option (list Z).
Hypothesis rendered :
  forall i, (0 <= i < Z.of_nat (length headlines))%Z -> hasBox i = true.

Local Abbreviation step :=
  (mentionStep urlWithoutQuery headlines hasBox allowed).

Lemma mentionStep_effect (st : Selection) (m : Mention) :
  NoDup (seen st) -> count st = length (seen st) ->
  NoDup (seen (step st m))
  /\ count (step st m) = length (seen (step st m))
  /\ (forall i, In i (seen (step st m)) <->
        In i (seen st)
        \/ (mIndex m = i /\ (0 <= i)%Z /\ allowedOk allowed i)).
Proof.
  intros Hnd Hc. unfold mentionStep.
  destruct (mentionIndex_resolves m) as [_ Hrange].
  set (idx := mIndex m) in *.
  destruct (0 <=? idx)%Z eqn:E0; cbn [andb].
  - apply Z.leb_le in E0.
    assert (Hbox : hasBox idx = true) by (apply rendered; lia).
    destruct (memZ idx (seen st)) eqn:Em; cbn [negb andb].
    + apply memZ_In in Em. repeat split; try assumption.
      * now left.
      * intros [H | [<- _]]; assumption.
    + destruct (match allowed with None => true | Some a => memZ idx a end) eqn:Ea.
      * apply allowed_check in Ea. rewrite Hbox. cbn [seen count].
        assert (Hnot : ~ In idx (seen st)).
        { intros H. apply memZ_In in H. congruence. }
        repeat split.
        -- apply NoDup_app; [exact Hnd | repeat constructor; intros [] |].
           intros x Hx [<- | []]. contradiction.
        -- rewrite length_app. simpl. lia.
        -- intros H. apply in_app_or in H. destruct H as [H | [<- | []]];
             [now left | right; auto].
        -- intros [H | [<- _]]; apply in_or_app; [now left | right; now left].
      * repeat split; try assumption; [now left|].
        intros [H | [<- [_ Hok]]]; [exact H|].
        apply allowed_check in Hok. congruence.
  - apply Z.leb_gt in E0. repeat split; try assumption; [now left|].
    intros [H | [<- [Hpos _]]]; [exact H | lia].
Qed.

Lemma select_effect (ms : list Mention) : forall st,
  NoDup (seen st) -> count st = length (seen st) ->
  NoDup (seen (fold_left step ms st))
  /\ count (fold_left step ms st) = length (seen (fold_left step ms st))
  /\ (forall i, In i (seen (fold_left step ms st)) <->
        In i (seen st)
        \/ (exists m, In m ms /\ mIndex m = i /\ (0 <= i)%Z
                      /\ allowedOk allowed i)).
Proof.
  induction ms as [|m r IH]; intros st Hnd Hc; simpl.
  - repeat split; try assumption; [now left|].
    intros [H | [m [[] _]]]. exact H.
  - destruct (mentionStep_effect st m Hnd Hc) as [Hnd' [Hc' Hin']].
    destruct (IH _ Hnd' Hc') as [Hnd2 [Hc2 Hin2]].
    repeat split; try assumption.
    + intros H. apply Hin2 in H. destruct H as [H | [m' [Hm' Hr]]].
      * apply Hin' in H. destruct H as [H | Hr]; [now left|].
        right. exists m. split; [now left | exact Hr].
      * right. exists m'. split; [now right | exact Hr].
    + intros H. apply Hin2. destruct H as [H | [m' [[<- | Hm'] Hr]]].
      * left. apply Hin'. now left.
      * left. apply Hin'. now right.
      * right. exists m'. now split.
Qed.

End Selecting.

(** C3, amended.  The index computed for a mention is its resolution by
    shape: for an object, the first of (a) URL, (b) in-range index, (c) exact
    title, (d) containment of a title of at least 8 characters, that
    succeeds; for a string that starts with http, rule (a) alone; for any
    other string, rule (c) alone; for an integer, rule (b).  When every
    headline position has a checkbox, the selection holds each index once,
    counts each once, and holds exactly the indices some mention resolves to
    that are within [allowedIdxs] when it is given; a mention that resolves
    to nothing leaves the selection as it is. *)
Theorem mentions_resolution :
  (forall m,
     resolved (mIndex m) = byShape m)
  /\ (forall hasBox allowed st m,
        byShape m = None ->
        mentionStep urlWithoutQuery headlines hasBox allowed st m = st)
  /\ (forall hasBox mentions allowed,
        (forall i, (0 <= i < Z.of_nat (length headlines))%Z -> hasBox i = true) ->
        let sel :=
          autoSelectByMentions urlWithoutQuery headlines hasBox mentions allowed in
        NoDup (seen sel)
        /\ count sel = length (seen sel)
        /\ (forall i, In i (seen sel) <->
              (exists m n, In m mentions /\ byShape m = Some n
                           /\ i = Z.of_nat n)
              /\ allowedOk allowed i)).
Proof.
  split; [intros m; apply mentionIndex_resolves|]. split.
  - intros hasBox allowed st m Hnone. unfold mentionStep.
    destruct (mentionIndex_resolves m) as [Hres _].
    rewrite Hnone in Hres. unfold resolved in Hres.
    destruct (mIndex m <? 0)%Z eqn:E; [|discriminate].
    apply Z.ltb_lt in E.
    assert (E0 : (0 <=? mIndex m)%Z = false) by (apply Z.leb_gt; lia).
    now rewrite E0.
  - intros hasBox mentions allowed Hbox sel.
    destruct (select_effect hasBox allowed Hbox mentions (mkSelection [] 0))
      as [Hnd [Hc Hin]]; [constructor | reflexivity |].
    fold (autoSelectByMentions urlWithoutQuery headlines hasBox mentions allowed)
      in Hnd, Hc, Hin.
    fold sel in Hnd, Hc, Hin.
    repeat split; try assumption.
    + apply Hin in H. destruct H as [[] | [m [Hm [Hi [Hpos _]]]]].
      exists m, (Z.to_nat i). split; [exact Hm|]. split; [|lia].
      rewrite <- (proj1 (mentionIndex_resolves m)), Hi.
      apply resolved_Some. lia.
    + apply Hin in H. now destruct H as [[] | [m [_ [_ [_ Hok]]]]].
    + intros [[m [n [Hm [Hs Hi]]]] Hok]. apply Hin. right.
      exists m. split; [exact Hm|].
      rewrite <- (proj1 (mentionIndex_resolves m)) in Hs.
      apply resolved_Some in Hs. repeat split; [lia | lia | exact Hok].
Qed.

End MentionFacts.

(** C3, as stated, fails for a bare title string: it is resolved by exact
    title match only.  The string "parliament votes" is contained in the
    headline title and has 16 characters, so rule (d) as stated resolves it
    to position 0, and the same title in an object mention is resolved so;
    the bare string selects nothing. *)
Lemma bare_title_not_contained :
  Mentions.mentionIndex (fun _ => None)
    [Scorer.mkHeadline (Some "Breaking: Parliament votes on budget") None None None]
    (Mentions.MString "parliament votes") = (-1)%Z
  /\ resolveAsClaimed (fun _ => None)
       [Scorer.mkHeadline (Some "Breaking: Parliament votes on budget") None None None]
       (Mentions.MString "parliament votes") = Some 0
  /\ Mentions.mentionIndex (fun _ => None)
       [Scorer.mkHeadline (Some "Breaking: Parliament votes on budget") None None None]
       (Mentions.MObject None None (Some "parliament votes")) = 0%Z
  /\ Mentions.autoSelectByMentions (fun _ => None)
       [Scorer.mkHeadline (Some "Breaking: Parliament votes on budget") None None None]
       (fun _ => true) [Mentions.MString "parliament votes"] None
     = Mentions.mkSelection [] 0.
Proof. repeat split; vm_compute; reflexivity. Qed.

Lemma mentions_resolution_witness :
  (forall i : Z, (0 <= i < Z.of_nat (length
      [Scorer.mkHeadline (Some "Breaking: Parliament votes on budget") None None
         (Some "http://x.com/a");
       Scorer.mkHeadline (Some "Markets rally") None None None]))%Z ->
     (fun _ : Z => true) i = true)
  /\ NoDup (Mentions.seen
       (Mentions.autoSelectByMentions (fun _ => None)
          [Scorer.mkHeadline (Some "Breaking: Parliament votes on budget") None None
             (Some "http://x.com/a");
           Scorer.mkHeadline (Some "Markets rally") None None None]
          (fun _ => true)
          [Mentions.MObject (Some "HTTP://x.com/a/") None None;
           Mentions.MString "markets rally"; Mentions.MInteger 0%Z;
           Mentions.MInteger 7%Z]
          None)).
Proof.
  split; [reflexivity|].
  exact (proj1 (proj2 (proj2 (mentions_resolution (fun _ => None)
     [Scorer.mkHeadline (Some "Breaking: Parliament votes on budget") None None
        (Some "http://x.com/a");
      Scorer.mkHeadline (Some "Markets rally") None None None]))
     (fun _ => true)
     [Mentions.MObject (Some "HTTP://x.com/a/") None None;
      Mentions.MString "markets rally"; Mentions.MInteger 0%Z;
      Mentions.MInteger 7%Z]
     None (fun _ _ => eq_refl))).
Defined.

(** ** Video candidate filters *)
Section VideoFacts.
Import JS Video.

Lemma optEqb_eq (a b : option string) : optEqb a b = true <-> a = b.
Proof.
  destruct a as [x|], b as [y|]; simpl; try (split; congruence).
  rewrite String.eqb_eq. split; congruence.
Qed.

Lemma optEqb_neq (a b : option string) : optEqb a b = false <-> a <> b.
Proof.
  rewrite <- optEqb_eq. destruct (optEqb a b); split; congruence.
Qed.

Lemma mapGet_Some (m : BestMap) (k : option string) (v : VideoCandidate) :
  mapGet m k = Some v -> In (k, v) m.
Proof.
  induction m as [|[k' v'] r IH]; simpl; [discriminate|].
  destruct (optEqb k' k) eqn:E.
  - apply optEqb_eq in E. intros [= ->]. left. now subst.
  - intros H. right. now apply IH.
Qed.

Lemma mapGet_None (m : BestMap) (k : option string) :
  mapGet m k = None -> ~ In k (map fst m).
Proof.
  induction m as [|[k' v'] r IH]; simpl; [tauto|].
  destruct (optEqb k' k) eqn:E; [discriminate|].
  apply optEqb_neq in E. intros H [Hk | Hk]; [contradiction | now apply IH].
Qed.

Lemma mapSet_new (m : BestMap) (k : option string) (v : VideoCandidate) :
  ~ In k (map fst m) -> mapSet m k v = m ++ [(k, v)].
Proof.
  induction m as [|[k' v'] r IH]; simpl; [reflexivity|].
  intros H. destruct (optEqb k' k) eqn:E.
  - apply optEqb_eq in E. tauto.
  - rewrite IH; [reflexivity | tauto].
Qed.

Lemma mapSet_keys (m : BestMap) (k : option string) (v : VideoCandidate) :
  In k (map fst m) -> map fst (mapSet m k v) = map fst m.
Proof.
  induction m as [|[k' v'] r IH]; simpl; [tauto|].
  intros H. destruct (optEqb k' k) eqn:E; simpl.
  - apply optEqb_eq in E. now subst.
  - apply optEqb_neq in E. rewrite IH; [reflexivity|].
    destruct H; [contradiction | assumption].
Qed.

Lemma mapGet_absent (m : BestMap) (k : option string) :
  ~ In k (map fst m) -> mapGet m k = None.
Proof.
  intros H. destruct (mapGet m k) as [v|] eqn:E; [|reflexivity].
  apply mapGet_Some in E. elim H.
  change k with (fst (k, v)). now apply in_map.
Qed.

Lemma mapGet_unique (m : BestMap) (k : option string) (w : VideoCandidate) :
  NoDup (map fst m) -> In (k, w) m -> mapGet m k = Some w.
Proof.
  induction m as [|[k0 v0] r IH]; simpl; intros Hnd Hin; [contradiction|].
  inversion Hnd as [|? ? Hk0 Hr]; subst.
  destruct Hin as [[= -> ->] | Hin].
  - assert (E : optEqb k k = true) by now apply optEqb_eq.
    now rewrite E.
  - destruct (optEqb k0 k) eqn:E.
    + apply optEqb_eq in E. subst k0. elim Hk0.
      change k with (fst (k, w)). now apply in_map.
    + now apply IH.
Qed.

Lemma mapSet_In (m : BestMap) (k : option string) (v : VideoCandidate) :
  NoDup (map fst m) ->
  forall k' w, In (k', w) (mapSet m k v) ->
               (k' = k /\ w = v) \/ (k' <> k /\ In (k', w) m).
Proof.
  induction m as [|[k0 v0] r IH]; simpl; intros Hnd k' w H.
  - destruct H as [[= <- <-] | []]. now left.
  - inversion Hnd as [|? ? Hk0 Hr]; subst.
    destruct (optEqb k0 k) eqn:E.
    + apply optEqb_eq in E. subst k0.
      destruct H as [[= <- <-] | H]; [now left|].
      right. split; [|now right].
      intros ->. elim Hk0. change k with (fst (k, w)). now apply in_map.
    + apply optEqb_neq in E. destruct H as [[= <- <-] | H].
      * right. split; [exact E | now left].
      * destruct (IH Hr k' w H) as [? | [Hne Hin]]; [now left|].
        right. split; [exact Hne | now right].
Qed.

Lemma Chosen_later (l : list VideoCandidate) (w v : VideoCandidate) :
  Chosen l w ->
  (pageKey v = pageKey w -> rank v <= rank w) ->
  Chosen (l ++ [v]) w.
Proof.
  intros [l1 [l2 [Hl [H1 H2]]]] Hv.
  exists l1, (l2 ++ [v]). split; [|split].
  - rewrite Hl, <- app_assoc. reflexivity.
  - exact H1.
  - intros u Hu Hk. apply in_app_or in Hu.
    destruct Hu as [Hu | [<- | []]]; [now apply H2 | now apply Hv].
Qed.

Lemma Chosen_rank (l : list VideoCandidate) (w u : VideoCandidate) :
  Chosen l w -> In u l -> pageKey u = pageKey w -> rank u <= rank w.
Proof.
  intros [l1 [l2 [Hl [H1 H2]]]] Hu Hk. subst l.
  apply in_app_or in Hu. destruct Hu as [Hu | [<- | Hu]].
  - specialize (H1 u Hu Hk). lia.
  - lia.
  - now apply H2.
Qed.

Lemma bestStep_inv (m : BestMap) (l : list VideoCandidate) (v : VideoCandidate) :
  bestInv m l -> bestInv (bestStep m v) (l ++ [v]).
Proof.
  intros [Hnd [Hent Hcov]]. unfold bestStep.
  destruct (mapGet m (pageKey v)) as [cur|] eqn:Eg.
  - (* the page has an entry *)
    pose proof (mapGet_Some _ _ _ Eg) as Hcur.
    destruct (Hent _ _ Hcur) as [Hkc Hchosen].
    assert (Hkey : In (pageKey v) (map fst m)).
    { change (pageKey v) with (fst (pageKey v, cur)). now apply in_map. }
    destruct (rank cur <? rank v) eqn:Er.
    + apply Nat.ltb_lt in Er. split; [|split].
      * now rewrite mapSet_keys.
      * intros k w Hin.
        destruct (mapSet_In m (pageKey v) v Hnd k w Hin)
          as [[-> ->] | [Hne Hold]].
        -- split; [reflexivity|].
           exists l, []. split; [reflexivity|]. split; [|intros u []].
           intros u Hu Hk.
           assert (rank u <= rank cur); [|lia].
           apply (Chosen_rank l cur u Hchosen Hu). congruence.
        -- destruct (Hent _ _ Hold) as [Hk Hc]. split; [exact Hk|].
           apply Chosen_later; [exact Hc|]. intros Hpk. congruence.
      * intros u Hu. rewrite mapSet_keys by exact Hkey.
        apply in_app_or in Hu. destruct Hu as [Hu | [<- | []]];
          [now apply Hcov | exact Hkey].
    + apply Nat.ltb_ge in Er. split; [exact Hnd|]. split.
      * intros k w Hin. destruct (Hent _ _ Hin) as [Hk Hc].
        split; [exact Hk|]. apply Chosen_later; [exact Hc|].
        intros Hpk.
        assert (Hw : mapGet m (pageKey v) = Some w).
        { apply mapGet_unique; [exact Hnd|]. now rewrite Hpk, <- Hk. }
        rewrite Eg in Hw. injection Hw as <-. exact Er.
      * intros u Hu. apply in_app_or in Hu.
        destruct Hu as [Hu | [<- | []]]; [now apply Hcov | exact Hkey].
  - (* first candidate of its page *)
    pose proof (mapGet_None _ _ Eg) as Hnew.
    rewrite (mapSet_new _ _ _ Hnew). split; [|split].
    + rewrite map_app. simpl. apply NoDup_app; [exact Hnd | |].
      * repeat constructor. intros [].
      * intros x Hx [<- | []]. contradiction.
    + intros k w Hin. apply in_app_or in Hin.
      destruct Hin as [Hin | [[= <- <-] | []]].
      * destruct (Hent _ _ Hin) as [Hk Hc]. split; [exact Hk|].
        apply Chosen_later; [exact Hc|]. intros Hpk.
        elim Hnew. rewrite Hpk, <- Hk.
        change k with (fst (k, w)). now apply in_map.
      * split; [reflexivity|].
        exists l, []. split; [reflexivity|]. split; [|intros u []].
        intros u Hu Hk. elim Hnew. rewrite <- Hk. now apply Hcov.
    + intros u Hu. rewrite map_app. apply in_or_app.
      apply in_app_or in Hu. destruct Hu as [Hu | [<- | []]];
        [left; now apply Hcov | right; now left].
Qed.

Lemma bestFold_inv (vs : list VideoCandidate) : forall m l,
  bestInv m l -> bestInv (fold_left bestStep vs m) (l ++ vs).
Proof.
  induction vs as [|v r IH]; intros m l H; simpl.
  - now rewrite app_nil_r.
  - replace (l ++ v :: r) with ((l ++ [v]) ++ r)
      by (rewrite <- app_assoc; reflexivity).
    apply IH. now apply bestStep_inv.
Qed.

(** Per page, [uniquePerPage] keeps one candidate: no two of the result share
    a page key, every page key of the input is kept, and the one kept is the
    first of highest rank. *)
Lemma uniquePerPage_spec (l : list VideoCandidate) :
  NoDup (map pageKey (uniquePerPage l))
  /\ (forall u, In u l ->
        exists w, In w (uniquePerPage l) /\ pageKey w = pageKey u)
  /\ (forall w, In w (uniquePerPage l) -> Chosen l w).
Proof.
  unfold uniquePerPage.
  assert (H : bestInv (fold_left bestStep l []) l).
  { apply (bestFold_inv l [] []). split; [constructor|].
    split; [intros k w [] | intros u []]. }
  destruct H as [Hnd [Hent Hcov]].
  set (m := fold_left bestStep l []) in *.
  assert (Hkeys : map pageKey (map snd m) = map fst m).
  { rewrite map_map. apply map_ext_in. intros [k w] Hin.
    simpl. symmetry. now apply Hent. }
  split; [now rewrite Hkeys|]. split.
  - intros u Hu. specialize (Hcov u Hu).
    apply in_map_iff in Hcov. destruct Hcov as [[k w] [Hk Hin]].
    simpl in Hk. subst k. exists w. split.
    + change w with (snd (pageKey u, w)). now apply in_map.
    + symmetry. now apply Hent.
  - intros w Hw. apply in_map_iff in Hw. destruct Hw as [[k w'] [Hs Hin]].
    simpl in Hs. subst w'. now apply (Hent k w).
Qed.

Lemma bestFold_distinct (vs : list VideoCandidate) : forall m,
  NoDup (map pageKey vs) ->
  (forall v, In v vs -> ~ In (pageKey v) (map fst m)) ->
  fold_left bestStep vs m = m ++ map (fun v => (pageKey v, v)) vs.
Proof.
  induction vs as [|v r IH]; intros m Hnd Hfresh; simpl.
  - now rewrite app_nil_r.
  - inversion Hnd as [|? ? Hv Hr]; subst.
    assert (Hnew : ~ In (pageKey v) (map fst m)) by (apply Hfresh; now left).
    unfold bestStep at 2. rewrite (mapGet_absent _ _ Hnew), (mapSet_new _ _ _ Hnew).
    rewrite IH; [now rewrite <- app_assoc | exact Hr |].
    intros u Hu. rewrite map_app. simpl. intros Hin.
    apply in_app_or in Hin. destruct Hin as [Hin | [Heq | []]].
    + apply (Hfresh u); [now right | exact Hin].
    + apply Hv. rewrite Heq. now apply in_map.
Qed.

(** A list with one candidate per page is left as it is. *)
Lemma uniquePerPage_fixed (l : list VideoCandidate) :
  NoDup (map pageKey l) -> uniquePerPage l = l.
Proof.
  intros H. unfold uniquePerPage.
  rewrite (bestFold_distinct l [] H) by (intros v _ []).
  simpl. rewrite map_map. simpl. apply map_id.
Qed.

Lemma Chosen_In (l : list VideoCandidate) (w : VideoCandidate) :
  Chosen l w -> In w l.
Proof.
  intros [l1 [l2 [-> _]]]. apply in_or_app. right. now left.
Qed.

(** The key of the map [best] is the group of the candidate. *)
Lemma pageKey_groupOf (v : VideoCandidate) (k : option string) :
  pageKey v = k <-> groupOf v k.
Proof.
  unfold pageKey. split.
  - intros <-. destruct (pageUrl v) as [[|a r]|] eqn:E.
    + apply groupSource. now right.
    + apply (groupPage v (String a r) E). discriminate.
    + apply groupSource. now left.
  - intros H. destruct H as [p Hp Hne | [Hp | Hp]]; rewrite Hp.
    + destruct p; [now elim Hne | reflexivity].
    + reflexivity.
    + reflexivity.
Qed.

Lemma sameGroup_pageKey (u w : VideoCandidate) :
  sameGroup u w <-> pageKey u = pageKey w.
Proof.
  split.
  - intros [k [Hu Hw]].
    apply pageKey_groupOf in Hu. apply pageKey_groupOf in Hw. congruence.
  - intros H. exists (pageKey u). split; apply pageKey_groupOf; congruence.
Qed.

Lemma Chosen_firstBest (l : list VideoCandidate) (w : VideoCandidate) :
  Chosen l w -> firstBest l w.
Proof.
  intros [l1 [l2 [Hl [H1 H2]]]]. exists l1, l2. split; [exact Hl|].
  split; intros u Hu Hg; [apply H1 | apply H2]; try exact Hu;
    now apply sameGroup_pageKey.
Qed.

(** In a list without two equal keys, a key is found at one position. *)
Lemma NoDup_keys_position (l : list VideoCandidate) :
  NoDup (map pageKey l) ->
  forall i j w1 w2,
    nth_error l i = Some w1 -> nth_error l j = Some w2 ->
    pageKey w1 = pageKey w2 -> i = j.
Proof.
  intros Hnd i j w1 w2 Hi Hj Hk.
  apply (proj1 (NoDup_nth_error (map pageKey l)) Hnd).
  - rewrite length_map. apply nth_error_Some. congruence.
  - rewrite !nth_error_map, Hi, Hj. simpl. now f_equal.
Qed.

Lemma filter_fixed {X : Type} (f : X -> bool) (l : list X) :
  (forall x, In x l -> f x = true) -> filter f l = l.
Proof.
  induction l as [|x r IH]; intros H; simpl; [reflexivity|].
  rewrite (H x (or_introl eq_refl)). f_equal. apply IH.
  intros y Hy. apply H. now right.
Qed.

(** An optional stage [if b then filter f l else l]. *)
Lemma stage_In {X : Type} (b : bool) (f : X -> bool) (l : list X) (x : X) :
  In x (if b then filter f l else l) -> In x l /\ (b = true -> f x = true).
Proof.
  destruct b.
  - intros H. apply filter_In in H. tauto.
  - intros H. split; [exact H | discriminate].
Qed.

Lemma stage_fixed {X : Type} (b : bool) (f : X -> bool) (l : list X) :
  (forall x, In x l -> b = true -> f x = true) ->
  (if b then filter f l else l) = l.
Proof.
  destruct b; [|reflexivity]. intros H. apply filter_fixed. auto.
Qed.

Section Pipeline.
Variable hostname : option string -> string.
Variable localeCompare : string -> string -> Z.

Local Abbreviation filterStages := (Video.filterStages hostname).
Local Abbreviation applyVideoFilters :=
  (Video.applyVideoFilters hostname localeCompare).

(** The four filters keep a candidate of their own output. *)
Lemma filterStages_fixed (c : Controls) (all l : list VideoCandidate) :
  (forall v, In v l -> In v (filterStages c all)) ->
  filterStages c l = l.
Proof.
  intros Hsub. unfold Video.filterStages in *.
  set (b1 := negb (String.eqb (vidType c) "all")) in *.
  set (f1 := typeFilter (vidType c)) in *.
  set (b3 := truthy (trim (toLowerCase (vidSearch c)))) in *.
  set (f3 := keywordFilter hostname (trim (toLowerCase (vidSearch c)))) in *.
  set (f4 := fun v => existsb (optEqb (pageUrl v)) (selectedHeadlineUrls c)) in *.
  assert (Hall : forall v, In v l ->
            (b1 = true -> f1 v = true)
            /\ (vidPlayableOnly c = true -> playable v = true)
            /\ (b3 = true -> f3 v = true)
            /\ (vidFromSelectedOnly c = true -> f4 v = true)).
  { intros v Hv. specialize (Hsub v Hv).
    apply stage_In in Hsub. destruct Hsub as [Hsub H4].
    apply stage_In in Hsub. destruct Hsub as [Hsub H3].
    apply stage_In in Hsub. destruct Hsub as [Hsub H2].
    apply stage_In in Hsub. destruct Hsub as [_ H1]. auto. }
  rewrite (stage_fixed b1 f1 l) by (intros x Hx; now apply Hall).
  rewrite (stage_fixed (vidPlayableOnly c) playable l)
    by (intros x Hx; now apply Hall).
  rewrite (stage_fixed b3 f3 l) by (intros x Hx; now apply Hall).
  apply stage_fixed. intros x Hx. now apply Hall.
Qed.

Lemma applyVideoFilters_perm (c : Controls) (all : list VideoCandidate) :
  Permutation (applyVideoFilters c all)
    (if vidUniquePerPage c then uniquePerPage (filterStages c all)
     else filterStages c all).
Proof. unfold Video.applyVideoFilters. apply sort_perm. Qed.

(** C8. With per-page dedup on, the result holds one candidate per group of
    the candidates that pass the filters, the group of a candidate being its
    [pageUrl] when that is a non-empty string and its [srcUrl] otherwise: the
    key the code computes is that group, no two positions of the result hold
    candidates of one group, every group that passes is represented, and the
    one kept is the first of highest rank among those of its group, the ranks
    being 3 for platform and direct, 2 for stream and 1 for embed.  In
    particular three candidates of one page, of types mp4, embed and youtube
    in that order, leave the mp4 candidate alone; and candidates of two pages
    and of one source address without a page leave one candidate each. *)
Theorem unique_per_page :
  (forall v k, pageKey v = k <-> groupOf v k)
  /\ (forall v, rank v = match videoTypeBucket v with
                         | platform => 3 | direct => 3 | stream => 2 | embed => 1
                         end)
  /\ (forall c all,
        vidUniquePerPage c = true ->
        let kept := filterStages c all in
        let out := applyVideoFilters c all in
        (forall i j w1 w2,
            nth_error out i = Some w1 -> nth_error out j = Some w2 ->
            sameGroup w1 w2 -> i = j)
        /\ (forall u, In u kept -> exists w, In w out /\ sameGroup w u)
        /\ (forall w, In w out -> firstBest kept w))
  /\ (forall P t1 s1 t2 s2 t3 s3,
        truthy P = true ->
        applyVideoFilters (mkControls false true false "all" "" [])
          [mkVideo t1 s1 (Some P) (Some "mp4");
           mkVideo t2 s2 (Some P) (Some "embed");
           mkVideo t3 s3 (Some P) (Some "youtube")]
        = [mkVideo t1 s1 (Some P) (Some "mp4")])
  /\ (forall P Q S t s1 s3 s4 s6,
        truthy P = true -> truthy Q = true ->
        String.eqb P Q = false -> String.eqb P S = false ->
        String.eqb Q S = false ->
        Permutation
          (applyVideoFilters (mkControls false true false "all" "" [])
             [mkVideo t s1 (Some P) (Some "embed");
              mkVideo t (Some S) None (Some "m3u8");
              mkVideo t s3 (Some Q) (Some "mp4");
              mkVideo t s4 (Some P) (Some "youtube");
              mkVideo t (Some S) (Some "") (Some "webm");
              mkVideo t s6 (Some Q) (Some "vimeo")])
          [mkVideo t s4 (Some P) (Some "youtube");
           mkVideo t (Some S) (Some "") (Some "webm");
           mkVideo t s3 (Some Q) (Some "mp4")]).
Proof.
  split; [exact pageKey_groupOf|].
  split; [reflexivity|]. split; [|split].
  - intros c all Hu kept out.
    pose proof (applyVideoFilters_perm c all) as Hperm.
    rewrite Hu in Hperm. fold kept out in Hperm.
    destruct (uniquePerPage_spec kept) as [Hnd [Hcov Hch]].
    assert (Hnd' : NoDup (map pageKey out)).
    { apply (Permutation_NoDup (l := map pageKey (uniquePerPage kept)));
        [|exact Hnd].
      apply Permutation_map, Permutation_sym, Hperm. }
    split; [|split].
    + intros i j w1 w2 Hi Hj Hg.
      apply (NoDup_keys_position out Hnd' i j w1 w2 Hi Hj).
      now apply sameGroup_pageKey.
    + intros u Hin. destruct (Hcov u Hin) as [w [Hw Hk]].
      exists w. split; [|now apply sameGroup_pageKey].
      apply (Permutation_in _ (Permutation_sym Hperm)), Hw.
    + intros w Hw. apply Chosen_firstBest, Hch.
      apply (Permutation_in _ Hperm), Hw.
  - intros P t1 s1 t2 s2 t3 s3 HP.
    unfold Video.applyVideoFilters, Video.filterStages.
    cbn [vidType vidSearch vidPlayableOnly vidFromSelectedOnly vidUniquePerPage].
    change (negb (String.eqb "all" "all")) with false.
    change (truthy (trim (toLowerCase ""))) with false. cbn iota.
    assert (Hk : forall t s ty, pageKey (mkVideo t s (Some P) ty) = Some P).
    { intros. unfold pageKey. simpl. now rewrite HP. }
    unfold uniquePerPage. cbn [fold_left]. unfold bestStep.
    rewrite !Hk. cbn [mapGet mapSet].
    assert (Hrefl : optEqb (Some P) (Some P) = true) by now apply optEqb_eq.
    rewrite Hrefl.
    change (rank (mkVideo t1 s1 (Some P) (Some "mp4"))) with 3.
    change (rank (mkVideo t2 s2 (Some P) (Some "embed"))) with 1.
    change (rank (mkVideo t3 s3 (Some P) (Some "youtube"))) with 3.
    cbn [Nat.ltb Nat.leb]. cbn [mapGet]. rewrite Hrefl.
    reflexivity.
  - intros P Q S t s1 s3 s4 s6 HP HQ HPQ HPS HQS.
    eapply Permutation_trans; [apply applyVideoFilters_perm|].
    cbn [vidUniquePerPage].
    unfold Video.filterStages.
    cbn [vidType vidSearch vidPlayableOnly vidFromSelectedOnly].
    change (negb (String.eqb "all" "all")) with false.
    change (truthy (trim (toLowerCase ""))) with false. cbn iota.
    assert (HkP : forall s ty, pageKey (mkVideo t s (Some P) ty) = Some P).
    { intros. unfold pageKey. simpl. now rewrite HP. }
    assert (HkQ : forall s ty, pageKey (mkVideo t s (Some Q) ty) = Some Q).
    { intros. unfold pageKey. simpl. now rewrite HQ. }
    assert (HkS : forall ty, pageKey (mkVideo t (Some S) None ty) = Some S)
      by reflexivity.
    assert (HkS' : forall ty,
               pageKey (mkVideo t (Some S) (Some "") ty) = Some S)
      by reflexivity.
    assert (HQP : String.eqb Q P = false) by now rewrite String.eqb_sym.
    assert (HSP : String.eqb S P = false) by now rewrite String.eqb_sym.
    assert (HSQ : String.eqb S Q = false) by now rewrite String.eqb_sym.
    pose proof (String.eqb_refl P) as HPP.
    pose proof (String.eqb_refl Q) as HQQ.
    pose proof (String.eqb_refl S) as HSS.
    assert (Hgoal :
      uniquePerPage
        [mkVideo t s1 (Some P) (Some "embed");
         mkVideo t (Some S) None (Some "m3u8");
         mkVideo t s3 (Some Q) (Some "mp4");
         mkVideo t s4 (Some P) (Some "youtube");
         mkVideo t (Some S) (Some "") (Some "webm");
         mkVideo t s6 (Some Q) (Some "vimeo")]
      = [mkVideo t s4 (Some P) (Some "youtube");
         mkVideo t (Some S) (Some "") (Some "webm");
         mkVideo t s3 (Some Q) (Some "mp4")]).
    { assert (Hr1 : forall s p, rank (mkVideo t s p (Some "embed")) = 1)
        by reflexivity.
      assert (Hr2 : forall s p, rank (mkVideo t s p (Some "m3u8")) = 2)
        by reflexivity.
      assert (Hr3 : forall s p, rank (mkVideo t s p (Some "mp4")) = 3)
        by reflexivity.
      assert (Hr4 : forall s p, rank (mkVideo t s p (Some "youtube")) = 3)
        by reflexivity.
      assert (Hr5 : forall s p, rank (mkVideo t s p (Some "webm")) = 3)
        by reflexivity.
      assert (Hr6 : forall s p, rank (mkVideo t s p (Some "vimeo")) = 3)
        by reflexivity.
      unfold uniquePerPage. cbn [fold_left]. unfold bestStep.
      rewrite !HkP, !HkQ, !HkS, !HkS'.
      repeat (cbn [mapGet mapSet optEqb Nat.ltb Nat.leb map snd];
              rewrite ?HPP, ?HQQ, ?HSS, ?HPQ, ?HPS, ?HQS, ?HQP, ?HSP, ?HSQ,
                ?Hr1, ?Hr2, ?Hr3, ?Hr4, ?Hr5, ?Hr6).
      reflexivity. }
    rewrite Hgoal. apply Permutation_refl.
Qed.

Hypothesis localeCompare_total :
  forall a b, (0 < localeCompare a b)%Z -> (localeCompare b a <= 0)%Z.

(** C9. Applying the filters, under the same controls, to their own output
    gives that output back. *)
Theorem applyVideoFilters_idempotent :
  forall c all,
    applyVideoFilters c (applyVideoFilters c all) = applyVideoFilters c all.
Proof.
  intros c all.
  pose proof (applyVideoFilters_perm c all) as Hperm.
  set (out := applyVideoFilters c all) in *.
  assert (Hsub : forall v, In v out -> In v (filterStages c all)).
  { intros v Hv. apply (Permutation_in _ Hperm) in Hv.
    destruct (vidUniquePerPage c); [|exact Hv].
    apply (Chosen_In (filterStages c all)).
    now apply uniquePerPage_spec. }
  unfold Video.applyVideoFilters at 1.
  rewrite (filterStages_fixed c all out Hsub).
  assert (Hdedup : (if vidUniquePerPage c then uniquePerPage out else out) = out).
  { destruct (vidUniquePerPage c); [|reflexivity].
    apply uniquePerPage_fixed.
    apply (Permutation_NoDup
             (l := map pageKey (uniquePerPage (filterStages c all)))).
    - apply Permutation_map, Permutation_sym, Hperm.
    - apply uniquePerPage_spec. }
  rewrite Hdedup. unfold out, Video.applyVideoFilters.
  apply sort_idempotent.
  intros a b. unfold bySortKey. apply localeCompare_total.
Qed.

End Pipeline.

End VideoFacts.

Lemma codeUnitCompare_total (a b : string) :
  (0 < codeUnitCompare a b)%Z -> (codeUnitCompare b a <= 0)%Z.
Proof.
  unfold codeUnitCompare. rewrite (String.compare_antisym b a).
  destruct (String.compare a b); simpl; lia.
Qed.

Lemma unique_per_page_witness :
  (JS.truthy "https://news.example/story" = true
   /\ Video.applyVideoFilters hostBetweenSlashes codeUnitCompare
        (Video.mkControls false true false "all" "" [])
        [Video.mkVideo (Some "Clip") (Some "https://cdn.example/a.mp4")
                       (Some "https://news.example/story") (Some "mp4");
         Video.mkVideo (Some "Player") (Some "https://player.example/e/1")
                       (Some "https://news.example/story") (Some "embed");
         Video.mkVideo (Some "Clip") (Some "https://youtube.com/watch?v=1")
                       (Some "https://news.example/story") (Some "youtube")]
      = [Video.mkVideo (Some "Clip") (Some "https://cdn.example/a.mp4")
                       (Some "https://news.example/story") (Some "mp4")])
  /\ ((JS.truthy "https://news.example/one" = true
       /\ JS.truthy "https://news.example/two" = true
       /\ String.eqb "https://news.example/one" "https://news.example/two"
          = false
       /\ String.eqb "https://news.example/one" "https://cdn.example/live"
          = false
       /\ String.eqb "https://news.example/two" "https://cdn.example/live"
          = false)
      /\ Permutation
           (Video.applyVideoFilters hostBetweenSlashes codeUnitCompare
              (Video.mkControls false true false "all" "" [])
              [Video.mkVideo (Some "Clip") (Some "https://player.example/e/1")
                             (Some "https://news.example/one") (Some "embed");
               Video.mkVideo (Some "Clip") (Some "https://cdn.example/live")
                             None (Some "m3u8");
               Video.mkVideo (Some "Clip") (Some "https://cdn.example/b.mp4")
                             (Some "https://news.example/two") (Some "mp4");
               Video.mkVideo (Some "Clip") (Some "https://youtube.com/watch?v=1")
                             (Some "https://news.example/one") (Some "youtube");
               Video.mkVideo (Some "Clip") (Some "https://cdn.example/live")
                             (Some "") (Some "webm");
               Video.mkVideo (Some "Clip") (Some "https://vimeo.com/2")
                             (Some "https://news.example/two") (Some "vimeo")])
           [Video.mkVideo (Some "Clip") (Some "https://youtube.com/watch?v=1")
                          (Some "https://news.example/one") (Some "youtube");
            Video.mkVideo (Some "Clip") (Some "https://cdn.example/live")
                          (Some "") (Some "webm");
            Video.mkVideo (Some "Clip") (Some "https://cdn.example/b.mp4")
                          (Some "https://news.example/two") (Some "mp4")]).
Proof.
  split.
  - split; [reflexivity|].
    exact (proj1 (proj2 (proj2 (proj2
             (unique_per_page hostBetweenSlashes codeUnitCompare))))
             "https://news.example/story"
             (Some "Clip") (Some "https://cdn.example/a.mp4")
             (Some "Player") (Some "https://player.example/e/1")
             (Some "Clip") (Some "https://youtube.com/watch?v=1") eq_refl).
  - split; [repeat split|].
    exact (proj2 (proj2 (proj2 (proj2
             (unique_per_page hostBetweenSlashes codeUnitCompare))))
             "https://news.example/one" "https://news.example/two"
             "https://cdn.example/live" (Some "Clip")
             (Some "https://player.example/e/1")
             (Some "https://cdn.example/b.mp4")
             (Some "https://youtube.com/watch?v=1")
             (Some "https://vimeo.com/2")
             eq_refl eq_refl eq_refl eq_refl eq_refl).
Defined.

Lemma applyVideoFilters_idempotent_witness :
  (forall a b, (0 < codeUnitCompare a b)%Z -> (codeUnitCompare b a <= 0)%Z)
  /\ Video.applyVideoFilters hostBetweenSlashes codeUnitCompare
       (Video.mkControls true true false "all" "example" [])
       (Video.applyVideoFilters hostBetweenSlashes codeUnitCompare
          (Video.mkControls true true false "all" "example" [])
          [Video.mkVideo (Some "Zebra") (Some "https://cdn.example/z.m3u8")
                         (Some "https://news.example/one") (Some "m3u8");
           Video.mkVideo (Some "Alpha") (Some "https://cdn.example/a.mp4")
                         (Some "https://news.example/one") (Some "mp4");
           Video.mkVideo (Some "Beta") (Some "https://player.other/e/1")
                         (Some "https://news.example/two") (Some "embed");
           Video.mkVideo (Some "Gamma") (Some "https://youtube.com/watch?v=1")
                         (Some "https://news.example/two") (Some "YouTube")])
     = Video.applyVideoFilters hostBetweenSlashes codeUnitCompare
         (Video.mkControls true true false "all" "example" [])
         [Video.mkVideo (Some "Zebra") (Some "https://cdn.example/z.m3u8")
                        (Some "https://news.example/one") (Some "m3u8");
          Video.mkVideo (Some "Alpha") (Some "https://cdn.example/a.mp4")
                        (Some "https://news.example/one") (Some "mp4");
          Video.mkVideo (Some "Beta") (Some "https://player.other/e/1")
                        (Some "https://news.example/two") (Some "embed");
          Video.mkVideo (Some "Gamma") (Some "https://youtube.com/watch?v=1")
                        (Some "https://news.example/two") (Some "YouTube")].
Proof.
  split; [exact codeUnitCompare_total|].
  exact (applyVideoFilters_idempotent hostBetweenSlashes codeUnitCompare
           codeUnitCompare_total _ _).
Defined.

(** ** Strings and text normalisation *)
Section TextFacts.
Import JS Text.

Lemma lowerChar_idem (c : ascii) : lowerChar (lowerChar c) = lowerChar c.
Proof.
  destruct c as [b0 b1 b2 b3 b4 b5 b6 b7].
  destruct b0, b1, b2, b3, b4, b5, b6, b7; reflexivity.
Qed.

Lemma toLowerCase_idem (s : string) : toLowerCase (toLowerCase s) = toLowerCase s.
Proof.
  induction s as [|c r IH]; simpl; [reflexivity|].
  now rewrite lowerChar_idem, IH.
Qed.

Lemma isSpace_not_alnum (c : ascii) : isSpace c = true -> isAlnum c = false.
Proof.
  destruct c as [b0 b1 b2 b3 b4 b5 b6 b7].
  destruct b0, b1, b2, b3, b4, b5, b6, b7; simpl; intros H;
    try discriminate; reflexivity.
Qed.

Lemma alnum_lower (c : ascii) : isAlnum c = true -> lowerChar c = c.
Proof.
  destruct c as [b0 b1 b2 b3 b4 b5 b6 b7].
  destruct b0, b1, b2, b3, b4, b5, b6, b7; simpl; intros H;
    try discriminate; reflexivity.
Qed.

Lemma space_eqb (c : ascii) : Ascii.eqb c " "%char = true -> c = " "%char.
Proof. apply Ascii.eqb_eq. Qed.

Lemma allChars_weaken (P Q : ascii -> bool) (s : string) :
  (forall c, P c = true -> Q c = true) ->
  allChars P s = true -> allChars Q s = true.
Proof.
  intros H. induction s as [|c r IH]; simpl; [reflexivity|].
  intros Hs. apply andb_true_iff in Hs. destruct Hs as [Hc Hr].
  now rewrite (H c Hc), IH.
Qed.

Lemma spaced_weaken (s : string) : spaced true s = true -> spaced false s = true.
Proof.
  destruct s as [|c r]; simpl; [reflexivity|].
  destruct (Ascii.eqb c " "); [discriminate | tauto].
Qed.

Lemma spaced_chars (b : bool) (s : string) :
  spaced b s = true -> allChars normChar s = true.
Proof.
  revert b. induction s as [|c r IH]; intros b; simpl; [reflexivity|].
  unfold normChar at 1.
  destruct (Ascii.eqb c " ") eqn:E; intros H;
    apply andb_true_iff in H; destruct H as [H1 H2].
  - rewrite orb_true_r. simpl. now apply (IH true).
  - rewrite H1. simpl. now apply (IH false).
Qed.

(** The passes of [normalizeText], one by one. *)
Lemma blankNonAlnum_chars (s : string) :
  allChars (fun c => isAlnum c || isSpace c) (blankNonAlnum s) = true.
Proof.
  induction s as [|c r IH]; simpl; [reflexivity|].
  rewrite IH, andb_true_r. unfold isAlnum.
  destruct (isLower c || isDigit c || isSpace c) eqn:E.
  - now rewrite <- orb_assoc in E |- *.
  - reflexivity.
Qed.

Lemma collapse_spaced (s : string) : forall b,
  allChars (fun c => isAlnum c || isSpace c) s = true ->
  spaced b (collapseFrom b s) = true.
Proof.
  induction s as [|c r IH]; intros b; simpl; [reflexivity|].
  intros H. apply andb_true_iff in H. destruct H as [Hc Hr].
  destruct (isSpace c) eqn:Es.
  - destruct b; [now apply IH|].
    simpl. now apply IH.
  - rewrite orb_false_r in Hc. simpl.
    destruct (Ascii.eqb c " ") eqn:E.
    + apply space_eqb in E. subst c. discriminate.
    + rewrite Hc. simpl. now apply IH.
Qed.

Lemma spaced_head (b : bool) (c : ascii) (r : string) :
  spaced b (String c r) = true -> isSpace c = true -> c = " "%char.
Proof.
  simpl. destruct (Ascii.eqb c " ") eqn:E; [intros _ _; now apply space_eqb|].
  intros H Hs. apply andb_true_iff in H. destruct H as [H _].
  rewrite (isSpace_not_alnum c Hs) in H. discriminate.
Qed.

Lemma spaced_true_start (s : string) :
  spaced true s = true -> startsSpace s = false.
Proof.
  destruct s as [|c r]; simpl; [reflexivity|].
  destruct (Ascii.eqb c " ") eqn:E; [discriminate|].
  intros H. apply andb_true_iff in H. destruct H as [H _].
  destruct (isSpace c) eqn:Es; [|reflexivity].
  rewrite (isSpace_not_alnum c Es) in H. discriminate.
Qed.

Lemma trimStart_fixed (s : string) : startsSpace s = false -> trimStart s = s.
Proof. destruct s as [|c r]; simpl; [reflexivity | now intros ->]. Qed.

Lemma trimStart_start (s : string) : startsSpace (trimStart s) = false.
Proof.
  induction s as [|c r IH]; simpl; [reflexivity|].
  destruct (isSpace c) eqn:E; [exact IH | simpl; exact E].
Qed.

Lemma trimStart_spaced (s : string) :
  spaced false s = true -> spaced true (trimStart s) = true.
Proof.
  destruct s as [|c r]; [reflexivity|]. intros H.
  cbn [trimStart]. destruct (isSpace c) eqn:Es.
  - pose proof (spaced_head _ _ _ H Es) as ->. simpl in H.
    rewrite (trimStart_fixed r (spaced_true_start r H)). exact H.
  - simpl in H |- *. destruct (Ascii.eqb c " ") eqn:E; [|exact H].
    apply space_eqb in E. subst c. discriminate.
Qed.

Lemma trimEnd_spaced (s : string) : forall b,
  spaced b s = true -> spaced b (trimEnd s) = true.
Proof.
  induction s as [|c r IH]; intros b; simpl; [reflexivity|].
  destruct (isSpace c && isEmpty (trimEnd r)); [reflexivity|].
  simpl. destruct (Ascii.eqb c " "); intros H;
    apply andb_true_iff in H; destruct H as [H1 H2]; rewrite H1; simpl;
    now apply IH.
Qed.

Lemma trimEnd_end (s : string) : endsSpace (trimEnd s) = false.
Proof.
  induction s as [|c r IH]; simpl; [reflexivity|].
  destruct (isSpace c) eqn:Es; simpl.
  - destruct (trimEnd r) as [|c' r'] eqn:E; simpl; [reflexivity | exact IH].
  - destruct (trimEnd r) as [|c' r'] eqn:E; simpl; [exact Es | exact IH].
Qed.

Lemma trimEnd_fixed (s : string) : endsSpace s = false -> trimEnd s = s.
Proof.
  induction s as [|c r IH]; [reflexivity|].
  intros H. cbn [trimEnd]. destruct r as [|c' r'].
  - simpl in H |- *. now rewrite H.
  - assert (Hr : endsSpace (String c' r') = false) by exact H.
    rewrite (IH Hr). simpl. now rewrite andb_false_r.
Qed.

Lemma trimEnd_start (s : string) :
  startsSpace s = false -> startsSpace (trimEnd s) = false.
Proof.
  destruct s as [|c r]; simpl; [reflexivity|].
  intros H. rewrite H. simpl. exact H.
Qed.

Lemma trim_idem (s : string) : trim (trim s) = trim s.
Proof.
  unfold trim.
  rewrite (trimStart_fixed (trimEnd (trimStart s)))
    by (apply trimEnd_start, trimStart_start).
  apply trimEnd_fixed, trimEnd_end.
Qed.

Lemma trim_fixed (s : string) :
  startsSpace s = false -> endsSpace s = false -> trim s = s.
Proof.
  intros H1 H2. unfold trim. rewrite (trimStart_fixed s H1).
  now apply trimEnd_fixed.
Qed.

Lemma normalizeText_spaced (s : string) :
  spaced true (normalizeText s) = true
  /\ endsSpace (normalizeText s) = false.
Proof.
  unfold normalizeText, trim, collapseSpaces. split; [|apply trimEnd_end].
  apply trimEnd_spaced, trimStart_spaced, collapse_spaced, blankNonAlnum_chars.
Qed.

Lemma spaced_no_prefix_run (s : string) (b : bool) :
  spaced b s = true -> String.prefix "  " s = false.
Proof.
  intros H. destruct (String.prefix "  " s) eqn:E; [|reflexivity].
  apply prefix_IsPrefix in E. destruct E as [r ->].
  destruct b; simpl in H; discriminate.
Qed.

Lemma spaced_tail (b : bool) (c : ascii) (r : string) :
  spaced b (String c r) = true -> exists b', spaced b' r = true.
Proof.
  simpl. destruct (Ascii.eqb c " "); intros H;
    apply andb_true_iff in H; destruct H as [_ H]; eauto.
Qed.

Lemma spaced_no_run (s : string) : forall b,
  spaced b s = true -> includes s "  " = false.
Proof.
  induction s as [|c r IH]; intros b H; [reflexivity|].
  cbn [includes]. rewrite (spaced_no_prefix_run _ b H).
  destruct (spaced_tail b c r H) as [b' H']. now apply (IH b').
Qed.

Lemma spaced_toLowerCase (s : string) :
  allChars normChar s = true -> toLowerCase s = s.
Proof.
  induction s as [|c r IH]; simpl; [reflexivity|].
  intros H. apply andb_true_iff in H. destruct H as [Hc Hr].
  rewrite (IH Hr). f_equal. unfold normChar in Hc.
  apply orb_true_iff in Hc. destruct Hc as [Hc | Hc].
  - now apply alnum_lower.
  - apply space_eqb in Hc. now subst.
Qed.

Lemma spaced_blank (s : string) :
  allChars normChar s = true -> blankNonAlnum s = s.
Proof.
  induction s as [|c r IH]; simpl; [reflexivity|].
  intros H. apply andb_true_iff in H. destruct H as [Hc Hr].
  rewrite (IH Hr). f_equal. unfold normChar, isAlnum in Hc.
  apply orb_true_iff in Hc. destruct Hc as [Hc | Hc].
  - now rewrite Hc.
  - apply space_eqb in Hc. now subst.
Qed.

Lemma spaced_collapse (s : string) : forall b,
  spaced b s = true -> collapseFrom b s = s.
Proof.
  induction s as [|c r IH]; intros b; simpl; [reflexivity|].
  destruct (Ascii.eqb c " ") eqn:E; intros H;
    apply andb_true_iff in H; destruct H as [H1 H2].
  - apply space_eqb in E. subst c. simpl.
    destruct b; [discriminate|]. now rewrite (IH true H2).
  - destruct (isSpace c) eqn:Es.
    + rewrite (isSpace_not_alnum c Es) in H1. discriminate.
    + now rewrite (IH false H2).
Qed.

(** X1. Normalized text holds only lowercase letters, digits and spaces,
    never two spaces in a row, and no white space at either end. *)
Theorem normalizeText_shape :
  forall s,
    allChars normChar (normalizeText s) = true
    /\ includes (normalizeText s) "  " = false
    /\ startsSpace (normalizeText s) = false
    /\ endsSpace (normalizeText s) = false.
Proof.
  intros s. destruct (normalizeText_spaced s) as [H1 H2].
  repeat split.
  - now apply (spaced_chars true).
  - now apply (spaced_no_run _ true).
  - now apply spaced_true_start.
  - exact H2.
Qed.

(** X2. Normalizing is idempotent: normalized text is left as it is. *)
Theorem normalizeText_idempotent :
  forall s, normalizeText (normalizeText s) = normalizeText s.
Proof.
  intros s. destruct (normalizeText_spaced s) as [H1 H2].
  set (n := normalizeText s) in *.
  unfold normalizeText at 1, collapseSpaces.
  rewrite (spaced_toLowerCase n (spaced_chars true n H1)).
  rewrite (spaced_blank n (spaced_chars true n H1)).
  rewrite (spaced_collapse n false (spaced_weaken n H1)).
  apply trim_fixed; [now apply spaced_true_start | exact H2].
Qed.

Lemma split_space_alnum (s : string) : forall b,
  spaced b s = true -> Forall (fun w => allChars isAlnum w = true) (split_space s).
Proof.
  induction s as [|c r IH]; intros b; simpl.
  - intros _. repeat constructor.
  - destruct (Ascii.eqb c " ") eqn:E; intros H;
      apply andb_true_iff in H; destruct H as [H1 H2].
    + constructor; [reflexivity | now apply (IH true)].
    + specialize (IH false H2).
      destruct (split_space r) as [|w ws]; constructor.
      * simpl. now rewrite H1.
      * constructor.
      * inversion IH; subst. simpl. now rewrite H1.
      * now inversion IH.
Qed.

Lemma informative_clean (t : string) :
  allChars isAlnum t = true -> informative t = true -> cleanToken t.
Proof.
  unfold informative, cleanToken. intros Ha H.
  apply andb_true_iff in H. destruct H as [H Hsw].
  apply andb_true_iff in H. destruct H as [_ Hlen].
  apply Nat.leb_le in Hlen. repeat split; try assumption.
  intros Hin. apply negb_true_iff in Hsw.
  assert (mem t STOPWORDS = true); [|congruence].
  unfold mem. apply existsb_exists. exists t. split; [exact Hin|].
  apply String.eqb_refl.
Qed.

Lemma normal_tokens_clean (n : string) :
  spaced true n = true ->
  Forall cleanToken (filter informative (split_space n)).
Proof.
  intros H. apply Forall_forall. intros t Ht.
  apply filter_In in Ht. destruct Ht as [Hin Hinf].
  pose proof (split_space_alnum n true H) as Hall.
  rewrite Forall_forall in Hall. now apply informative_clean; [apply Hall|].
Qed.

(** X3. Every token that [tokensFromText] returns has at least three
    characters, all lowercase letters or digits, and is not a stopword. *)
Theorem tokensFromText_clean :
  forall text, Forall cleanToken (tokensFromText text).
Proof.
  intros text. unfold tokensFromText.
  apply normal_tokens_clean, normalizeText_spaced.
Qed.

End TextFacts.

(** ** Stemmer: lengths and self-matching *)
Section StemmerMore.
Import JS Stemmer.

Lemma append_length (a b : string) :
  String.length (a ++ b)%string = String.length a + String.length b.
Proof. induction a as [|c r IH]; simpl; [reflexivity | now rewrite IH]. Qed.

Lemma substring_prefix_length (s : string) : forall k,
  k <= String.length s -> String.length (substring 0 k s) = k.
Proof.
  induction s as [|c r IH]; intros k Hk; simpl in *.
  - destruct k; [reflexivity | lia].
  - destruct k; [reflexivity|]. simpl. rewrite IH; lia.
Qed.

Lemma endsWith_length (s suf : string) :
  endsWith s suf = true -> String.length suf <= String.length s.
Proof.
  unfold endsWith. intros H. apply andb_true_iff in H.
  destruct H as [H _]. now apply Nat.leb_le.
Qed.

(** A rule table whose replacements are no longer than the suffixes they
    replace, and whose suffixes are not empty. *)
Lemma applyFirst_length (rs : list (string * string)) (s : string) :
  Forall (fun r => String.length (snd r) <= String.length (fst r)
                   /\ 1 <= String.length (fst r)) rs ->
  String.length (applyFirst rs s) <= String.length s
  /\ (3 <= String.length s -> 3 <= String.length (applyFirst rs s))
  /\ (String.length s <= 3 -> applyFirst rs s = s).
Proof.
  induction rs as [|[suf repl] rest IH]; intros H; cbn [applyFirst].
  - repeat split; auto.
  - inversion H as [|? ? [Hr Hs] Hrest]; subst. cbn [fst snd] in Hr, Hs.
    destruct (endsWith s suf && (3 <=? String.length s - String.length suf)) eqn:E;
      [|now apply IH].
    apply andb_true_iff in E. destruct E as [He Hl].
    apply endsWith_length in He. apply Nat.leb_le in Hl.
    unfold dropEnd. rewrite append_length, substring_prefix_length by lia.
    repeat split; intros; lia.
Qed.

Lemma rules_shrink :
  Forall (fun r => String.length (snd r) <= String.length (fst r)
                   /\ 1 <= String.length (fst r)) rules.
Proof. unfold rules. repeat constructor. Qed.

(** X4. A stem is never longer than its word, never shorter than three
    characters when the word has three, and a word of at most three
    characters is only lowercased. *)
Theorem simpleStem_length :
  forall w,
    String.length (simpleStem w) <= String.length w
    /\ (3 <= String.length w -> 3 <= String.length (simpleStem w))
    /\ (String.length w <= 3 -> simpleStem w = toLowerCase w).
Proof.
  intros w. unfold simpleStem.
  destruct (applyFirst_length rules (toLowerCase w) rules_shrink) as [H1 [H2 H3]].
  rewrite toLowerCase_length in H1, H2, H3. auto.
Qed.

Lemma simpleStem_case (a b : string) :
  toLowerCase a = toLowerCase b -> simpleStem a = simpleStem b.
Proof. unfold simpleStem. now intros ->. Qed.

(** X5. A word is found among tokens that hold it, whatever the letter case
    on either side; nothing is found among no tokens. *)
Theorem tokensContainStem_self :
  (forall tokens t q,
     In t tokens -> toLowerCase q = toLowerCase t ->
     tokensContainStem tokens q = true)
  /\ (forall q, tokensContainStem [] q = false).
Proof.
  split; [|reflexivity].
  intros tokens t q Hin Hcase. unfold tokensContainStem.
  apply existsb_exists. exists t. split; [exact Hin|].
  unfold stemMatch. rewrite (simpleStem_case q t Hcase).
  now rewrite String.eqb_refl.
Qed.

Lemma tokensContainStem_self_witness :
  In "Elections" ["budget"; "Elections"]
  /\ tokensContainStem ["budget"; "Elections"] "ELECTIONS" = true.
Proof.
  split; [right; left; reflexivity|].
  apply (proj1 tokensContainStem_self ["budget"; "Elections"] "Elections" "ELECTIONS");
    [right; left; reflexivity | reflexivity].
Defined.

End StemmerMore.

(** ** Query parser *)
Section QueryFacts.
Import JS Text Query.

Lemma scanQuoted_no_quote (s : string) :
  allChars notQuote s = true -> scanQuoted s None = ([], s).
Proof.
  induction s as [|c r IH]; simpl; [reflexivity|].
  intros H. apply andb_true_iff in H. destruct H as [Hc Hr].
  unfold notQuote in Hc. apply negb_true_iff in Hc. rewrite Hc.
  now rewrite (IH Hr).
Qed.

Lemma filter_filter {X : Type} (f g : X -> bool) (l : list X) :
  filter f (filter g l) = filter (fun x => g x && f x) l.
Proof.
  induction l as [|x r IH]; simpl; [reflexivity|].
  destruct (g x); simpl; [destruct (f x); now rewrite IH | exact IH].
Qed.

Lemma parse_tokens_are_text_tokens (rest : string) :
  filter (fun t => (3 <=? String.length t) && negb (mem t STOPWORDS))
         (filter truthy (split_space (normalizeText rest)))
  = tokensFromText rest.
Proof.
  rewrite filter_filter. unfold tokensFromText.
  apply filter_ext. intros t. unfold informative.
  now rewrite andb_assoc.
Qed.

(** X6. A query without a double quote has no phrases, and its tokens are
    the tokens of its text. *)
Theorem parse_without_quotes :
  forall q,
    allChars notQuote q = true ->
    parseQueryParts q = mkQueryParts [] (tokensFromText q) None None.
Proof.
  intros q H. unfold parseQueryParts.
  destruct (isEmpty q) eqn:E.
  - apply isEmpty_true in E. now subst.
  - rewrite (scanQuoted_no_quote q H). cbn [map filter].
    now rewrite parse_tokens_are_text_tokens.
Qed.

Lemma parse_without_quotes_witness :
  allChars notQuote "The UK elections of 2024" = true
  /\ parseQueryParts "The UK elections of 2024"
     = mkQueryParts [] (tokensFromText "The UK elections of 2024") None None.
Proof.
  split; [reflexivity|].
  apply (parse_without_quotes "The UK elections of 2024"). reflexivity.
Defined.

Lemma allChars_append (P : ascii -> bool) (a b : string) :
  allChars P (a ++ b)%string = allChars P a && allChars P b.
Proof.
  induction a as [|c r IH]; simpl; [reflexivity|].
  now rewrite IH, andb_assoc.
Qed.

Lemma scanQuoted_groups (s : string) : forall pending,
  match pending with Some acc => allChars notQuote acc = true | None => True end ->
  Forall (fun g => allChars notQuote g = true) (fst (scanQuoted s pending)).
Proof.
  induction s as [|c r IH]; intros pending Hp; simpl.
  - destruct pending; constructor.
  - destruct pending as [acc|].
    + destruct (Ascii.eqb c dquote) eqn:E.
      * destruct (isEmpty acc).
        -- specialize (IH (Some EmptyString) eq_refl).
           destruct (scanQuoted r (Some EmptyString)); exact IH.
        -- specialize (IH None I).
           destruct (scanQuoted r None); simpl in *. now constructor.
      * apply IH. rewrite allChars_append, Hp. simpl.
        unfold notQuote. now rewrite E.
    + destruct (Ascii.eqb c dquote) eqn:E.
      * now apply IH.
      * specialize (IH None I). destruct (scanQuoted r None); exact IH.
Qed.

Lemma allChars_trimStart (P : ascii -> bool) (s : string) :
  allChars P s = true -> allChars P (trimStart s) = true.
Proof.
  induction s as [|c r IH]; simpl; [reflexivity|].
  intros H. destruct (isSpace c); [|exact H].
  apply andb_true_iff in H. now apply IH.
Qed.

Lemma allChars_trimEnd (P : ascii -> bool) (s : string) :
  allChars P s = true -> allChars P (trimEnd s) = true.
Proof.
  induction s as [|c r IH]; simpl; [reflexivity|].
  intros H. apply andb_true_iff in H. destruct H as [Hc Hr].
  destruct (isSpace c && isEmpty (trimEnd r)); [reflexivity|].
  simpl. now rewrite Hc, IH.
Qed.

(** X7. Whatever the query, every phrase the parser returns is not empty,
    has no white space at either end and holds no double quote, and every
    token has at least three lowercase letters or digits and is not a
    stopword; the parser sets no exclude or anchor tokens. *)
Theorem parseQueryParts_clean :
  forall q,
    Forall (fun ph => ph <> EmptyString /\ trim ph = ph
                      /\ allChars notQuote ph = true)
           (phrases (parseQueryParts q))
    /\ Forall cleanToken (tokens (parseQueryParts q))
    /\ excludeTokens (parseQueryParts q) = None
    /\ anchorTokens (parseQueryParts q) = None.
Proof.
  intros q. unfold parseQueryParts.
  destruct (isEmpty q); [repeat split; constructor|].
  pose proof (scanQuoted_groups q None I) as Hg.
  destruct (scanQuoted q None) as [groups rest]. cbn [fst] in Hg.
  cbn [phrases tokens excludeTokens anchorTokens].
  repeat split.
  - apply Forall_forall. intros ph Hph.
    apply filter_In in Hph. destruct Hph as [Hin Ht].
    apply in_map_iff in Hin. destruct Hin as [g [<- Hgin]].
    rewrite Forall_forall in Hg. repeat split.
    + intros E. rewrite E in Ht. discriminate.
    + apply trim_idem.
    + unfold trim. now apply allChars_trimEnd, allChars_trimStart, Hg.
  - rewrite parse_tokens_are_text_tokens. unfold tokensFromText.
    apply normal_tokens_clean, normalizeText_spaced.
Qed.

End QueryFacts.

(** ** Domain expansion: regions, appended terms, anchors and exclusions *)
Section DomainMore.
Import JS Re Text Query Domain Scorer.

Lemma detectRegionsFromQuery_cases (query : string) :
  In (detectRegionsFromQuery query)
     [[]; ["uk"]; ["usa"]; ["eu"]; ["uk"; "usa"]; ["uk"; "eu"]; ["usa"; "eu"];
      ["uk"; "usa"; "eu"]].
Proof.
  unfold detectRegionsFromQuery. cbv zeta.
  repeat match goal with
         | |- context [test ?a ?b] => destruct (test a b)
         end; cbn; auto 10.
Qed.

Lemma inferRegionFromGroup_cases (feedGroup : string) :
  In (inferRegionFromGroup feedGroup) [None; Some "uk"; Some "usa"; Some "eu"].
Proof.
  unfold inferRegionFromGroup. cbv zeta.
  destruct (isEmpty _); [cbn; auto|].
  repeat match goal with
         | |- context [test ?a ?b] => destruct (test a b)
         end; cbn; auto 10.
Qed.

(** X8. The detected regions are among uk, usa and eu, each at most once;
    regions named in the query are final, and the feed group is consulted
    only when the query names none, for one region at most. *)
Theorem detected_regions :
  forall feedGroup query,
    incl (detectRegionsFromContext feedGroup query) ["uk"; "usa"; "eu"]
    /\ NoDup (detectRegionsFromContext feedGroup query)
    /\ (detectRegionsFromQuery query <> [] ->
        detectRegionsFromContext feedGroup query = detectRegionsFromQuery query)
    /\ (detectRegionsFromQuery query = [] ->
        length (detectRegionsFromContext feedGroup query) <= 1).
Proof.
  intros fg query. unfold detectRegionsFromContext.
  pose proof (detectRegionsFromQuery_cases query) as Hq.
  pose proof (inferRegionFromGroup_cases fg) as Hg.
  set (rs := detectRegionsFromQuery query) in *. clearbody rs.
  set (g := inferRegionFromGroup fg) in *. clearbody g.
  assert (Hnd : forall a b c : string, a <> b -> a <> c -> b <> c ->
                NoDup [a; b; c] /\ NoDup [a; b] /\ NoDup [a]).
  { intros a b c Hab Hac Hbc. repeat split; repeat constructor; simpl;
      intuition congruence. }
  cbn [In] in Hq, Hg.
  repeat (destruct Hq as [<- | Hq]); try contradiction;
    repeat (destruct Hg as [<- | Hg]); try contradiction;
    cbn; repeat split;
    try (intros x Hx; cbn in *; intuition congruence);
    try (intros H; now elim H);
    try discriminate; try lia; try reflexivity;
    repeat constructor; cbn; intuition discriminate.
Qed.

Lemma detected_regions_witness :
  detectRegionsFromQuery "UK election" <> []
  /\ detectRegionsFromContext "news_usa" "UK election"
     = detectRegionsFromQuery "UK election".
Proof.
  split; [discriminate|].
  apply (proj1 (proj2 (proj2 (detected_regions "news_usa" "UK election")))).
  discriminate.
Defined.

(** *** What ingestion appends *)

Lemma ingestTerm_appends (acc : list string * list string) (t : string) :
  exists ps ts,
    fst (ingestTerm acc t) = fst acc ++ ps
    /\ snd (ingestTerm acc t) = snd acc ++ ts
    /\ Forall addedPhrase ps /\ Forall addedToken ts.
Proof.
  unfold ingestTerm.
  destruct (isEmpty (trim t)) eqn:Ee.
  { exists [], []. rewrite !app_nil_r. repeat split; constructor. }
  destruct (includes (trim t) " ") eqn:Ei.
  - destruct (existsb (sameCI (trim t)) (fst acc)).
    + exists [], []. rewrite !app_nil_r. repeat split; constructor.
    + exists [trim t], []. rewrite app_nil_r. cbn [fst snd].
      repeat split; repeat constructor; [apply trim_idem | exact Ei].
  - destruct (existsb (sameCI (trim t)) (snd acc)
              || mem (toLowerCase (trim t)) STOPWORDS
              || (String.length (trim t) <? 2)) eqn:Ec.
    + exists [], []. rewrite !app_nil_r. repeat split; constructor.
    + exists [], [trim t]. rewrite app_nil_r. cbn [fst snd].
      apply orb_false_iff in Ec. destruct Ec as [Ec Hlen].
      apply orb_false_iff in Ec. destruct Ec as [_ Hsw].
      apply Nat.ltb_ge in Hlen.
      repeat split; repeat constructor; try assumption.
      * apply trim_idem.
      * intros E. rewrite E in Ee. discriminate.
      * intros Hin. apply mem_In in Hin. congruence.
Qed.

Lemma ingestAll_appends (terms : list string) :
  forall acc,
  exists ps ts,
    fst (fold_left ingestTerm terms acc) = fst acc ++ ps
    /\ snd (fold_left ingestTerm terms acc) = snd acc ++ ts
    /\ Forall addedPhrase ps /\ Forall addedToken ts.
Proof.
  induction terms as [|t r IH]; intros acc; simpl.
  - exists [], []. rewrite !app_nil_r. repeat split; constructor.
  - destruct (ingestTerm_appends acc t) as [ps1 [ts1 [H1 [H2 [H3 H4]]]]].
    destruct (IH (ingestTerm acc t)) as [ps2 [ts2 [G1 [G2 [G3 G4]]]]].
    exists (ps1 ++ ps2), (ts1 ++ ts2).
    rewrite G1, G2, H1, H2, <- !app_assoc.
    repeat split; apply Forall_app; auto.
Qed.

(** The phrases and tokens of an expansion are those of the input after
    ingesting some list of terms. *)
Lemma expand_as_ingestion domainTerms feedGroup qparts query :
  exists terms,
    phrasesTokens (expandQueryWithDomain domainTerms feedGroup qparts query)
    = fold_left ingestTerm terms (phrasesTokens qparts).
Proof.
  unfold expandQueryWithDomain.
  destruct domainTerms as [dt|]; [|now exists []].
  destruct (politics dt) as [p|]; [|now exists []].
  destruct (shouldUsePoliticsDomain query); [|now exists []].
  eexists. apply (expandPolitics_ingest p _
    (mkQueryParts (phrases qparts) (tokens qparts) (Some []) (Some []))).
Qed.

(** X9. Expansion only appends: the phrases and the tokens of the query stay
    in front, in order; an appended token is a trimmed word of at least two
    characters, without a space, that is not a stopword, and an appended
    phrase is trimmed text with a space in it. *)
Theorem expand_only_appends :
  forall domainTerms feedGroup qparts query,
  exists ps ts,
    phrases (expandQueryWithDomain domainTerms feedGroup qparts query)
    = phrases qparts ++ ps
    /\ tokens (expandQueryWithDomain domainTerms feedGroup qparts query)
       = tokens qparts ++ ts
    /\ Forall addedPhrase ps /\ Forall addedToken ts.
Proof.
  intros dt fg qparts query.
  destruct (expand_as_ingestion dt fg qparts query) as [terms H].
  destruct (ingestAll_appends terms (phrasesTokens qparts))
    as [ps [ts [H1 [H2 [H3 H4]]]]].
  rewrite <- H in H1, H2. exists ps, ts. auto.
Qed.

Lemma ingestTerm_distinct (acc : list string * list string) (t : string) :
  distinctCI (fst acc) /\ distinctCI (snd acc) ->
  distinctCI (fst (ingestTerm acc t)) /\ distinctCI (snd (ingestTerm acc t)).
Proof.
  intros [Hp Ht]. unfold ingestTerm.
  assert (Hadd : forall l s, distinctCI l -> existsb (sameCI s) l = false ->
                 distinctCI (l ++ [s])).
  { intros l s Hl Hs. unfold distinctCI in *. rewrite map_app. simpl.
    apply NoDup_app; [exact Hl | repeat constructor; intros [] |].
    intros x Hx [<- | []]. apply in_map_iff in Hx.
    destruct Hx as [y [Hy Hin]].
    assert (existsb (sameCI s) l = true); [|congruence].
    apply sameCI_exists. now exists y. }
  destruct (isEmpty (trim t)); [now split|].
  destruct (includes (trim t) " ").
  - destruct (existsb (sameCI (trim t)) (fst acc)) eqn:E; [now split|].
    cbn [fst snd]. split; [now apply Hadd | exact Ht].
  - destruct (existsb (sameCI (trim t)) (snd acc)) eqn:E; [now split|].
    cbn [orb].
    destruct (mem (toLowerCase (trim t)) STOPWORDS
              || (String.length (trim t) <? 2)); [now split|].
    cbn [fst snd]. split; [exact Hp | now apply Hadd].
Qed.

(** X10. Expansion keeps the terms distinct: when no two phrases and no two
    tokens of the query are equal up to letter case, none of the result
    are. *)
Theorem expand_keeps_distinct :
  forall domainTerms feedGroup qparts query,
    distinctCI (phrases qparts) -> distinctCI (tokens qparts) ->
    distinctCI (phrases (expandQueryWithDomain domainTerms feedGroup qparts query))
    /\ distinctCI (tokens (expandQueryWithDomain domainTerms feedGroup qparts query)).
Proof.
  intros dt fg qparts query Hp Ht.
  destruct (expand_as_ingestion dt fg qparts query) as [terms H].
  change (distinctCI (fst (phrasesTokens (expandQueryWithDomain dt fg qparts query)))
          /\ distinctCI (snd (phrasesTokens (expandQueryWithDomain dt fg qparts query)))).
  rewrite H.
  apply (fold_left_invariant
           (fun acc => distinctCI (fst acc) /\ distinctCI (snd acc)) ingestTerm).
  - intros st x Hst. now apply ingestTerm_distinct.
  - now split.
Qed.

Lemma expand_keeps_distinct_witness :
  distinctCI ["breaking news"] /\ distinctCI ["election"; "labour"]
  /\ distinctCI (tokens (expandQueryWithDomain
       (Some (mkDomainTerms (Some (mkPolitics (Some ["vote"; "Election"])
          (Some ["Vote"]) (Some [("uk", ["Labour"; "Tories"])]) None None))))
       "" (mkQueryParts ["breaking news"] ["election"; "labour"] None None)
       "uk election")).
Proof.
  assert (H1 : distinctCI ["breaking news"])
    by (repeat constructor; simpl; intuition discriminate).
  assert (H2 : distinctCI ["election"; "labour"])
    by (repeat constructor; simpl; intuition discriminate).
  split; [exact H1|]. split; [exact H2|].
  exact (proj2 (expand_keeps_distinct
    (Some (mkDomainTerms (Some (mkPolitics (Some ["vote"; "Election"])
       (Some ["Vote"]) (Some [("uk", ["Labour"; "Tories"])]) None None))))
    "" (mkQueryParts ["breaking news"] ["election"; "labour"] None None)
    "uk election" H1 H2)).
Defined.

(** *** Sets, anchors and exclusions *)

Lemma setAdd_In (set : list string) (y x : string) :
  In x (setAdd set y) <-> In x set \/ x = y.
Proof.
  unfold setAdd. destruct (mem y set) eqn:E.
  - apply mem_In in E. split; [tauto|]. intros [H | ->]; assumption.
  - rewrite in_app_iff. simpl. intuition.
Qed.

Lemma setAdd_NoDup (set : list string) (y : string) :
  NoDup set -> NoDup (setAdd set y).
Proof.
  intros H. unfold setAdd. destruct (mem y set) eqn:E; [exact H|].
  apply NoDup_app; [exact H | repeat constructor; intros [] |].
  intros x Hx [Heq | []]. subst x.
  assert (mem y set = true) by now apply mem_In. congruence.
Qed.

Lemma setAddAll_In (xs : list string) : forall set x,
  In x (setAddAll set xs) <-> In x set \/ In x xs.
Proof.
  unfold setAddAll.
  induction xs as [|y r IH]; intros set x; simpl; [tauto|].
  rewrite IH, setAdd_In. intuition.
Qed.

Lemma setAddAll_NoDup (xs : list string) : forall set,
  NoDup set -> NoDup (setAddAll set xs).
Proof.
  unfold setAddAll.
  induction xs as [|y r IH]; intros set H; simpl; [exact H|].
  now apply IH, setAdd_NoDup.
Qed.

Lemma addAnchors_In (p : Politics) (acc : list string) (r x : string) :
  In x (addAnchors p acc r) <-> In x acc \/ In x (anchorsOf p r).
Proof.
  unfold addAnchors, anchorsOf, regionEntities.
  rewrite !setAddAll_In, !map_app, !in_app_iff. tauto.
Qed.

Lemma anchorSet_In (p : Politics) (rs : list string) : forall acc x,
  In x (fold_left (addAnchors p) rs acc) <->
  In x acc \/ exists r, In r rs /\ In x (anchorsOf p r).
Proof.
  induction rs as [|r rest IH]; intros acc x; simpl.
  - split; [tauto | intros [H | [r [[] _]]]; exact H].
  - rewrite IH, addAnchors_In. split.
    + intros [[H | H] | [r' [Hr Hx]]]; [now left | right | right].
      * exists r. auto.
      * exists r'. auto.
    + intros [H | [r' [[<- | Hr] Hx]]]; [tauto | tauto |].
      right. now exists r'.
Qed.

Lemma anchorSet_NoDup (p : Politics) (rs : list string) : forall acc,
  NoDup acc -> NoDup (fold_left (addAnchors p) rs acc).
Proof.
  induction rs as [|r rest IH]; intros acc H; simpl; [exact H|].
  apply IH. unfold addAnchors. now repeat apply setAddAll_NoDup.
Qed.

Lemma expandPolitics_anchorTokens (p : Politics) (regions : list string)
  (out0 : QueryParts) :
  anchorTokens (expandPolitics p regions out0)
  = Some (fold_left (addAnchors p)
            (targetRegionsOf regions (allRegionsOf p)) []).
Proof.
  unfold expandPolitics.
  now rewrite (proj2 (proj2 (addTerms_ingest _ _))).
Qed.

Lemma collect_In (m : RegionMap) (rs : list string) : forall acc x,
  In x (fold_left (fun list r => match lookup m r with
                                 | Some arr => list ++ arr
                                 | None => list
                                 end) rs acc) <->
  In x acc \/ exists r, In r rs /\ In x (orNil (lookup m r)).
Proof.
  induction rs as [|r rest IH]; intros acc x; simpl.
  - split; [tauto | intros [H | [r [[] _]]]; exact H].
  - rewrite IH. destruct (lookup m r) as [arr|] eqn:E.
    + rewrite in_app_iff. split.
      * intros [[H | H] | [r' [Hr Hx]]]; [now left | right | right].
        -- exists r. rewrite E. auto.
        -- exists r'. auto.
      * intros [H | [r' [[<- | Hr] Hx]]]; [tauto | |].
        -- rewrite E in Hx. tauto.
        -- right. now exists r'.
    + split.
      * intros [H | [r' [Hr Hx]]]; [now left|]. right. exists r'. auto.
      * intros [H | [r' [[<- | Hr] Hx]]]; [tauto | |].
        -- rewrite E in Hx. contradiction.
        -- right. now exists r'.
Qed.

Lemma collectFromRegions_In (obj : option RegionMap) (rs : list string) (x : string) :
  In x (collectFromRegions rs obj) <->
  exists r, In r rs /\ In x (regionNames obj r).
Proof.
  unfold collectFromRegions, regionNames. destruct obj as [m|].
  - rewrite collect_In. simpl. tauto.
  - simpl. split; [tauto | intros [r [_ []]]].
Qed.

Lemma otherRegions_In (regions allRegions : list string) (r : string) :
  In r (otherRegionsOf regions allRegions) <->
  In r allRegions /\ ~ In r regions.
Proof.
  unfold otherRegionsOf. rewrite filter_In, negb_true_iff.
  split; intros [H1 H2]; (split; [exact H1|]).
  - intros Hin. apply mem_In in Hin. congruence.
  - destruct (mem r regions) eqn:E; [|reflexivity].
    apply mem_In in E. contradiction.
Qed.

(** The exclude tokens of a triggered expansion. *)
Lemma triggered_excludes (p : Politics) (regions : list string)
  (qparts : QueryParts) (x : string) :
  In x (orNil (excludeTokens
          (expandPolitics p regions
             (mkQueryParts (phrases qparts) (tokens qparts) (Some []) (Some [])))))
  <-> exists r, In r (allRegionsOf p) /\ ~ In r regions
                /\ In x (regionEntities p r).
Proof.
  rewrite expandPolitics_excludeTokens. cbn [orNil excludeTokens app].
  rewrite !in_app_iff, !collectFromRegions_In. unfold regionEntities.
  split.
  - intros [[r [Hr Hx]] | [[r [Hr Hx]] | [r [Hr Hx]]]];
      apply otherRegions_In in Hr; destruct Hr as [Ha Hn];
      exists r; rewrite !in_app_iff; tauto.
  - intros [r [Ha [Hn Hx]]].
    assert (Hr : In r (otherRegionsOf regions (allRegionsOf p)))
      by now apply otherRegions_In.
    rewrite !in_app_iff in Hx.
    destruct Hx as [Hx | [Hx | Hx]]; [left | right; left | right; right];
      now exists r.
Qed.

Lemma triggered_anchors (p : Politics) (regions : list string)
  (out0 : QueryParts) (x : string) :
  In x (orNil (anchorTokens (expandPolitics p regions out0)))
  <-> exists r, In r (targetRegionsOf regions (allRegionsOf p))
                /\ In x (anchorsOf p r).
Proof.
  rewrite expandPolitics_anchorTokens. cbn [orNil].
  rewrite anchorSet_In. simpl. tauto.
Qed.

(** X11. With the politics domain triggered, the anchor tokens are, each
    once and in lowercase, the default anchors and the listed parties,
    institutions and people of the target regions. *)
Theorem anchors_of_target_regions :
  forall dt p feedGroup qparts query,
    politics dt = Some p ->
    shouldUsePoliticsDomain query = true ->
    let target :=
      targetRegionsOf (detectRegionsFromContext feedGroup query)
                      (allRegionsOf p) in
    let anchors :=
      orNil (anchorTokens
               (expandQueryWithDomain (Some dt) feedGroup qparts query)) in
    NoDup anchors
    /\ (forall a, In a anchors <-> exists r, In r target /\ In a (anchorsOf p r))
    /\ Forall (fun a => toLowerCase a = a) anchors.
Proof.
  intros dt p fg qparts query Hp Hq target anchors.
  unfold anchors, expandQueryWithDomain. rewrite Hp, Hq.
  split; [|split].
  - rewrite expandPolitics_anchorTokens. cbn [orNil].
    apply anchorSet_NoDup. constructor.
  - intros a. apply triggered_anchors.
  - apply Forall_forall. intros a Ha. apply triggered_anchors in Ha.
    destruct Ha as [r [_ Ha]]. unfold anchorsOf in Ha.
    apply in_map_iff in Ha. destruct Ha as [y [<- _]].
    apply toLowerCase_idem.
Qed.

Lemma anchors_of_target_regions_witness :
  shouldUsePoliticsDomain "uk election" = true
  /\ NoDup (orNil (anchorTokens (expandQueryWithDomain
       (Some (mkDomainTerms (Some (mkPolitics None None
          (Some [("uk", ["Labour"]); ("usa", ["Democrats"])])
          (Some [("uk", ["Westminster"])]) None))))
       "" (parseQueryParts "uk election") "uk election"))).
Proof.
  split; [vm_compute; reflexivity|].
  exact (proj1 (anchors_of_target_regions
    (mkDomainTerms (Some (mkPolitics None None
          (Some [("uk", ["Labour"]); ("usa", ["Democrats"])])
          (Some [("uk", ["Westminster"])]) None)))
    (mkPolitics None None
          (Some [("uk", ["Labour"]); ("usa", ["Democrats"])])
          (Some [("uk", ["Westminster"])]) None)
    "" (parseQueryParts "uk election") "uk election" eq_refl
    (eq_refl : shouldUsePoliticsDomain "uk election" = true))).
Defined.

(** X12. With the politics domain triggered, the exclude tokens are exactly
    the parties, institutions and people listed under a region of the maps
    that was not detected; a name listed only under detected regions is
    never excluded. *)
Theorem excludes_of_undetected_regions :
  forall dt p feedGroup qparts query,
    politics dt = Some p ->
    shouldUsePoliticsDomain query = true ->
    forall x,
      In x (orNil (excludeTokens
                     (expandQueryWithDomain (Some dt) feedGroup qparts query)))
      <-> exists r, In r (allRegionsOf p)
                    /\ ~ In r (detectRegionsFromContext feedGroup query)
                    /\ In x (regionEntities p r).
Proof.
  intros dt p fg qparts query Hp Hq x.
  unfold expandQueryWithDomain. rewrite Hp, Hq. apply triggered_excludes.
Qed.

Lemma excludes_of_undetected_regions_witness :
  shouldUsePoliticsDomain "uk election" = true
  /\ (In "Democrats" (orNil (excludeTokens (expandQueryWithDomain
        (Some (mkDomainTerms (Some (mkPolitics None None
           (Some [("uk", ["Labour"]); ("usa", ["Democrats"])]) None None))))
        "" (parseQueryParts "uk election") "uk election")))
      <-> exists r,
            In r (allRegionsOf (mkPolitics None None
                    (Some [("uk", ["Labour"]); ("usa", ["Democrats"])]) None None))
            /\ ~ In r (detectRegionsFromContext "" "uk election")
            /\ In "Democrats" (regionEntities (mkPolitics None None
                    (Some [("uk", ["Labour"]); ("usa", ["Democrats"])]) None None) r)).
Proof.
  split; [vm_compute; reflexivity|].
  exact (excludes_of_undetected_regions
    (mkDomainTerms (Some (mkPolitics None None
       (Some [("uk", ["Labour"]); ("usa", ["Democrats"])]) None None)))
    (mkPolitics None None
       (Some [("uk", ["Labour"]); ("usa", ["Democrats"])]) None None)
    "" (parseQueryParts "uk election") "uk election" eq_refl
    (eq_refl : shouldUsePoliticsDomain "uk election" = true) "Democrats").
Defined.

(** X13. When the politics domain is triggered and no region is detected,
    the cross-region suppression of [searchHeadlines] changes no score:
    every exclude token is then an anchor too. *)
Theorem no_region_no_suppression :
  forall dt p feedGroup qparts query,
    politics dt = Some p ->
    shouldUsePoliticsDomain query = true ->
    detectRegionsFromContext feedGroup query = [] ->
    forall item s,
      suppress item (expandQueryWithDomain (Some dt) feedGroup qparts query) s = s.
Proof.
  intros dt p fg qparts query Hp Hq Hr item s.
  unfold expandQueryWithDomain. rewrite Hp, Hq, Hr.
  set (out := expandPolitics p [] _).
  unfold suppress.
  destruct ((0 <? s) && (0 <? length (orNil (excludeTokens out))));
    [|reflexivity].
  set (combined := tokensFromText _).
  destruct (existsb (fun e => Stemmer.tokensContainStem combined (toLowerCase e))
                    (orNil (excludeTokens out))) eqn:Ex; [|reflexivity].
  apply existsb_exists in Ex. destruct Ex as [ex [Hin Hm]].
  apply triggered_excludes in Hin. destruct Hin as [r [Hall [_ Hent]]].
  assert (Ha : existsb (fun a => Stemmer.tokensContainStem combined (toLowerCase a))
                       (orNil (anchorTokens out)) = true).
  { apply existsb_exists. exists (toLowerCase ex). split.
    - apply triggered_anchors. exists r. split; [exact Hall|].
      unfold anchorsOf. apply in_map, in_or_app. now right.
    - now rewrite toLowerCase_idem. }
  now rewrite Ha.
Qed.

Lemma no_region_no_suppression_witness :
  shouldUsePoliticsDomain "election results" = true
  /\ detectRegionsFromContext "" "election results" = []
  /\ suppress
       (mkHeadline (Some "Labour wins the election") (Some "Election night") None None)
       (expandQueryWithDomain
          (Some (mkDomainTerms (Some (mkPolitics None None
             (Some [("uk", ["Labour"]); ("usa", ["Democrats"])]) None None))))
          "" (parseQueryParts "election results") "election results") 7
     = 7.
Proof.
  split; [vm_compute; reflexivity|]. split; [vm_compute; reflexivity|].
  exact (no_region_no_suppression
    (mkDomainTerms (Some (mkPolitics None None
       (Some [("uk", ["Labour"]); ("usa", ["Democrats"])]) None None)))
    (mkPolitics None None
       (Some [("uk", ["Labour"]); ("usa", ["Democrats"])]) None None)
    "" (parseQueryParts "election results") "election results" eq_refl
    (eq_refl : shouldUsePoliticsDomain "election results" = true)
    (eq_refl : detectRegionsFromContext "" "election results" = [])
    (mkHeadline (Some "Labour wins the election") (Some "Election night") None None)
    7).
Defined.

End DomainMore.

(** ** Scorer: bounds *)
Section ScorerMore.
Import JS Re Text Stemmer Query Domain Scorer.

Lemma phraseStep_bound ttl smry st ph :
  total (phraseStep ttl smry st ph) <= total st + 12
  /\ titleTokenHits (phraseStep ttl smry st ph) = titleTokenHits st.
Proof.
  unfold phraseStep.
  destruct (testLiteral _ ttl), (testLiteral _ smry); simpl; split; lia.
Qed.

Lemma tokenStep_bound ttl smry tt stoks st t :
  total (tokenStep ttl smry tt stoks st t) <= total st + 3.
Proof.
  unfold tokenStep.
  destruct (tokenIn ttl tt t), (tokenIn smry stoks t); simpl; lia.
Qed.

Lemma fold_total_bound {X : Type} (f : Tally -> X -> Tally) (k : nat) :
  (forall st x, total (f st x) <= total st + k) ->
  forall l st, total (fold_left f l st) <= total st + k * length l.
Proof.
  intros Hstep l. induction l as [|x r IH]; intros st; simpl; [lia|].
  specialize (IH (f st x)). specialize (Hstep st x). lia.
Qed.

(** X14. A score is at most 12 for each phrase (8 in the title and 4 in the
    summary), 3 for each token (2 in the title and 1 in the summary) and 2
    for the bonus. *)
Theorem headlineSearchScore_bound :
  forall h qparts,
    headlineSearchScore h qparts
    <= 12 * length (phrases qparts) + 3 * length (tokens qparts) + 2.
Proof.
  intros h qparts. unfold headlineSearchScore.
  assert (H : total (rawTally h qparts)
              <= 12 * length (phrases qparts) + 3 * length (tokens qparts) + 2).
  { unfold rawTally.
    set (ttl := toLowerCase (orEmpty (title h))).
    set (smry := toLowerCase (orEmpty (summary h))).
    set (st1 := fold_left (phraseStep ttl smry) (phrases qparts) _).
    set (st2 := fold_left _ (tokens qparts) st1).
    assert (H1 : total st1 <= 0 + 12 * length (phrases qparts)).
    { apply (fold_total_bound (phraseStep ttl smry) 12).
      intros st x. apply phraseStep_bound. }
    assert (H2 : total st2 <= total st1 + 3 * length (tokens qparts)).
    { apply (fold_total_bound
               (tokenStep ttl smry (tokensFromText ttl) (tokensFromText smry)) 3).
      intros st x. apply tokenStep_bound. }
    clearbody st1 st2.
    destruct (_ && _); simpl; lia. }
  destruct (gate (rawTally h qparts)); lia.
Qed.

Lemma increasing_NoDup (l : list ScoredCandidate) :
  StronglySorted indexBefore l -> NoDup (map index l).
Proof.
  induction l as [|x r IH]; intros H; simpl; [constructor|].
  inversion H as [|? ? Hr Hx]; subst. constructor; [|now apply IH].
  intros Hin. apply in_map_iff in Hin. destruct Hin as [y [Hy Hin]].
  rewrite Forall_forall in Hx. specialize (Hx y Hin).
  unfold indexBefore in Hx. lia.
Qed.

Lemma scoreFrom_length qparts items : forall i,
  length (scoreFrom qparts i items) <= length items.
Proof.
  induction items as [|it rest IH]; intros i; simpl; [lia|].
  destruct (0 <? _); simpl; specialize (IH (S i)); lia.
Qed.

(** X15. The candidates of a search are at distinct positions of the
    headline list, all within it, and are no more than the limit and no more
    than the headlines. *)
Theorem searchHeadlines_positions :
  forall domainTerms feedGroup query items limit,
    NoDup (map index (searchHeadlines domainTerms feedGroup query items limit))
    /\ (forall c, In c (searchHeadlines domainTerms feedGroup query items limit) ->
                  index c < length items)
    /\ length (searchHeadlines domainTerms feedGroup query items limit)
       <= Nat.min limit (length items).
Proof.
  intros dt fg query items limit.
  rewrite searchHeadlines_sorted_prefix.
  set (qparts := expandQueryWithDomain dt fg (parseQueryParts query) query).
  set (scored := scoreFrom qparts 0 items).
  pose proof (sort_perm byScoreDesc scored) as Hperm.
  split; [|split].
  - rewrite <- firstn_map.
    assert (Hnd : NoDup (map index (Arr.sort byScoreDesc scored))).
    { apply (Permutation_NoDup (l := map index scored)).
      - apply Permutation_map, Permutation_sym, Hperm.
      - apply increasing_NoDup, scoreFrom_increasing. }
    rewrite <- (firstn_skipn limit (map index (Arr.sort byScoreDesc scored))) in Hnd.
    now apply NoDup_app_remove_r in Hnd.
  - intros c Hc. apply firstn_incl, sort_In, scoreFrom_In in Hc.
    destruct Hc as [_ [[h [Hn _]] _]].
    rewrite Nat.sub_0_r in Hn.
    apply nth_error_Some. congruence.
  - rewrite length_firstn, (Permutation_length Hperm).
    pose proof (scoreFrom_length qparts items 0). unfold scored. lia.
Qed.

End ScorerMore.

(** ** Mentions: what a call can select *)
Section MentionMore.
Import JS Scorer Mentions.
Variable urlWithoutQuery : string -> option string.
Variable headlines : list Headline.

Local Abbreviation mIndex := (Mentions.mentionIndex urlWithoutQuery headlines).

Lemma NoDup_in_range (n : nat) (l : list Z) :
  NoDup l -> (forall i, In i l -> (0 <= i < Z.of_nat n)%Z) -> length l <= n.
Proof.
  intros Hnd Hr.
  assert (Hmap : NoDup (map Z.to_nat l)).
  { induction l as [|x r IH]; simpl; [constructor|].
    inversion Hnd as [|? ? Hx Hnd']; subst. constructor.
    - intros Hin. apply in_map_iff in Hin. destruct Hin as [y [Hy Hin]].
      assert (x = y); [|congruence].
      pose proof (Hr x (or_introl eq_refl)). pose proof (Hr y (or_intror Hin)).
      lia.
    - apply IH; [exact Hnd' | intros i Hi; apply Hr; now right]. }
  rewrite <- (length_map Z.to_nat l), <- (length_seq n 0).
  apply NoDup_incl_length; [exact Hmap|].
  intros k Hk. apply in_map_iff in Hk. destruct Hk as [i [<- Hi]].
  apply in_seq. specialize (Hr i Hi). lia.
Qed.

Section Selecting.
Variable hasBox : Z -> bool.
Variable allowed : option (list Z).

Local Abbreviation selectable := (mayTick headlines hasBox allowed).

Local Abbreviation step :=
  (mentionStep urlWithoutQuery headlines hasBox allowed).

Lemma mentionStep_sound (st : Selection) (m : Mention) :
  NoDup (seen st) -> count st = length (seen st) ->
  NoDup (seen (step st m))
  /\ count (step st m) = length (seen (step st m))
  /\ (forall i, In i (seen (step st m)) ->
                In i (seen st) \/ (selectable i /\ mIndex m = i))
  /\ length (seen (step st m)) <= length (seen st) + 1.
Proof.
  intros Hnd Hc. unfold mentionStep.
  destruct (mentionIndex_resolves urlWithoutQuery headlines m) as [_ Hrange].
  set (idx := mIndex m) in *.
  destruct ((0 <=? idx)%Z && negb (memZ idx (seen st))
            && match allowed with None => true | Some a => memZ idx a end) eqn:E;
    [|repeat split; auto; lia].
  destruct (hasBox idx) eqn:Hb; [|repeat split; auto; lia].
  apply andb_true_iff in E. destruct E as [E Ea].
  apply andb_true_iff in E. destruct E as [E0 Em].
  apply Z.leb_le in E0. apply negb_true_iff in Em. apply allowed_check in Ea.
  cbn [seen count]. repeat split.
  - apply NoDup_app; [exact Hnd | repeat constructor; intros [] |].
    intros x Hx [Heq | []]. subst x.
    assert (memZ idx (seen st) = true) by now apply memZ_In. congruence.
  - rewrite length_app. simpl. lia.
  - intros i Hi. apply in_app_or in Hi. destruct Hi as [Hi | [<- | []]];
      [now left | right].
    repeat split; try assumption; lia.
  - rewrite length_app. simpl. lia.
Qed.

Lemma select_sound (ms : list Mention) : forall st,
  NoDup (seen st) -> count st = length (seen st) ->
  NoDup (seen (fold_left step ms st))
  /\ count (fold_left step ms st) = length (seen (fold_left step ms st))
  /\ (forall i, In i (seen (fold_left step ms st)) ->
                In i (seen st)
                \/ (selectable i /\ exists m, In m ms /\ mIndex m = i))
  /\ length (seen (fold_left step ms st)) <= length (seen st) + length ms.
Proof.
  induction ms as [|m r IH]; intros st Hnd Hc; simpl.
  - repeat split; auto; lia.
  - destruct (mentionStep_sound st m Hnd Hc) as [Hnd' [Hc' [Hin' Hlen']]].
    destruct (IH _ Hnd' Hc') as [Hnd2 [Hc2 [Hin2 Hlen2]]].
    repeat split; try assumption; [|lia].
    intros i Hi. destruct (Hin2 i Hi) as [H | [Hs [m' [Hm' Hi']]]].
    + destruct (Hin' i H) as [H' | [Hs Hi']]; [now left | right].
      split; [exact Hs|]. exists m. auto.
    + right. split; [exact Hs|]. exists m'. auto.
Qed.

(** X16. Whatever boxes the page has, a call of [autoSelectByMentions] ticks
    each index at most once and counts what it ticks; every index it ticks
    is a position of the headline list that some mention resolves to, has a
    box, and is within [allowedIdxs] when given; the count exceeds neither
    the number of mentions nor the number of headlines. *)
Theorem autoSelectByMentions_sound :
  forall mentions,
    let sel :=
      autoSelectByMentions urlWithoutQuery headlines hasBox mentions allowed in
    NoDup (seen sel)
    /\ count sel = length (seen sel)
    /\ (forall i, In i (seen sel) ->
          (0 <= i < Z.of_nat (length headlines))%Z
          /\ hasBox i = true /\ allowedOk allowed i
          /\ exists m, In m mentions /\ mIndex m = i)
    /\ count sel <= length mentions
    /\ count sel <= length headlines.
Proof.
  intros mentions sel.
  destruct (select_sound mentions (mkSelection [] 0))
    as [Hnd [Hc [Hin Hlen]]]; [constructor | reflexivity |].
  fold (autoSelectByMentions urlWithoutQuery headlines hasBox mentions allowed)
    in Hnd, Hc, Hin, Hlen.
  fold sel in Hnd, Hc, Hin, Hlen. simpl in Hlen.
  assert (Hgood : forall i, In i (seen sel) ->
            (0 <= i < Z.of_nat (length headlines))%Z
            /\ hasBox i = true /\ allowedOk allowed i
            /\ exists m, In m mentions /\ mIndex m = i).
  { intros i Hi. destruct (Hin i Hi) as [[] | [[H1 [H2 H3]] H4]]. auto. }
  repeat split; try assumption; try (now apply Hgood); try lia.
  rewrite Hc. apply NoDup_in_range; [exact Hnd|].
  intros i Hi. now apply Hgood.
Qed.

End Selecting.

Lemma firstAt_hit {X : Type} (f : X -> bool) (l : list X) : forall i x,
  nth_error l i = Some x -> f x = true ->
  exists j y, firstAt f l = Some j /\ j <= i
              /\ nth_error l j = Some y /\ f y = true.
Proof.
  induction l as [|a r IH]; intros i x Hn Hf; [destruct i; discriminate|].
  simpl. destruct (f a) eqn:Ea.
  - exists 0, a. repeat split; [lia | exact Ea].
  - destruct i as [|i]; simpl in Hn; [congruence|].
    destruct (IH i x Hn Hf) as [j [y [Hj [Hle [Hy Hfy]]]]].
    exists (S j), y. rewrite Hj. simpl. repeat split; [lia | exact Hy | exact Hfy].
Qed.

(** X17. A mention made from a headline of the list is resolved, to that
    headline or to an earlier one that matches as well: an object mention
    with the headline's link, whatever else it carries, to a headline whose
    link is equal after normalization; an object mention with the headline's
    title alone, to a headline of the same title up to case and surrounding
    white space; an integer mention of its position, to that position. *)
Theorem mention_of_headline_resolves :
  forall i h,
    nth_error headlines i = Some h ->
    (forall u idx t,
       link h = Some u -> truthy u = true ->
       exists j h',
         mIndex (MObject (Some u) idx t) = Z.of_nat j /\ j <= i
         /\ nth_error headlines j = Some h'
         /\ urlsEqual urlWithoutQuery (link h') (Some u) = true)
    /\ (forall ttl,
          Scorer.title h = Some ttl -> truthy ttl = true ->
          exists j h',
            mIndex (MObject None None (Some ttl)) = Z.of_nat j /\ j <= i
            /\ nth_error headlines j = Some h'
            /\ titleIs (toLowerCase (trim ttl)) h' = true)
    /\ mIndex (MInteger (Z.of_nat i)) = Z.of_nat i.
Proof.
  intros i h Hn. split; [|split].
  - intros u idx t Hl Hu.
    destruct (firstAt_hit
                (fun h' => String.eqb (normalizeUrl urlWithoutQuery (link h'))
                                      (normalizeUrl urlWithoutQuery (Some u)))
                headlines i h Hn) as [j [h' [Hj [Hle [Hh' Hf]]]]].
    { rewrite Hl. apply String.eqb_refl. }
    exists j, h'. repeat split; try assumption.
    apply resolved_Some.
    rewrite (proj1 (mentionIndex_resolves urlWithoutQuery headlines _)).
    unfold resolveByShape, given. rewrite Hu. cbn [byUrl firstSome].
    now rewrite Hj.
  - intros ttl Ht Htt.
    destruct (firstAt_hit
                (fun h' => String.eqb (toLowerCase (trim (orEmpty (Scorer.title h'))))
                                      (toLowerCase (trim ttl)))
                headlines i h Hn) as [j [h' [Hj [Hle [Hh' Hf]]]]].
    { rewrite Ht. apply String.eqb_refl. }
    exists j, h'. repeat split; try assumption.
    apply resolved_Some.
    rewrite (proj1 (mentionIndex_resolves urlWithoutQuery headlines _)).
    unfold resolveByShape, given. rewrite Htt.
    cbn [byUrl byIndex byTitle firstSome]. now rewrite Hj.
  - unfold Mentions.mentionIndex, inRange.
    assert (Hlt : i < length headlines) by (apply nth_error_Some; congruence).
    assert (E : ((0 <=? Z.of_nat i) && (Z.of_nat i <? Z.of_nat (length headlines)))%Z
                = true).
    { apply andb_true_iff. split; [apply Z.leb_le | apply Z.ltb_lt]; lia. }
    now rewrite E.
Qed.

End MentionMore.

Lemma mention_of_headline_resolves_witness :
  nth_error
    [Scorer.mkHeadline (Some "Markets rally") None None (Some "http://x.com/a");
     Scorer.mkHeadline (Some "Budget vote") None None (Some "http://x.com/b")] 1
  = Some (Scorer.mkHeadline (Some "Budget vote") None None (Some "http://x.com/b"))
  /\ Mentions.mentionIndex (fun _ => None)
       [Scorer.mkHeadline (Some "Markets rally") None None (Some "http://x.com/a");
        Scorer.mkHeadline (Some "Budget vote") None None (Some "http://x.com/b")]
       (Mentions.MInteger (Z.of_nat 1)) = Z.of_nat 1.
Proof.
  split; [reflexivity|].
  exact (proj2 (proj2 (mention_of_headline_resolves (fun _ => None)
    [Scorer.mkHeadline (Some "Markets rally") None None (Some "http://x.com/a");
     Scorer.mkHeadline (Some "Budget vote") None None (Some "http://x.com/b")]
    1 (Scorer.mkHeadline (Some "Budget vote") None None (Some "http://x.com/b"))
    eq_refl))).
Defined.

(** ** Selection from the summary text *)
Section SummaryFacts.
Import JS Text Scorer Mentions Summary.

Lemma str_app_assoc (a b c : string) :
  ((a ++ b) ++ c = a ++ (b ++ c))%string.
Proof. induction a as [|x r IH]; simpl; [reflexivity | now rewrite IH]. Qed.

Lemma includes_prefix (s sub : string) :
  String.prefix sub s = true -> includes s sub = true.
Proof. destruct s; simpl; now intros ->. Qed.

Lemma includes_middle (a x b : string) :
  includes (a ++ x ++ b)%string x = true.
Proof.
  induction a as [|c r IH]; simpl.
  - apply includes_prefix, prefix_IsPrefix. now exists b.
  - rewrite IH. apply orb_true_r.
Qed.

Lemma split_space_nonempty (s : string) : split_space s <> [].
Proof.
  destruct s as [|c r]; simpl; [discriminate|].
  destruct (Ascii.eqb c " "); [discriminate|].
  destruct (split_space r); discriminate.
Qed.

Lemma split_space_first (s : string) : forall w ws,
  split_space s = w :: ws ->
  exists b, (s ++ " ")%string = (w ++ " " ++ b)%string.
Proof.
  induction s as [|c r IH]; intros w ws; simpl.
  - intros [= <- <-]. now exists EmptyString.
  - destruct (Ascii.eqb c " ") eqn:E.
    + intros [= <- <-]. apply Ascii.eqb_eq in E. subst c.
      now exists (r ++ " ")%string.
    + destruct (split_space r) as [|w' ws'] eqn:Er.
      * now elim (split_space_nonempty r).
      * intros [= <- <-]. destruct (IH w' ws' eq_refl) as [b Hb].
        exists b. simpl. now rewrite Hb.
Qed.

(** Every piece of [s.split(' ')] stands in [s] between two spaces, once [s]
    is padded with a space on either side. *)
Lemma split_space_padded (s : string) :
  (forall t, In t (split_space s) ->
     exists a b, (" " ++ s ++ " ")%string = (a ++ (" " ++ t ++ " ") ++ b)%string)
  /\ (forall w ws t, split_space s = w :: ws -> In t ws ->
        exists a b, (s ++ " ")%string = (a ++ (" " ++ t ++ " ") ++ b)%string).
Proof.
  induction s as [|c r [IHc IHt]].
  - split.
    + intros t [<- | []]. now exists EmptyString, EmptyString.
    + intros w ws t [= <- <-] [].
  - assert (Htail : forall w ws t, split_space (String c r) = w :: ws -> In t ws ->
              exists a b, (String c r ++ " ")%string
                          = (a ++ (" " ++ t ++ " ") ++ b)%string).
    { intros w ws t Hs Ht. simpl in Hs.
      destruct (Ascii.eqb c " ") eqn:E.
      - injection Hs as <- <-. apply Ascii.eqb_eq in E. subst c.
        exact (IHc t Ht).
      - destruct (split_space r) as [|w' ws'] eqn:Er;
          [now elim (split_space_nonempty r)|].
        injection Hs as <- <-.
        destruct (IHt w' ws' t eq_refl Ht) as [a [b Hab]].
        exists (String c a), b. simpl. now rewrite Hab. }
    split; [|exact Htail].
    intros t Ht.
    destruct (split_space (String c r)) as [|w ws] eqn:Es;
      [now elim (split_space_nonempty (String c r))|].
    destruct Ht as [<- | Ht].
    + destruct (split_space_first _ _ _ Es) as [b Hb].
      exists EmptyString, b.
      change (String " " (String c r ++ " ") = String " " ((w ++ " ") ++ b))%string.
      now rewrite Hb, str_app_assoc.
    + destruct (Htail w ws t eq_refl Ht) as [a [b Hab]].
      exists (String " " a), b.
      change (String " " (String c r ++ " ")
              = String " " (a ++ (" " ++ t ++ " ") ++ b))%string.
      now rewrite Hab.
Qed.

Lemma title_words_in_own_text (ttl : string) :
  forall t, In t (tokensFromTitle ttl) ->
    wordIn (" " ++ normalizeText ttl ++ " ")%string t = true.
Proof.
  intros t Ht. unfold tokensFromTitle in Ht. apply filter_In in Ht.
  destruct Ht as [Hin _].
  destruct (proj1 (split_space_padded (normalizeText ttl)) t Hin) as [a [b Hab]].
  unfold wordIn. rewrite Hab.
  now rewrite (includes_middle a (" " ++ t ++ " ") b).
Qed.

Lemma countMatches_from (toks : list string) (sn : string) : forall k,
  fold_left (fun m t => if wordIn sn t then m + 1 else m) toks k <= k + length toks
  /\ ((forall t, In t toks -> wordIn sn t = true) ->
      fold_left (fun m t => if wordIn sn t then m + 1 else m) toks k
      = k + length toks).
Proof.
  induction toks as [|t r IH]; intros k; simpl; [split; intros; lia|].
  destruct (wordIn sn t) eqn:E.
  - destruct (IH (k + 1)) as [H1 H2]. split; [lia|].
    intros Hall. rewrite H2; [lia | intros t' Ht'; apply Hall; now right].
  - destruct (IH k) as [H1 _]. split; [lia|].
    intros Hall. rewrite (Hall t (or_introl eq_refl)) in E. discriminate.
Qed.

Lemma Zpos_of_nat (n : nat) : n <> 0 -> Zpos (Pos.of_nat n) = Z.of_nat n.
Proof.
  intros H. rewrite <- (positive_nat_Z (Pos.of_nat n)).
  now rewrite Nat2Pos.id.
Qed.

(** The comparison of the match fraction with one half. *)
Lemma half_test (ttl sn : string) :
  (2 <=? length (tokensFromTitle ttl))
  && QArith_base.Qle_bool (QArith_base.Qmake 1 2) (titleMatchScore ttl sn) = true
  <-> 2 <= length (tokensFromTitle ttl)
      /\ length (tokensFromTitle ttl)
         <= 2 * countMatches (tokensFromTitle ttl) sn.
Proof.
  unfold titleMatchScore.
  set (toks := tokensFromTitle ttl).
  rewrite andb_true_iff, Nat.leb_le.
  destruct (length toks =? 0) eqn:E0.
  - apply Nat.eqb_eq in E0. split; intros [H _]; lia.
  - apply Nat.eqb_neq in E0.
    unfold QArith_base.Qle_bool. cbn [QArith_base.Qnum QArith_base.Qden].
    rewrite (Zpos_of_nat _ E0), Z.leb_le. split; intros [H1 H2]; split; lia.
Qed.

Lemma summaryStep_ticks headlines hasBox sn st i :
  summaryStep headlines hasBox sn st i
  = if ticks headlines hasBox sn i
    then mkTicked (ticked st ++ [i]) (selectedCount st + 1)
    else st.
Proof.
  unfold summaryStep, ticks.
  destruct (headlineAt headlines i) as [h|]; [|reflexivity].
  destruct ((2 <=? _) && QArith_base.Qle_bool _ _); [|reflexivity].
  now destruct (hasBox i).
Qed.

Lemma summary_fold headlines hasBox sn (l : list Z) : forall st,
  ticked (fold_left (summaryStep headlines hasBox sn) l st)
  = ticked st ++ filter (ticks headlines hasBox sn) l
  /\ selectedCount (fold_left (summaryStep headlines hasBox sn) l st)
     = selectedCount st + length (filter (ticks headlines hasBox sn) l).
Proof.
  induction l as [|i r IH]; intros st; simpl.
  - rewrite app_nil_r. split; [reflexivity | lia].
  - destruct (IH (summaryStep headlines hasBox sn st i)) as [H1 H2].
    rewrite H1, H2, summaryStep_ticks.
    destruct (ticks headlines hasBox sn i); simpl.
    + rewrite <- app_assoc. split; [reflexivity | lia].
    + split; reflexivity.
Qed.

Lemma setOfZ_from (l : list Z) : forall set,
  NoDup set ->
  NoDup (fold_left (fun set x => if memZ x set then set else set ++ [x]) l set)
  /\ (forall i, In i (fold_left (fun set x => if memZ x set then set else set ++ [x])
                                l set)
                <-> In i set \/ In i l).
Proof.
  induction l as [|x r IH]; intros set Hnd; simpl.
  - split; [exact Hnd | tauto].
  - destruct (memZ x set) eqn:E.
    + destruct (IH set Hnd) as [H1 H2]. split; [exact H1|].
      intros i. rewrite H2. apply memZ_In in E.
      split; [tauto|]. intros [H | [<- | H]]; tauto.
    + assert (Hnd' : NoDup (set ++ [x])).
      { apply NoDup_app; [exact Hnd | repeat constructor; intros [] |].
        intros y Hy [Heq | []]. subst y.
        assert (memZ x set = true) by now apply memZ_In. congruence. }
      destruct (IH _ Hnd') as [H1 H2]. split; [exact H1|].
      intros i. rewrite H2, in_app_iff. simpl. tauto.
Qed.

Lemma positions_NoDup (n : nat) : NoDup (map Z.of_nat (seq 0 n)).
Proof.
  generalize 0. induction n as [|n IH]; intros k; simpl; constructor.
  - intros H. apply in_map_iff in H. destruct H as [j [Hj Hin]].
    apply in_seq in Hin. lia.
  - apply IH.
Qed.

Lemma headlineAt_Some (headlines : list Headline) (i : Z) :
  (exists h, headlineAt headlines i = Some h)
  <-> (0 <= i < Z.of_nat (length headlines))%Z.
Proof.
  unfold headlineAt. destruct (0 <=? i)%Z eqn:E.
  - apply Z.leb_le in E. split.
    + intros [h Hh].
      assert (Z.to_nat i < length headlines) by (apply nth_error_Some; congruence).
      lia.
    + intros [_ H].
      destruct (nth_error headlines (Z.to_nat i)) as [h|] eqn:En; [now exists h|].
      apply nth_error_None in En. lia.
  - apply Z.leb_gt in E. split; [intros [h Hh]; discriminate | lia].
Qed.

(** What a call of [autoSelectFromSummary] ticks. *)
Lemma summary_ticked headlines hasBox summaryText allowed :
  let sn := (" " ++ normalizeText summaryText ++ " ")%string in
  let r := autoSelectFromSummary headlines hasBox summaryText allowed in
  NoDup (ticked r)
  /\ selectedCount r = length (ticked r)
  /\ (forall i, In i (ticked r) <->
        considered headlines allowed i /\ hasBox i = true
        /\ exists h, headlineAt headlines i = Some h /\ halfMatched h sn).
Proof.
  intros sn r. unfold r, autoSelectFromSummary. fold sn.
  set (iterate := match allowed with
                  | Some a => setOfZ a
                  | None => map Z.of_nat (seq 0 (length headlines))
                  end).
  destruct (summary_fold headlines hasBox sn iterate (mkTicked [] 0)) as [H1 H2].
  rewrite H1, H2. cbn [ticked selectedCount app]. 
  assert (Hnd : NoDup iterate).
  { unfold iterate. destruct allowed as [a|];
      [apply (setOfZ_from a []); constructor | apply positions_NoDup]. }
  assert (Hin : forall i, (exists h, headlineAt headlines i = Some h) ->
                (In i iterate <-> considered headlines allowed i)).
  { intros i Hh. unfold iterate, considered. destruct allowed as [a|].
    - unfold setOfZ. rewrite (proj2 (setOfZ_from a [] (NoDup_nil Z)) i).
      simpl. tauto.
    - apply headlineAt_Some in Hh. rewrite in_map_iff. split.
      + intros [j [<- Hj]]. apply in_seq in Hj. lia.
      + intros _. exists (Z.to_nat i). split; [lia | apply in_seq; lia]. }
  split; [now apply NoDup_filter|]. split; [reflexivity|].
  intros i. rewrite filter_In. unfold ticks, halfMatched.
  destruct (headlineAt headlines i) as [h|] eqn:Eh.
  - rewrite (Hin i (ex_intro _ h Eh)).
    rewrite andb_true_iff, half_test. split.
    + intros [Hc [Hhalf Hb]]. repeat split; try assumption.
      exists h. split; [reflexivity | exact Hhalf].
    + intros [Hc [Hb [h' [[= <-] Hhalf]]]]. auto.
  - split; [intros [_ H]; discriminate | intros [_ [_ [h' [H _]]]]; discriminate].
Qed.

(** X18. [autoSelectFromSummary] ticks, once each, exactly the considered
    indices (the allowed ones, or all positions) that are positions of the
    headline list with a box and whose title has at least two informative
    tokens, at least half of them whole words of the normalized summary; it
    returns their number. *)
Theorem autoSelectFromSummary_ticks :
  forall headlines hasBox summaryText allowed,
    let sn := (" " ++ normalizeText summaryText ++ " ")%string in
    let r := autoSelectFromSummary headlines hasBox summaryText allowed in
    NoDup (ticked r)
    /\ selectedCount r = length (ticked r)
    /\ (forall i, In i (ticked r) <->
          considered headlines allowed i /\ hasBox i = true
          /\ exists h, headlineAt headlines i = Some h /\ halfMatched h sn).
Proof. intros. apply summary_ticked. Qed.

(** X19. A summary that is the title of a headline ticks that headline,
    when the title has at least two informative tokens, the headline has a
    box and its position is considered. *)
Theorem own_title_is_ticked :
  forall headlines hasBox allowed i h,
    nth_error headlines i = Some h ->
    hasBox (Z.of_nat i) = true ->
    considered headlines allowed (Z.of_nat i) ->
    2 <= length (tokensFromTitle (orEmpty (Scorer.title h))) ->
    In (Z.of_nat i)
       (ticked (autoSelectFromSummary headlines hasBox
                  (orEmpty (Scorer.title h)) allowed)).
Proof.
  intros headlines hasBox allowed i h Hn Hb Hc Hlen.
  apply summary_ticked. split; [exact Hc|]. split; [exact Hb|].
  exists h. split.
  - unfold headlineAt.
    assert (E : (0 <=? Z.of_nat i)%Z = true) by (apply Z.leb_le; lia).
    now rewrite E, Nat2Z.id.
  - unfold halfMatched. cbv zeta. split; [exact Hlen|].
    unfold countMatches.
    rewrite (proj2 (countMatches_from _ _ 0)); [lia|].
    apply title_words_in_own_text.
Qed.

End SummaryFacts.

Lemma own_title_is_ticked_witness :
  nth_error
    [Scorer.mkHeadline (Some "Markets rally") None None None;
     Scorer.mkHeadline (Some "Parliament passes the budget") None None None] 1
  = Some (Scorer.mkHeadline (Some "Parliament passes the budget") None None None)
  /\ In (Z.of_nat 1)
        (Summary.ticked (Summary.autoSelectFromSummary
           [Scorer.mkHeadline (Some "Markets rally") None None None;
            Scorer.mkHeadline (Some "Parliament passes the budget") None None None]
           (fun _ => true)
           (JS.orEmpty (Scorer.title
              (Scorer.mkHeadline (Some "Parliament passes the budget") None None None)))
           None)).
Proof.
  split; [reflexivity|].
  refine (own_title_is_ticked
    [Scorer.mkHeadline (Some "Markets rally") None None None;
     Scorer.mkHeadline (Some "Parliament passes the budget") None None None]
    (fun _ => true) None 1
    (Scorer.mkHeadline (Some "Parliament passes the budget") None None None)
    eq_refl eq_refl _ _).
  - simpl. lia.
  - vm_compute. lia.
Defined.

(** ** Video candidate filters: what the result holds *)
Section VideoMore.
Import JS Video.
Variable hostname : option string -> string.
Variable localeCompare : string -> string -> Z.

Local Abbreviation filterStages := (Video.filterStages hostname).
Local Abbreviation applyVideoFilters :=
  (Video.applyVideoFilters hostname localeCompare).

Lemma filter_length_le {X : Type} (f : X -> bool) (l : list X) :
  length (filter f l) <= length l.
Proof.
  induction l as [|x r IH]; simpl; [lia|]. destruct (f x); simpl; lia.
Qed.

Lemma stage_length {X : Type} (b : bool) (f : X -> bool) (l : list X) :
  length (if b then filter f l else l) <= length l.
Proof. destruct b; [apply filter_length_le | lia]. Qed.

Lemma filterStages_length (c : Controls) (all : list VideoCandidate) :
  length (filterStages c all) <= length all.
Proof.
  unfold Video.filterStages. cbv zeta.
  repeat (eapply Nat.le_trans; [apply stage_length|]). lia.
Qed.

(** What the four filters let through. *)
Lemma filterStages_keeps (c : Controls) (all : list VideoCandidate)
  (v : VideoCandidate) :
  In v (filterStages c all) ->
  In v all
  /\ (String.eqb (vidType c) "all" = false -> typeFilter (vidType c) v = true)
  /\ (vidPlayableOnly c = true -> playable v = true)
  /\ (truthy (trim (toLowerCase (vidSearch c))) = true ->
      keywordFilter hostname (trim (toLowerCase (vidSearch c))) v = true)
  /\ (vidFromSelectedOnly c = true ->
      existsb (optEqb (pageUrl v)) (selectedHeadlineUrls c) = true).
Proof.
  unfold Video.filterStages. cbv zeta. intros H.
  apply stage_In in H. destruct H as [H H4].
  apply stage_In in H. destruct H as [H H3].
  apply stage_In in H. destruct H as [H H2].
  apply stage_In in H. destruct H as [H H1].
  repeat split; try assumption.
  intros E. apply H1. now rewrite E.
Qed.

Lemma mapSet_length_present (m : BestMap) (k : option string)
  (v : VideoCandidate) :
  mapGet m k <> None -> length (mapSet m k v) = length m.
Proof.
  induction m as [|[k' v'] r IH]; simpl; [congruence|].
  destruct (optEqb k' k); simpl; [reflexivity|].
  intros H. now rewrite IH.
Qed.

Lemma bestFold_length (l : list VideoCandidate) : forall m,
  length (fold_left bestStep l m) <= length m + length l.
Proof.
  induction l as [|v r IH]; intros m; simpl; [lia|].
  specialize (IH (bestStep m v)).
  assert (length (bestStep m v) <= length m + 1); [|lia].
  unfold bestStep. destruct (mapGet m (pageKey v)) as [cur|] eqn:E.
  - destruct (rank cur <? rank v); [|lia].
    rewrite mapSet_length_present; [lia | congruence].
  - rewrite (mapSet_new _ _ _ (mapGet_None _ _ E)), length_app. simpl. lia.
Qed.

Lemma uniquePerPage_length (l : list VideoCandidate) :
  length (uniquePerPage l) <= length l.
Proof.
  unfold uniquePerPage. rewrite length_map.
  apply (bestFold_length l []).
Qed.

Lemma applyVideoFilters_In (c : Controls) (all : list VideoCandidate)
  (v : VideoCandidate) :
  In v (applyVideoFilters c all) -> In v (filterStages c all).
Proof.
  intros H. apply (Permutation_in _ (applyVideoFilters_perm hostname localeCompare c all)) in H.
  destruct (vidUniquePerPage c); [|exact H].
  apply (Chosen_In (filterStages c all)). now apply uniquePerPage_spec.
Qed.

(** X20. The filters add nothing: every candidate of the result is one of
    the input, the result is no longer than the input, and without the
    per-page dedup it is the candidates that pass the four filters,
    reordered. *)
Theorem applyVideoFilters_subset :
  forall c all,
    (forall v, In v (applyVideoFilters c all) -> In v all)
    /\ length (applyVideoFilters c all) <= length all
    /\ (vidUniquePerPage c = false ->
        Permutation (applyVideoFilters c all) (filterStages c all)).
Proof.
  intros c all. pose proof (applyVideoFilters_perm hostname localeCompare c all) as Hperm.
  split; [|split].
  - intros v Hv. apply applyVideoFilters_In in Hv.
    now apply filterStages_keeps in Hv.
  - rewrite (Permutation_length Hperm).
    pose proof (filterStages_length c all).
    destruct (vidUniquePerPage c); [|assumption].
    pose proof (uniquePerPage_length (filterStages c all)). lia.
  - intros E. now rewrite E in Hperm.
Qed.

Lemma bucketEqb_eq (a b : Bucket) : bucketEqb a b = true <-> a = b.
Proof. destruct a, b; simpl; split; congruence. Qed.

(** X21. Every candidate of the result passes each filter that is on: it is
    of the bucket the type selector names; with playable-only, not an
    embed; with a search text, a match of it (in lowercase, trimmed) in the
    title, a URL or a host name; with from-selected-only, a candidate whose
    page URL is the link of a ticked headline. *)
Theorem applyVideoFilters_respects :
  forall c all v,
    In v (applyVideoFilters c all) ->
    (forall b, vidType c = bucketName b -> videoTypeBucket v = b)
    /\ (vidPlayableOnly c = true -> videoTypeBucket v <> embed)
    /\ (trim (toLowerCase (vidSearch c)) <> EmptyString ->
        keywordFilter hostname (trim (toLowerCase (vidSearch c))) v = true)
    /\ (vidFromSelectedOnly c = true ->
        In (pageUrl v) (selectedHeadlineUrls c)).
Proof.
  intros c all v Hv. apply applyVideoFilters_In in Hv.
  apply filterStages_keeps in Hv. destruct Hv as [_ [H1 [H2 [H3 H4]]]].
  repeat split.
  - intros b Hb. rewrite Hb in H1.
    destruct b; cbn in H1; specialize (H1 eq_refl);
      unfold typeFilter in H1; cbn in H1; now apply bucketEqb_eq.
  - intros Hp Hb. specialize (H2 Hp). unfold playable in H2.
    rewrite Hb in H2. discriminate.
  - intros Hq. apply H3. destruct (trim (toLowerCase (vidSearch c)));
      [now elim Hq | reflexivity].
  - intros Hs. specialize (H4 Hs). apply existsb_exists in H4.
    destruct H4 as [u [Hu He]]. apply optEqb_eq in He. now subst.
Qed.

(** X22. With none of the filters on, the result is the input reordered. *)
Theorem applyVideoFilters_unfiltered :
  forall c all,
    vidType c = "all" -> vidPlayableOnly c = false ->
    vidUniquePerPage c = false -> vidFromSelectedOnly c = false ->
    trim (toLowerCase (vidSearch c)) = EmptyString ->
    Permutation (applyVideoFilters c all) all.
Proof.
  intros c all Ht Hp Hu Hs Hq.
  pose proof (applyVideoFilters_perm hostname localeCompare c all) as Hperm.
  rewrite Hu in Hperm. unfold Video.filterStages in Hperm.
  now rewrite Ht, Hp, Hs, Hq in Hperm.
Qed.

Hypothesis localeCompare_total :
  forall a b, (0 < localeCompare a b)%Z -> (localeCompare b a <= 0)%Z.

(** X23. The result is in the order of the sort keys: no candidate is
    followed by one whose key the comparator puts before its own. *)
Theorem applyVideoFilters_sorted :
  forall c all,
    Sorted (fun a b => (localeCompare (sortKey a) (sortKey b) <= 0)%Z)
           (applyVideoFilters c all).
Proof.
  intros c all. unfold Video.applyVideoFilters.
  apply (sort_sorted (bySortKey localeCompare)).
  intros a b. unfold bySortKey. apply localeCompare_total.
Qed.

End VideoMore.

Lemma applyVideoFilters_respects_witness :
  In (Video.mkVideo (Some "Alpha") (Some "https://cdn.example/a.mp4")
                    (Some "https://news.example/one") (Some "mp4"))
     (Video.applyVideoFilters hostBetweenSlashes codeUnitCompare
        (Video.mkControls true false false "direct" "" [])
        [Video.mkVideo (Some "Beta") (Some "https://player.other/e/1")
                       (Some "https://news.example/two") (Some "embed");
         Video.mkVideo (Some "Alpha") (Some "https://cdn.example/a.mp4")
                       (Some "https://news.example/one") (Some "mp4")])
  /\ Video.videoTypeBucket
       (Video.mkVideo (Some "Alpha") (Some "https://cdn.example/a.mp4")
                      (Some "https://news.example/one") (Some "mp4"))
     = Video.direct.
Proof.
  split; [vm_compute; left; reflexivity|].
  apply (proj1 (applyVideoFilters_respects hostBetweenSlashes codeUnitCompare
     (Video.mkControls true false false "direct" "" [])
     [Video.mkVideo (Some "Beta") (Some "https://player.other/e/1")
                    (Some "https://news.example/two") (Some "embed");
      Video.mkVideo (Some "Alpha") (Some "https://cdn.example/a.mp4")
                    (Some "https://news.example/one") (Some "mp4")]
     (Video.mkVideo (Some "Alpha") (Some "https://cdn.example/a.mp4")
                    (Some "https://news.example/one") (Some "mp4"))
     (or_introl eq_refl)) Video.direct).
  reflexivity.
Defined.

Lemma applyVideoFilters_unfiltered_witness :
  JS.trim (JS.toLowerCase "  ") = EmptyString
  /\ Permutation
       (Video.applyVideoFilters hostBetweenSlashes codeUnitCompare
          (Video.mkControls false false false "all" "  " [])
          [Video.mkVideo (Some "Beta") None None (Some "embed");
           Video.mkVideo (Some "Alpha") None None (Some "mp4")])
       [Video.mkVideo (Some "Beta") None None (Some "embed");
        Video.mkVideo (Some "Alpha") None None (Some "mp4")].
Proof.
  split; [reflexivity|].
  exact (applyVideoFilters_unfiltered hostBetweenSlashes codeUnitCompare
           (Video.mkControls false false false "all" "  " [])
           [Video.mkVideo (Some "Beta") None None (Some "embed");
            Video.mkVideo (Some "Alpha") None None (Some "mp4")]
           eq_refl eq_refl eq_refl eq_refl eq_refl).
Defined.

Lemma applyVideoFilters_sorted_witness :
  (forall a b, (0 < codeUnitCompare a b)%Z -> (codeUnitCompare b a <= 0)%Z)
  /\ Sorted (fun a b => (codeUnitCompare (Video.sortKey a) (Video.sortKey b) <= 0)%Z)
       (Video.applyVideoFilters hostBetweenSlashes codeUnitCompare
          (Video.mkControls false false false "all" "" [])
          [Video.mkVideo (Some "Beta") None None (Some "embed");
           Video.mkVideo (Some "Alpha") None None (Some "mp4")]).
Proof.
  split; [exact codeUnitCompare_total|].
  exact (applyVideoFilters_sorted hostBetweenSlashes codeUnitCompare
           codeUnitCompare_total
           (Video.mkControls false false false "all" "" [])
           [Video.mkVideo (Some "Beta") None None (Some "embed");
            Video.mkVideo (Some "Alpha") None None (Some "mp4")]).
Defined.

(** ** The headline list on the page *)
Section RenderFacts.
Import Mentions Render.

Lemma insert_front {A : Type} (cmp : A -> A -> Z) (x : A) (l : list A) :
  (forall y, In y l -> (cmp x y <= 0)%Z) -> Arr.insert cmp x l = x :: l.
Proof.
  destruct l as [|y r]; simpl; [reflexivity|].
  intros H. specialize (H y (or_introl eq_refl)).
  apply Z.leb_le in H. now rewrite H.
Qed.

Lemma insert_past {A : Type} (cmp : A -> A -> Z) (x : A) (l1 l2 : list A) :
  (forall y, In y l1 -> (0 < cmp x y)%Z) ->
  Arr.insert cmp x (l1 ++ l2) = l1 ++ Arr.insert cmp x l2.
Proof.
  induction l1 as [|y r IH]; intros H; simpl; [reflexivity|].
  assert (E : (cmp x y <=? 0)%Z = false)
    by (apply Z.leb_gt, H; now left).
  rewrite E, IH; [reflexivity|]. intros z Hz. apply H. now right.
Qed.

Lemma rows_sorted (picked : list Z) (l : list nat) :
  StronglySorted lt l ->
  Arr.sort rowCmp (map (fun i => mkRow i (isSelected picked i)) l)
  = rowsWith true (filter (isSelected picked) l)
    ++ rowsWith false (filter (fun i => negb (isSelected picked i)) l).
Proof.
  induction l as [|x r IH]; intros H; [reflexivity|].
  inversion H as [|? ? Hr Hx]; subst. rewrite Forall_forall in Hx.
  cbn [map Arr.sort fold_right].
  change (fold_right (Arr.insert rowCmp) []
            (map (fun i => mkRow i (isSelected picked i)) r))
    with (Arr.sort rowCmp (map (fun i => mkRow i (isSelected picked i)) r)).
  rewrite (IH Hr). cbn [filter].
  assert (Hin : forall b f y, In y (rowsWith b (filter f r)) ->
                  Render.sel y = b /\ x < idx y)
    by (intros b f y Hy; unfold rowsWith in Hy; apply in_map_iff in Hy;
        destruct Hy as [i [<- Hi]]; apply filter_In in Hi;
        split; [reflexivity | apply Hx, Hi]).
  destruct (isSelected picked x) eqn:E; cbn [negb].
  - cbn [rowsWith map app]. apply insert_front.
    intros y Hy. apply in_app_or in Hy. unfold rowCmp. cbn [Render.sel idx].
    destruct Hy as [Hy | Hy]; apply Hin in Hy; destruct Hy as [-> Hlt];
      cbn; lia.
  - rewrite insert_past.
    + cbn [rowsWith map]. f_equal. apply insert_front.
      intros y Hy. apply Hin in Hy. destruct Hy as [Hs Hlt].
      unfold rowCmp. cbn [Render.sel idx]. rewrite Hs. cbn. lia.
    + intros y Hy. apply Hin in Hy. destruct Hy as [Hs Hlt].
      unfold rowCmp. cbn [Render.sel idx]. rewrite Hs. cbn. lia.
Qed.

Lemma seq_increasing (n : nat) : forall a, StronglySorted lt (seq a n).
Proof.
  induction n as [|n IH]; intros a; simpl; constructor; [apply IH|].
  apply Forall_forall. intros y Hy. apply in_seq in Hy. lia.
Qed.

Lemma renderHeadlines_rows {A : Type} (items : list A) (picked : list Z) :
  renderHeadlines items picked
  = rowsWith true (filter (isSelected picked) (seq 0 (length items)))
    ++ rowsWith false
         (filter (fun i => negb (isSelected picked i)) (seq 0 (length items))).
Proof.
  unfold renderHeadlines, rowsOf. apply rows_sorted, seq_increasing.
Qed.

(** X24. The rendered list shows the selected headlines first, then the
    others, each group in headline order; every position of the list has
    one row, ticked exactly when it is selected. *)
Theorem renderHeadlines_order :
  forall (A : Type) (items : list A) (selectedIndices : list Z),
    renderHeadlines items selectedIndices
    = rowsWith true (filter (isSelected selectedIndices) (seq 0 (length items)))
      ++ rowsWith false
           (filter (fun i => negb (isSelected selectedIndices i))
                   (seq 0 (length items)))
    /\ Permutation (map idx (renderHeadlines items selectedIndices))
                   (seq 0 (length items))
    /\ (forall r, In r (renderHeadlines items selectedIndices) ->
                  sel r = isSelected selectedIndices (idx r)).
Proof.
  intros A items selected. split; [apply renderHeadlines_rows|]. split.
  - unfold renderHeadlines, rowsOf.
    eapply Permutation_trans;
      [apply Permutation_map, sort_perm|].
    rewrite map_map. simpl. rewrite map_id. apply Permutation_refl.
  - intros r Hr. unfold renderHeadlines in Hr. apply sort_In in Hr.
    unfold rowsOf in Hr. apply in_map_iff in Hr.
    destruct Hr as [i [<- _]]. reflexivity.
Qed.

Lemma selected_of_rows (l1 l2 : list nat) :
  getSelectedIndices (rowsWith true l1 ++ rowsWith false l2)
  = map Z.of_nat l1.
Proof.
  unfold getSelectedIndices, rowsWith. rewrite filter_app.
  assert (H1 : filter sel (map (fun i => mkRow i true) l1)
               = map (fun i => mkRow i true) l1)
    by (induction l1 as [|x r IH]; simpl; [reflexivity | now rewrite IH]).
  assert (H2 : filter sel (map (fun i => mkRow i false) l2) = [])
    by (induction l2 as [|x r IH]; simpl; [reflexivity | exact IH]).
  rewrite H1, H2, app_nil_r, map_map. reflexivity.
Qed.

(** X25. Read back from the rendered page, the selection is the selected
    positions of the list in headline order, and reordering the page by its
    own selection leaves it as it is. *)
Theorem render_selection_round_trip :
  forall (A : Type) (items : list A) (selectedIndices : list Z),
    getSelectedIndices (renderHeadlines items selectedIndices)
    = map Z.of_nat
        (filter (isSelected selectedIndices) (seq 0 (length items)))
    /\ reorderHeadlinesBySelection items (renderHeadlines items selectedIndices)
       = renderHeadlines items selectedIndices.
Proof.
  intros A items selected.
  assert (Hread : getSelectedIndices (renderHeadlines items selected)
                  = map Z.of_nat
                      (filter (isSelected selected) (seq 0 (length items))))
    by (rewrite renderHeadlines_rows; apply selected_of_rows).
  split; [exact Hread|].
  unfold reorderHeadlinesBySelection. rewrite Hread.
  unfold renderHeadlines, rowsOf. f_equal.
  apply map_ext_in. intros i Hi. f_equal.
  destruct (memZ (Z.of_nat i) selected) eqn:E.
  - apply memZ_In. apply in_map, filter_In. split; [exact Hi | exact E].
  - destruct (memZ (Z.of_nat i) (map Z.of_nat _)) eqn:E'; [|reflexivity].
    apply memZ_In, in_map_iff in E'. destruct E' as [j [Hj Hin]].
    apply Nat2Z.inj in Hj. subst j. apply filter_In in Hin.
    unfold isSelected in Hin. destruct Hin as [_ Hin]. congruence.
Qed.

End RenderFacts.
